(** * KochiKonnect: multi-objective ranking of metro trainsets

    A shallow embedding of the ranking engine of
    [backend_nsga_service.py] (the HTTP entry point: mapping of the rows,
    weights, fronts, crowding distance, order, response and conflict
    messages) and of [nsga_train_ranking.py] (the CSV entry point: reader,
    objectives, fronts, ranking and labels), together with the properties
    the specification states about them and further properties of the
    code.

    Conventions of the embedding.
    - A Python [float] is an exact rational ([rat]); [math.inf] and its
      negation are the two extra points of [xrat].  NaN and rounding are
      not represented.
    - A Python [str] is a [string] of 8-bit characters; [lower] and [strip]
      act on the ASCII range.
    - [row.get(key)] on a request row is a record field of type [option]:
      [None] stands for a missing key or a JSON null.
    - A list index [xs[i]] is [nth]; the default of [nth] stands where Python
      raises [IndexError], and the statements below carry the hypotheses
      (equal lengths, indices below the population size) under which no
      default is ever read.
    - An exception that aborts a request is the [None] of an [option]
      result; the [while] loop of the front builder runs on fuel and returns
      [None] when the fuel is exhausted. *)

From HB Require Import structures.
From Stdlib Require Import String Ascii.
From mathcomp Require Import ssreflect ssrfun ssrbool eqtype ssrnat seq path.
From mathcomp Require Import order ssralg ssrnum ssrint rat.
From mathcomp Require Import ring_tactic arithmetic_tactic.

Set Implicit Arguments.
Unset Strict Implicit.
Unset Printing Implicit Defensive.

Import Order.Theory GRing.Theory Num.Theory.

(* ------------------------------------------------------------------ *)
(** ** Python strings *)

HB.instance Definition _ := hasDecEq.Build ascii Ascii.eqb_spec.
HB.instance Definition _ := hasDecEq.Build string String.eqb_spec.

Module PyStr.

Definition is_upper (c : ascii) : bool :=
  (65 <= nat_of_ascii c) && (nat_of_ascii c <= 90).

Definition lower_char (c : ascii) : ascii :=
  if is_upper c then ascii_of_nat (nat_of_ascii c + 32) else c.

(** [s.lower()] *)
Fixpoint lower (s : string) : string :=
  match s with
  | EmptyString => EmptyString
  | String c s' => String (lower_char c) (lower s')
  end.

(** The characters [str.strip()] removes, within the 8-bit range:
    tab, LF, VT, FF, CR, the separators 28..31 and the blank. *)
Definition is_space (c : ascii) : bool :=
  nat_of_ascii c \in [:: 9; 10; 11; 12; 13; 28; 29; 30; 31; 32].

Fixpoint lstrip (s : seq ascii) : seq ascii :=
  match s with
  | c :: s' => if is_space c then lstrip s' else s
  | [::] => [::]
  end.

(** [s.strip()] *)
Definition strip (s : string) : string :=
  string_of_list_ascii
    (rev (lstrip (rev (lstrip (list_ascii_of_string s))))).

(** [k in s] for two strings: [k] occurs in [s] as a contiguous block. *)
Fixpoint py_in (k s : string) : bool :=
  String.prefix k s ||
  match s with
  | String _ s' => py_in k s'
  | EmptyString => false
  end.

(** [any(k in s for k in ks)] *)
Definition any_in (ks : seq string) (s : string) : bool :=
  has (fun k => py_in k s) ks.

End PyStr.
Import PyStr.

(* ------------------------------------------------------------------ *)
(** ** Floats with the two infinities *)

Inductive xrat : Type := NInf | Fin (q : rat) | PInf.

Definition xrat_enc (x : xrat) : rat + bool :=
  match x with Fin q => inl q | PInf => inr true | NInf => inr false end.

Definition xrat_dec (y : rat + bool) : xrat :=
  match y with inl q => Fin q | inr true => PInf | inr false => NInf end.

Lemma xrat_encK : cancel xrat_enc xrat_dec.
Proof. by case. Qed.

HB.instance Definition _ := Equality.copy xrat (can_type xrat_encK).

(** [d + q] for a finite [q]: an infinite [d] absorbs it. *)
Definition xadd (d : xrat) (q : rat) : xrat :=
  match d with Fin a => Fin (a + q)%R | _ => d end.

(** unary minus *)
Definition xneg (d : xrat) : xrat :=
  match d with Fin a => Fin (- a)%R | PInf => NInf | NInf => PInf end.

(** [a <= b] *)
Definition xle (a b : xrat) : bool :=
  match a, b with
  | NInf, _ => true
  | _, PInf => true
  | Fin x, Fin y => (x <= y)%R
  | _, _ => false
  end.

(* ------------------------------------------------------------------ *)
(** ** Request rows *)

(** A JSON value found under the key ["mileage"]: absent or null, a
    number, or a text.  (Booleans and containers are left out.) *)
Inductive jval : Type :=
  | JNull
  | JNum (q : rat)
  | JStr (s : string).

(** One element of [payload["rows"]]. *)
Record Row : Type := mkRow {
  row_train_id : option string;
  row_fitness : option string;
  row_job_cards : option string;
  row_branding : option string;
  row_mileage : jval;
  row_cleaning : option string;
  row_stabling : option string;
  row_updated_at : option string
}.

(** The dictionary [payload.get("weights", {})]: [None] is a missing key. *)
Record Weights : Type := mkWeights {
  w_fitness : option rat;
  w_jobs : option rat;
  w_branding : option rat;
  w_mileage : option rat;
  w_cleaning : option rat;
  w_stabling : option rat
}.

Definition no_weights : Weights := mkWeights None None None None None None.

(** The dictionary returned by [_normalize_statuses]. *)
Record Statuses : Type := mkStatuses {
  st_fitness : string;
  st_job_cards : string;
  st_branding : string;
  st_cleaning : string;
  st_stabling : string
}.

(** The [extras] dictionary of [map_row_to_objectives]. *)
Record Extras : Type := mkExtras {
  ex_fitness : string;
  ex_job_card_status : string;
  ex_branding_priority : string;
  ex_mileage : rat;
  ex_cleaning_status : string;
  ex_stabling_position : string;
  ex_updated_at : option string
}.

(** The [alerts] dictionary of [map_row_to_objectives]. *)
Record Alerts : Type := mkAlerts {
  al_fitness_invalid : bool;
  al_job_open : bool;
  al_cleaning_pending : bool;
  al_cleaning_partial : bool;
  al_no_stabling : bool
}.

(** [[f x for x in xs]] where [f] may raise: the first failure aborts. *)
Fixpoint map_opt (A B : Type) (f : A -> option B) (xs : seq A) : option (seq B) :=
  match xs with
  | [::] => Some [::]
  | x :: xs' =>
      match f x with
      | Some y => omap (cons y) (map_opt f xs')
      | None => None
      end
  end.

Section Mapping.

Local Open Scope ring_scope.
Local Open Scope string_scope.

(** The builtin [float] applied to a non-empty [str]: [Some q] when the text
    denotes the number [q], [None] when it raises [ValueError]. *)
Variable str_to_float : string -> option rat.

(** [float(x or 0.0)] *)
Definition float_or_zero (x : jval) : option rat :=
  match x with
  | JNull => Some 0
  | JNum q => Some q
  | JStr s => if s == "" then Some 0 else str_to_float s
  end.

(** [str(s or '').strip().lower()] *)
Definition _norm_text (s : option string) : string :=
  lower (strip (odflt "" s)).

Definition _normalize_statuses (row : Row) : Statuses :=
  let f := _norm_text (row_fitness row) in
  let fitness :=
    if py_in "valid" f then "Valid"
    else if any_in [:: "expired"; "invalid"; "revoked"] f then "Expired"
    else "Conditional" in
  let j := _norm_text (row_job_cards row) in
  let jobs :=
    if any_in [:: "critical"; "major"; "open"] j then "Open"
    else if any_in [:: "minor"; "pending"] j then "Minor"
    else "Closed" in
  let b := _norm_text (row_branding row) in
  let branding :=
    if b == "high" then "High"
    else if b == "medium" then "Medium"
    else "Low" in
  let c := _norm_text (row_cleaning row) in
  let cleaning :=
    if any_in [:: "complete"; "clean"] c then "Complete"
    else if any_in [:: "partial"; "inprogress"] c then "Partial"
    else "Pending" in
  let stabling := odflt "" (row_stabling row) in
  mkStatuses fitness jobs branding cleaning stabling.

(** Returns [(objectives, extras, penalty, alerts)]; [None] when the mileage
    conversion raises. *)
Definition map_row_to_objectives (row : Row) (fleet_avg_mileage : rat)
  : option (seq rat * Extras * rat * Alerts) :=
  let norm := _normalize_statuses row in
  let ftxt := _norm_text (Some (st_fitness norm)) in
  let fitness_invalid : rat :=
    if py_in "invalid" ftxt || py_in "expired" ftxt || py_in "revoked" ftxt
    then 1 else 0 in
  let jtxt := _norm_text (Some (st_job_cards norm)) in
  let jobs : rat :=
    if any_in [:: "critical"; "major"; "open"] jtxt then 1
    else if any_in [:: "minor"; "pending"] jtxt then 1 / 2
    else 0 in
  let btxt := _norm_text (Some (st_branding norm)) in
  let branding : rat :=
    if btxt == "high" then 1 else if btxt == "medium" then 1 / 2 else 0 in
  if float_or_zero (row_mileage row) is Some mileage then
    let mileage_dev := `|mileage - fleet_avg_mileage| in
    let ctxt := _norm_text (Some (st_cleaning norm)) in
    let cleaning_need : rat :=
      if py_in "complete" ctxt || py_in "clean" ctxt then 0
      else if py_in "partial" ctxt then 1 / 2 else 1 in
    let stab := strip (st_stabling norm) in
    let geometry : rat := if stab != "" then 0 else 1 / 2 in
    let penalty : rat := if 0 < fitness_invalid then 10%:R else 0 in
    let objectives :=
      [:: fitness_invalid; jobs; branding; mileage_dev; cleaning_need; geometry] in
    let extras :=
      mkExtras (st_fitness norm) (st_job_cards norm) (st_branding norm)
               mileage (st_cleaning norm) (st_stabling norm)
               (row_updated_at row) in
    let alerts :=
      mkAlerts (fitness_invalid != 0)
               (py_in jtxt "open" || any_in [:: "major"; "critical"] jtxt)
               (py_in "pending" ctxt)
               (py_in "partial" ctxt)
               (stab == "") in
    Some (objectives, extras, penalty, alerts)
  else None.

End Mapping.

(* ------------------------------------------------------------------ *)
(** ** Column normalisation and weights *)

Section Weighting.

Local Open Scope ring_scope.

(** [_norm]: [min(vals)] and [max(vals)] are folds over the non-empty list. *)
Definition _norm (vals : seq rat) : seq rat :=
  if vals is v :: vs then
    let vmin := foldl Num.min v vs in
    let vmax := foldl Num.max v vs in
    if vmax - vmin == 0 then [seq 0 | _ <- vals]
    else [seq (x - vmin) / (vmax - vmin) | x <- vals]
  else vals.

(** [list(zip( *objs))]: one list per column, as many columns as the
    shortest row has entries. *)
Definition zip_star (objs : seq (seq rat)) : seq (seq rat) :=
  if objs is r :: rs then
    let m := foldl minn (size r) [seq size x | x <- rs] in
    [seq [seq nth 0 row k | row <- objs] | k <- iota 0 m]
  else [::].

Definition apply_weights (objs : seq (seq rat)) (weights : Weights)
  : seq (seq rat) :=
  let w_f := odflt 5%:R (w_fitness weights) in
  let w_j := odflt 2%:R (w_jobs weights) in
  let w_b := odflt (3%:R / 2%:R) (w_branding weights) in
  let w_m := odflt 1 (w_mileage weights) in
  let w_c := odflt (5%:R / 4%:R) (w_cleaning weights) in
  let w_s := odflt (3%:R / 4%:R) (w_stabling weights) in
  let cols := zip_star objs in
  let cols_norm := [seq _norm col | col <- cols] in
  [seq (let n := [seq nth 0 (nth [::] cols_norm k) i
                 | k <- iota 0 (size cols_norm)] in
        [:: nth 0 n 0 * w_f; nth 0 n 1 * w_j; nth 0 n 2 * w_b;
            nth 0 n 3 * w_m; nth 0 n 4 * w_c; nth 0 n 5 * w_s])
  | i <- iota 0 (size objs)].

End Weighting.

(* ------------------------------------------------------------------ *)
(** ** NSGA-II ranking *)

Section NSGA.

Local Open Scope ring_scope.

Definition _dominates (a b : seq rat) : bool :=
  let not_worse := all (fun xy => xy.1 <= xy.2) (zip a b) in
  let strictly_better := has (fun xy => xy.1 < xy.2) (zip a b) in
  not_worse && strictly_better.

(** [pop[i]] *)
Definition vec (pop : seq (seq rat)) (i : nat) : seq rat := nth [::] pop i.

(** [pop[i][k]] *)
Definition val (pop : seq (seq rat)) (i k : nat) : rat := nth 0 (vec pop i) k.

(** The list [S] after the double loop of [_non_dominated_sort]: [S[p]]
    holds, in increasing order, every [q != p] that [p] dominates. *)
Definition build_S (pop : seq (seq rat)) : seq (seq nat) :=
  let n := size pop in
  [seq [seq q <- iota 0 n | (q != p) && _dominates (vec pop p) (vec pop q)]
  | p <- iota 0 n].

(** The list [n_dom] after the double loop: [n_dom[p]] counts the [q != p]
    taken by the [elif] branch. *)
Definition build_n_dom (pop : seq (seq rat)) : seq int :=
  let n := size pop in
  [seq (count (fun q => [&& q != p, ~~ _dominates (vec pop p) (vec pop q)
                         & _dominates (vec pop q) (vec pop p)])
              (iota 0 n))%:Z
  | p <- iota 0 n].

(** Body of the innermost loop, on the pair [(n_dom, next_front)]:
    [n_dom[q] -= 1], then [next_front.append(q)] when it reached zero. *)
Definition relax (st : seq int * seq nat) (q : nat) : seq int * seq nat :=
  let nd := set_nth 0 st.1 q (nth 0 st.1 q - 1) in
  (nd, if nth 0 nd q == 0 then rcons st.2 q else st.2).

(** One pass of the [while] body over [current]. *)
Definition sweep (S : seq (seq nat)) (nd : seq int) (current : seq nat)
  : seq int * seq nat :=
  foldl (fun st p => foldl relax st (nth [::] S p)) (nd, [::]) current.

(** The fronts appended from [current] on: [current] itself when it is not
    empty, followed by what the next turn of the [while] loop appends.
    [None] when the fuel runs out before [current] is empty. *)
Fixpoint peel (fuel : nat) (S : seq (seq nat)) (nd : seq int)
    (current : seq nat) : option (seq (seq nat)) :=
  if current is [::] then Some [::]
  else if fuel is f.+1 then
    let: (nd', next_front) := sweep S nd current in
    omap (cons current) (peel f S nd' next_front)
  else None.

Definition _non_dominated_sort (pop : seq (seq rat)) : option (seq (seq nat)) :=
  let n := size pop in
  let n_dom := build_n_dom pop in
  peel n (build_S pop) n_dom [seq i <- iota 0 n | nth 0 n_dom i == 0].

(** The dictionary [dist] of [_crowding_distance], keyed by candidate index. *)
Definition dict : Type := nat -> option xrat.

Definition dict_empty : dict := fun _ => None.

(** [d[i] = v] *)
Definition dict_set (d : dict) (i : nat) (v : xrat) : dict :=
  fun j => if j == i then Some v else d j.

(** [d.get(i, 0.0)]; also [d[i]] for a key that is present. *)
Definition dict_get (d : dict) (i : nat) : xrat := odflt (Fin 0) (d i).

(** [sorted(front, key=lambda i: pop[i][k])] *)
Definition sort_by_dim (pop : seq (seq rat)) (k : nat) (front : seq nat)
  : seq nat :=
  sort (fun i j => val pop i k <= val pop j k) front.

(** Body of the loop [for j in range(1, len(sorted_idx) - 1)]. *)
Definition add_interior (pop : seq (seq rat)) (sorted_idx : seq nat)
    (k : nat) (span : rat) (dist : dict) (j : nat) : dict :=
  let prev_v := val pop (nth 0%N sorted_idx j.-1) k in
  let next_v := val pop (nth 0%N sorted_idx j.+1) k in
  let i := nth 0%N sorted_idx j in
  dict_set dist i (xadd (dict_get dist i) ((next_v - prev_v) / span)).

(** One turn of the loop [for k in range(m)]. *)
Definition cd_dim (pop : seq (seq rat)) (front : seq nat) (dist : dict)
    (k : nat) : dict :=
  let sorted_idx := sort_by_dim pop k front in
  let first := nth 0%N sorted_idx 0 in
  let last_ := nth 0%N sorted_idx (size sorted_idx).-1 in
  let min_v := val pop first k in
  let max_v := val pop last_ k in
  let span := max_v - min_v in
  let dist1 := dict_set (dict_set dist first PInf) last_ PInf in
  if span == 0 then dist1
  else foldl (add_interior pop sorted_idx k span) dist1
             (iota 1 ((size sorted_idx).-1).-1).

Definition _crowding_distance (front : seq nat) (pop : seq (seq rat)) : dict :=
  if front is [::] then dict_empty
  else
    let m := size (vec pop 0) in
    let dist := foldl (fun d i => dict_set d i (Fin 0)) dict_empty front in
    foldl (cd_dim pop front) dist (iota 0 m).

(** [[i for i, p in enumerate(constraint_penalties) if p <= 0]] *)
Definition feas_idx (constraint_penalties : seq rat) : seq nat :=
  [seq i <- iota 0 (size constraint_penalties)
  | nth 0 constraint_penalties i <= 0].

Definition infeas_idx (constraint_penalties : seq rat) : seq nat :=
  [seq i <- iota 0 (size constraint_penalties)
  | 0 < nth 0 constraint_penalties i].

(** The variable [fronts] of [nsga_order] before the ranking loop, on the
    built-in branch (the one taken when pymoo cannot be imported). *)
Definition nsga_fronts (weighted_objs : seq (seq rat))
    (constraint_penalties : seq rat) : option (seq (seq nat)) :=
  let fi := feas_idx constraint_penalties in
  let ii := infeas_idx constraint_penalties in
  let feas_fronts :=
    if fi is [::] then Some [::]
    else omap (map (map (nth 0%N fi)))
              (_non_dominated_sort [seq vec weighted_objs i | i <- fi]) in
  let inf_fronts :=
    if ii is [::] then Some [::]
    else omap (map (map (nth 0%N ii)))
              (_non_dominated_sort [seq vec weighted_objs i | i <- ii]) in
  if feas_fronts is Some ff then
    if inf_fronts is Some fs then Some (ff ++ fs) else None
  else None.

(** The triples [(index, -crowding, rank)] appended for one front. *)
Definition front_entries (weighted_objs : seq (seq rat)) (rank_num : nat)
    (f : seq nat) : seq (nat * xrat * nat) :=
  let d := _crowding_distance f weighted_objs in
  [seq (i, xneg (dict_get d i), rank_num) | i <- f].

(** The list [order] after the loop [for f in fronts], started with
    [rank_num]. *)
Fixpoint build_order (weighted_objs : seq (seq rat)) (rank_num : nat)
    (fronts : seq (seq nat)) : seq (nat * xrat * nat) :=
  if fronts is f :: fs then
    front_entries weighted_objs rank_num f
      ++ build_order weighted_objs rank_num.+1 fs
  else [::].

(** The order of the keys [(t[2], t[1])]: tuples compare lexicographically. *)
Definition key_le (a b : nat * xrat * nat) : bool :=
  (a.2 < b.2)%N || ((a.2 == b.2) && xle a.1.2 b.1.2).

Definition nsga_order (weighted_objs : seq (seq rat))
    (constraint_penalties : seq rat) : option (seq (nat * xrat * nat)) :=
  omap (fun fronts => sort key_le (build_order weighted_objs 1 fronts))
       (nsga_fronts weighted_objs constraint_penalties).

End NSGA.

(* ------------------------------------------------------------------ *)
(** ** The ranking endpoint *)

(** One element of ["results"].  The texts ["conflicts"] and
    ["explanation"], which no ranking step reads, are left out. *)
Record ResultItem : Type := mkResultItem {
  res_train_id : option string;
  res_pareto_rank : nat;
  res_fitness_certificate_status : string;
  res_job_card_status : string;
  res_branding_priority : string;
  res_mileage : rat;
  res_cleaning_status : string;
  res_stabling_position : string;
  res_updated_at : option string;
  res_alerts : Alerts
}.

Definition dflt_row : Row := mkRow None None None None JNull None None None.

Definition dflt_extras : Extras :=
  mkExtras EmptyString EmptyString EmptyString 0%R EmptyString EmptyString None.

Definition dflt_alerts : Alerts := mkAlerts false false false false false.

Section Endpoint.

Local Open Scope ring_scope.
Local Open Scope string_scope.

Variable str_to_float : string -> option rat.

(** The local [category] of the result loop. *)
Definition induction_category (al : Alerts) : string :=
  if al_fitness_invalid al then "Inspection Bay Hold"
  else if al_cleaning_pending al || al_cleaning_partial al
       then "Cleaning/Detailing"
  else "Revenue Service".

(** [sum(mileages) / (len(mileages) or 1)] *)
Definition fleet_average (mileages : seq rat) : rat :=
  foldl +%R 0 mileages
  / (if size mileages == 0%N then 1 else (size mileages)%:R).

(** What the endpoint has in hand when it calls [nsga_order]: the tuples
    returned by [map_row_to_objectives], the weighted objectives and the
    penalties. *)
Definition rank_inputs (rows : seq Row) (weights : Weights)
  : option (seq (seq rat * Extras * rat * Alerts) * seq (seq rat) * seq rat) :=
  if map_opt (fun r => float_or_zero str_to_float (row_mileage r)) rows
       is Some mileages then
    let fleet_avg := fleet_average mileages in
    if map_opt (fun r => map_row_to_objectives str_to_float r fleet_avg) rows
         is Some mapped then
      let raw_objs := [seq t.1.1.1 | t <- mapped] in
      let penalties := [seq t.1.2 | t <- mapped] in
      Some (mapped, apply_weights raw_objs weights, penalties)
    else None
  else None.

(** Body of the loop over [order]: the local [category] and the item
    appended to [results]. *)
Definition result_of (rows : seq Row) (extras_list : seq Extras)
    (alerts_list : seq Alerts) (t : nat * xrat * nat) : string * ResultItem :=
  let i := t.1.1 in
  let rank := t.2 in
  let base := nth dflt_row rows i in
  let extras := nth dflt_extras extras_list i in
  let category := induction_category (nth dflt_alerts alerts_list i) in
  (category,
   mkResultItem (row_train_id base) rank
     (ex_fitness extras) (ex_job_card_status extras)
     (ex_branding_priority extras) (ex_mileage extras)
     (ex_cleaning_status extras) (ex_stabling_position extras)
     (ex_updated_at extras) (nth dflt_alerts alerts_list i)).

(** The run of [rank_endpoint] on [payload["rows"]] and the weights, with
    the category computed for every result; [None] when an exception ends
    the request.  The list [scores] is left out: no result reads it, and
    [compute_scores_heuristic] converts each mileage the way the first
    line of the endpoint already did. *)
Definition rank_trace (rows : seq Row) (weights : Weights)
  : option (seq (string * ResultItem)) :=
  if rank_inputs rows weights is Some (mapped, weighted, penalties) then
    let extras_list := [seq t.1.1.2 | t <- mapped] in
    let alerts_list := [seq t.2 | t <- mapped] in
    if nsga_order weighted penalties is Some order then
      Some [seq result_of rows extras_list alerts_list t | t <- order]
    else None
  else None.

Definition rank_endpoint (rows : seq Row) (weights : Weights)
  : option (seq ResultItem) :=
  omap (map snd) (rank_trace rows weights).

End Endpoint.

(* ------------------------------------------------------------------ *)
(** ** Conflict messages *)

(** The dictionary [item] as [detect_conflicts] reads it: [None] is a
    missing key. *)
Record ConflictItem : Type := mkConflictItem {
  ci_fitness_certificate_status : option string;
  ci_job_card_status : option string;
  ci_cleaning_status : option string;
  ci_stabling_position : option string;
  ci_telecom_clearance : option string
}.

Section Conflicts.

Local Open Scope string_scope.

Definition msg_fitness : string :=
  "Fitness certificate invalid/expired: assign to Inspection Bay and block induction.".

Definition msg_telecom : string :=
  "Telecom clearance missing/expired: request immediate validation before movement.".

Definition msg_jobs : string :=
  "Open or critical job cards present: review and schedule maintenance.".

Definition msg_cleaning : string :=
  "Cleaning not complete: allocate slot or defer induction.".

Definition msg_stabling : string :=
  "No stabling bay assigned: allocate bay to reduce shunting time.".

Definition detect_conflicts (item : ConflictItem) : seq string :=
  let fitness := _norm_text (ci_fitness_certificate_status item) in
  let jobs := _norm_text (ci_job_card_status item) in
  let cleaning := _norm_text (ci_cleaning_status item) in
  let stabling := odflt "" (ci_stabling_position item) in
  (if any_in [:: "expired"; "invalid"; "revoked"] fitness
   then [:: msg_fitness] else [::])
  ++ (if _norm_text (ci_telecom_clearance item) \in [:: "missing"; "expired"]
      then [:: msg_telecom] else [::])
  ++ (if any_in [:: "open"; "major"; "critical"] jobs
      then [:: msg_jobs] else [::])
  ++ (if cleaning \notin [:: "complete"; "clean"]
      then [:: msg_cleaning] else [::])
  ++ (if stabling == "" then [:: msg_stabling] else [::]).

(** The dictionary [result_item] at the call of [detect_conflicts] in the
    result loop: it has no key ["telecom_clearance"]. *)
Definition item_of_result (it : ResultItem) : ConflictItem :=
  mkConflictItem (Some (res_fitness_certificate_status it))
                 (Some (res_job_card_status it))
                 (Some (res_cleaning_status it))
                 (Some (res_stabling_position it))
                 None.

End Conflicts.

(* ------------------------------------------------------------------ *)
(** ** Ingestion of the CSV entry point *)

Record TrainInput : Type := mkTrainInput {
  ti_train_id : string;
  ti_fitness_valid : bool;
  ti_open_work_orders : int;
  ti_branding_hours_remaining : rat;
  ti_mileage_km : rat;
  ti_mileage_target_km : rat;
  ti_cleaning_need_score : rat;
  ti_cleaning_slot_available : bool;
  ti_stabling_move_minutes : rat
}.

(** The two ways [read_csv] ends with a [ValueError]: the one it raises
    itself, "Missing required CSV column: <column>", and the one [int] or
    [float] raises on a text that is no number. *)
Inductive csv_error : Type :=
  | MissingColumn (column : string)
  | BadNumber (text : string).

(** A row of [csv.DictReader]: a dictionary from column names to texts. *)
Definition csv_row : Type := string -> option string.

Section ReadCsv.

Local Open Scope string_scope.

(** The builtins [int] and [float] on a text; [None] when they raise. *)
Variable str_to_int : string -> option int.
Variable str_to_float : string -> option rat.

Definition ebind (A B : Type) (x : csv_error + A) (k : A -> csv_error + B)
  : csv_error + B :=
  match x with inl e => inl e | inr a => k a end.

(** [row[k]] under the handler [except KeyError] *)
Definition col (row : csv_row) (k : string) : csv_error + string :=
  if row k is Some v then inr v else inl (MissingColumn k).

Definition col_int (row : csv_row) (k : string) : csv_error + int :=
  ebind (col row k)
        (fun v => if str_to_int v is Some n then inr n else inl (BadNumber v)).

Definition col_float (row : csv_row) (k : string) : csv_error + rat :=
  ebind (col row k)
        (fun v => if str_to_float v is Some q then inr q else inl (BadNumber v)).

(** [str(v).strip().lower() in {"1", "true", "yes", "y"}] *)
Definition truthy (v : string) : bool :=
  lower (strip v) \in [:: "1"; "true"; "yes"; "y"].

(** The body of the loop of [read_csv]: the arguments of [TrainInput] are
    evaluated from left to right. *)
Definition read_row (row : csv_row) : csv_error + TrainInput :=
  ebind (col row "train_id") (fun tid =>
  ebind (col row "fitness_valid") (fun fv =>
  ebind (col_int row "open_work_orders") (fun owo =>
  ebind (col_float row "branding_hours_remaining") (fun bh =>
  ebind (col_float row "mileage_km") (fun mk =>
  ebind (col_float row "mileage_target_km") (fun mt =>
  ebind (col_float row "cleaning_need_score") (fun cn =>
  ebind (col row "cleaning_slot_available") (fun cs =>
  ebind (col_float row "stabling_move_minutes") (fun sm =>
  inr (mkTrainInput (strip tid) (truthy fv) owo bh mk mt cn (truthy cs) sm)
  ))))))))).

Fixpoint read_csv (rows : seq csv_row) : csv_error + seq TrainInput :=
  if rows is row :: rows' then
    ebind (read_row row) (fun t =>
    ebind (read_csv rows') (fun ts => inr (t :: ts)))
  else inr [::].

End ReadCsv.

(* ------------------------------------------------------------------ *)
(** ** Objectives of the CSV entry point *)

(** The fields of the dataclass [ObjectiveConfig]; [None] is a
    normalisation denominator that is not configured. *)
Record ObjectiveConfig : Type := mkObjectiveConfig {
  weight_fitness_invalid : rat;
  weight_open_work_orders : rat;
  weight_branding_hours : rat;
  weight_mileage_deviation : rat;
  weight_cleaning_need : rat;
  weight_stabling_move : rat;
  norm_open_work_orders : option rat;
  norm_branding_hours : option rat;
  norm_mileage_deviation : option rat;
  norm_cleaning_need : option rat;
  norm_stabling_move : option rat
}.

Section ComputeObjectives.

Local Open Scope ring_scope.

(** The local [eps] of [compute_objectives], the literal [1e-9]; nothing
    below uses more of it than that it is positive. *)
Variable eps : rat.

(** [max(xs, default=d)] *)
Definition max_default (d : rat) (xs : seq rat) : rat :=
  if xs is x :: xs' then foldl Num.max x xs' else d.

(** [configured or dynamic]: a denominator that is [None] or zero gives
    way to the one computed from the data. *)
Definition norm_or (configured : option rat) (dynamic : rat) : rat :=
  if configured is Some q then (if q == 0 then dynamic else q) else dynamic.

(** [compute_objectives]: for every train the pair of [objectives] and
    [weighted_objectives]; [None] when a division by zero ends the run. *)
Definition compute_objectives (trains : seq TrainInput)
    (cfg : ObjectiveConfig) : option (seq (seq rat * seq rat)) :=
  let max_open :=
    max_default 1 [seq (ti_open_work_orders t)%:~R | t <- trains] in
  let max_branding :=
    max_default 1 [seq ti_branding_hours_remaining t | t <- trains] in
  let max_mileage_dev :=
    max_default 1 [seq `|ti_mileage_km t - ti_mileage_target_km t|
                  | t <- trains] in
  let max_clean :=
    max_default 1 [seq ti_cleaning_need_score t | t <- trains] in
  let max_stable :=
    max_default 1 [seq ti_stabling_move_minutes t | t <- trains] in
  let n_open := norm_or (norm_open_work_orders cfg) (Num.max 1 max_open) in
  let n_brand := norm_or (norm_branding_hours cfg) (Num.max 1 max_branding) in
  let n_mileage :=
    norm_or (norm_mileage_deviation cfg) (Num.max 1 max_mileage_dev) in
  let n_clean := norm_or (norm_cleaning_need cfg) (Num.max 1 max_clean) in
  let n_stable := norm_or (norm_stabling_move cfg) (Num.max 1 max_stable) in
  map_opt
    (fun t =>
       let fitness_invalid : rat := if ti_fitness_valid t then 0 else 1 in
       let mileage_dev := `|ti_mileage_km t - ti_mileage_target_km t| in
       if [|| n_open + eps == 0, n_brand + eps == 0, n_mileage + eps == 0,
              n_clean + eps == 0 | n_stable + eps == 0]
       then None
       else
         let obj :=
           [:: fitness_invalid;
               (ti_open_work_orders t)%:~R / (n_open + eps);
               ti_branding_hours_remaining t / (n_brand + eps);
               mileage_dev / (n_mileage + eps);
               ti_cleaning_need_score t / (n_clean + eps);
               ti_stabling_move_minutes t / (n_stable + eps)] in
         let weighted :=
           [:: nth 0 obj 0 * weight_fitness_invalid cfg;
               nth 0 obj 1 * weight_open_work_orders cfg;
               nth 0 obj 2 * weight_branding_hours cfg;
               nth 0 obj 3 * weight_mileage_deviation cfg;
               nth 0 obj 4 * weight_cleaning_need cfg;
               nth 0 obj 5 * weight_stabling_move cfg] in
         Some (obj, weighted))
    trains.

(** The five denominators [n_open], ..., [n_stable] of a run. *)
Definition norms (trains : seq TrainInput) (cfg : ObjectiveConfig)
  : seq rat :=
  [:: norm_or (norm_open_work_orders cfg)
        (Num.max 1 (max_default 1 [seq (ti_open_work_orders t)%:~R
                                  | t <- trains]));
      norm_or (norm_branding_hours cfg)
        (Num.max 1 (max_default 1 [seq ti_branding_hours_remaining t
                                  | t <- trains]));
      norm_or (norm_mileage_deviation cfg)
        (Num.max 1 (max_default 1
                      [seq `|ti_mileage_km t - ti_mileage_target_km t|
                      | t <- trains]));
      norm_or (norm_cleaning_need cfg)
        (Num.max 1 (max_default 1 [seq ti_cleaning_need_score t
                                  | t <- trains]));
      norm_or (norm_stabling_move cfg)
        (Num.max 1 (max_default 1 [seq ti_stabling_move_minutes t
                                  | t <- trains]))].

(** The [objectives] of one train, given the denominators. *)
Definition objectives_of (ns : seq rat) (t : TrainInput) : seq rat :=
  [:: if ti_fitness_valid t then 0 else 1;
      (ti_open_work_orders t)%:~R / (nth 0 ns 0 + eps);
      ti_branding_hours_remaining t / (nth 0 ns 1 + eps);
      `|ti_mileage_km t - ti_mileage_target_km t| / (nth 0 ns 2 + eps);
      ti_cleaning_need_score t / (nth 0 ns 3 + eps);
      ti_stabling_move_minutes t / (nth 0 ns 4 + eps)].

(** The [weighted_objectives] of a train with the objectives [obj]. *)
Definition weighted_of (cfg : ObjectiveConfig) (obj : seq rat) : seq rat :=
  [:: nth 0 obj 0 * weight_fitness_invalid cfg;
      nth 0 obj 1 * weight_open_work_orders cfg;
      nth 0 obj 2 * weight_branding_hours cfg;
      nth 0 obj 3 * weight_mileage_deviation cfg;
      nth 0 obj 4 * weight_cleaning_need cfg;
      nth 0 obj 5 * weight_stabling_move cfg].

End ComputeObjectives.

(* ------------------------------------------------------------------ *)
(** ** Categories of the CSV entry point *)

Record ClassificationThresholds : Type := mkThresholds {
  max_open_work_orders_for_ready : int;
  max_cleaning_need_for_ready : rat;
  max_stabling_move_for_ready : rat;
  cleaning_need_threshold : rat;
  maintenance_open_work_orders_threshold : int
}.

Section Classify.

Local Open Scope ring_scope.
Local Open Scope string_scope.

(** The defaults of the dataclass. *)
Definition default_thresholds : ClassificationThresholds :=
  mkThresholds 0 (3%:R / 10%:R) 10%:R (1 / 2%:R) 1.

(** The [category] that the loop of [classify] pairs with one item. *)
Definition classify_category (t : TrainInput)
    (thresholds : ClassificationThresholds) : string :=
  if ~~ ti_fitness_valid t
     && (maintenance_open_work_orders_threshold thresholds
         <= ti_open_work_orders t)
  then "Inspection Bay: Maintenance"
  else if (cleaning_need_threshold thresholds <= ti_cleaning_need_score t)
          && ti_cleaning_slot_available t
  then "Cleaning/Detailing"
  else
    let ready :=
      [&& ti_fitness_valid t,
          ti_open_work_orders t <= max_open_work_orders_for_ready thresholds,
          ti_cleaning_need_score t <= max_cleaning_need_for_ready thresholds
        & ti_stabling_move_minutes t <= max_stabling_move_for_ready thresholds]
    in
    if ready then "Revenue Service" else "Revenue Service (Monitor)".

End Classify.

(* ------------------------------------------------------------------ *)
(** ** The ranking of the CSV entry point *)

Section CliRanking.

Local Open Scope ring_scope.

(** [non_dominated_sort] of nsga_train_ranking.py on the list of the
    [weighted_objectives]: the loops of [_non_dominated_sort], except that
    the first front is appended even when it is empty. *)
Definition non_dominated_sort (pop : seq (seq rat)) : option (seq (seq nat)) :=
  let n := size pop in
  let n_dom := build_n_dom pop in
  let current_front := [seq i <- iota 0 n | nth 0 n_dom i == 0] in
  if current_front is [::] then Some [:: [::]]
  else peel n (build_S pop) n_dom current_front.

(** [pop[i].rank] after [non_dominated_sort]: the number of the front that
    holds [i], [None] when no front does. *)
Definition rank_of (fronts : seq (seq nat)) (i : nat) : option nat :=
  if has (fun f => i \in f) fronts
  then Some (find (fun f => i \in f) fronts).+1 else None.

(** [crowding_distance(pop, indices)], on the store of the fields
    [pop[i].crowding_distance]. *)
Definition crowding_distance (pop : seq (seq rat)) (indices : seq nat)
    (store : dict) : dict :=
  if indices is i0 :: _ then
    let m := size (vec pop i0) in
    foldl (cd_dim pop indices)
          (foldl (fun d i => dict_set d i (Fin 0)) store indices)
          (iota 0 m)
  else store.

(** The sort key [(x.rank if x.rank is not None else math.inf,
    -x.crowding_distance)] and its order. *)
Definition cli_key (fronts : seq (seq nat)) (store : dict) (i : nat)
  : option nat * xrat :=
  (rank_of fronts i, xneg (dict_get store i)).

Definition rank_le (a b : option nat) : bool :=
  match a, b with
  | Some m, Some n => (m <= n)%N
  | _, None => true
  | None, Some _ => false
  end.

Definition cli_key_le (a b : option nat * xrat) : bool :=
  (rank_le a.1 b.1 && ~~ rank_le b.1 a.1)
  || (rank_le a.1 b.1 && rank_le b.1 a.1 && xle a.2 b.2).

(** [nsga_rank]: the candidates, named by their position in [pop], in the
    order of the returned list. *)
Definition nsga_rank (pop : seq (seq rat)) : option (seq nat) :=
  if non_dominated_sort pop is Some fronts then
    let store := foldl (fun d f => crowding_distance pop f d) dict_empty fronts in
    Some (sort (fun i j => cli_key_le (cli_key fronts store i)
                                      (cli_key fronts store j))
               (iota 0 (size pop)))
  else None.

End CliRanking.

(* ------------------------------------------------------------------ *)
(** ** Number texts *)

Module Decimal.

Definition digit_of (c : ascii) : option nat :=
  let n := nat_of_ascii c in
  if (48 <= n) && (n <= 57) then Some (n - 48) else None.

(** Reads the leading digits of [s]: their value after [acc], how many
    there are, and the rest of the text. *)
Fixpoint read_digits (s : seq ascii) (acc cnt : nat) : nat * nat * seq ascii :=
  match s with
  | c :: s' =>
      if digit_of c is Some d then read_digits s' (10 * acc + d) cnt.+1
      else (acc, cnt, s)
  | [::] => (acc, cnt, [::])
  end.

Definition unsigned_decimal (s : seq ascii) : option rat :=
  let: (ip, ni, rest) := read_digits s 0 0 in
  match rest with
  | [::] => if 0 < ni then Some (ip%:R)%R else None
  | c :: r =>
      if c == "."%char then
        let: (fp, nf, rest') := read_digits r 0 0 in
        if (rest' == [::]) && (0 < ni + nf)
        then Some (ip%:R + fp%:R / (10 ^ nf)%:R)%R else None
      else None
  end.

(** [float(s)] on the plain decimal texts: blanks around, an optional
    sign, digits with an optional fraction.  Every other text is taken to
    raise. *)
Definition decimal_float (s : string) : option rat :=
  match list_ascii_of_string (strip s) with
  | c :: r =>
      if c == "-"%char then omap (fun q => - q)%R (unsigned_decimal r)
      else if c == "+"%char then unsigned_decimal r
      else unsigned_decimal (c :: r)
  | [::] => None
  end.

(** [int(s)] on the plain decimal texts. *)
Definition decimal_int (s : string) : option int :=
  let digits (r : seq ascii) : option nat :=
    let: (ip, ni, rest) := read_digits r 0 0 in
    if (rest == [::]) && (0 < ni) then Some ip else None in
  match list_ascii_of_string (strip s) with
  | c :: r =>
      if c == "-"%char then omap (fun n : nat => - (n%:Z))%R (digits r)
      else if c == "+"%char then omap Posz (digits r)
      else omap Posz (digits (c :: r))
  | [::] => None
  end.

End Decimal.

(* ------------------------------------------------------------------ *)
(** ** Vocabulary of the statements *)

Section Vocabulary.

Local Open Scope ring_scope.

(** No member of the front dominates another member. *)
Definition antichain (pop : seq (seq rat)) (f : seq nat) : Prop :=
  forall p q, p \in f -> q \in f -> _dominates (vec pop p) (vec pop q) = false.

(** Every member of a front that has a predecessor in [fs] is dominated by
    a member of that predecessor. *)
Definition layered (pop : seq (seq rat)) (fs : seq (seq nat)) : Prop :=
  forall k q, q \in nth [::] fs k.+1 ->
    exists2 p, p \in nth [::] fs k & _dominates (vec pop p) (vec pop q).

(** The same with the dominator taken anywhere in the earlier fronts. *)
Definition layered_union (pop : seq (seq rat)) (fs : seq (seq nat)) : Prop :=
  forall k q, q \in nth [::] fs k.+1 ->
    exists2 p, p \in flatten (take k.+1 fs)
             & _dominates (vec pop p) (vec pop q).

(** All vectors of the population have [m] components. *)
Definition uniform (m : nat) (pop : seq (seq rat)) : bool :=
  all (fun v => size v == m) pop.

(** How often one pass of the [while] body over [cur] decrements the
    counter of [q]. *)
Definition hits (pop : seq (seq rat)) (cur : seq nat) (q : nat) : nat :=
  count (fun p => q \in nth [::] (build_S pop) p) cur.

(** The invariant of the [while] loop: [done] holds the fronts already
    swept, [cur] the current front, and [nd] counts for every candidate the
    dominators that are not yet in [done]. *)
Definition Inv (pop : seq (seq rat)) (done : seq nat) (nd : seq int)
    (cur : seq nat) : Prop :=
  [/\ uniq (done ++ cur),
      all (fun i => (i < size pop)%N) (done ++ cur),
      forall q, (q < size pop)%N ->
        nth 0 nd q
        = (count (fun p => _dominates (vec pop p) (vec pop q)
                           && (p \notin done))
                 (iota 0 (size pop)))%:Z
    & forall q, (q < size pop)%N -> (q \in done ++ cur) = (nth 0 nd q == 0)].

(** A set of candidates that contains every candidate whose dominators it
    contains. *)
Definition closed (pop : seq (seq rat)) (X : seq nat) : Prop :=
  forall q, (q < size pop)%N ->
    (forall p, (p < size pop)%N ->
       _dominates (vec pop p) (vec pop q) -> p \in X) ->
    q \in X.

(** What the fronts [fs] built after the fronts [done] satisfy. *)
Definition good_fronts (pop : seq (seq rat)) (done : seq nat)
    (fs : seq (seq nat)) : Prop :=
  [/\ uniq (done ++ flatten fs),
      all (fun i => (i < size pop)%N) (flatten fs),
      forall f, f \in fs -> antichain pop f,
      layered pop fs
    & closed pop (done ++ flatten fs)].

End Vocabulary.

Section TextVocabulary.

Local Open Scope string_scope.

(** The disposition rule in the words of the specification: maintenance
    hold needs an invalid certificate and an open job card. *)
Definition spec_category (row : Row) : string :=
  let f := _norm_text (row_fitness row) in
  let j := _norm_text (row_job_cards row) in
  let c := _norm_text (row_cleaning row) in
  if any_in [:: "expired"; "invalid"; "revoked"] f
     && any_in [:: "open"; "critical"; "major"] j
  then "Inspection Bay Hold"
  else if py_in "pending" c || py_in "partial" c then "Cleaning/Detailing"
  else "Revenue Service".

(** The fitness text matches both the "valid" test and one of the
    invalidity keywords (as "invalid" itself does). *)
Definition both_ways (f : string) : bool :=
  py_in "valid" f && any_in [:: "expired"; "invalid"; "revoked"] f.

End TextVocabulary.

Section MapperComponents.

Local Open Scope ring_scope.
Local Open Scope string_scope.

(** The components of the tuple of [map_row_to_objectives], named after
    its local variables. *)
Definition fitness_objective (row : Row) : rat :=
  let ftxt := _norm_text (Some (st_fitness (_normalize_statuses row))) in
  if py_in "invalid" ftxt || py_in "expired" ftxt || py_in "revoked" ftxt
  then 1 else 0.

Definition jobs_objective (row : Row) : rat :=
  let jtxt := _norm_text (Some (st_job_cards (_normalize_statuses row))) in
  if any_in [:: "critical"; "major"; "open"] jtxt then 1
  else if any_in [:: "minor"; "pending"] jtxt then 1 / 2
  else 0.

Definition branding_objective (row : Row) : rat :=
  let btxt := _norm_text (Some (st_branding (_normalize_statuses row))) in
  if btxt == "high" then 1 else if btxt == "medium" then 1 / 2 else 0.

Definition cleaning_objective (row : Row) : rat :=
  let ctxt := _norm_text (Some (st_cleaning (_normalize_statuses row))) in
  if py_in "complete" ctxt || py_in "clean" ctxt then 0
  else if py_in "partial" ctxt then 1 / 2 else 1.

Definition geometry_objective (row : Row) : rat :=
  if strip (st_stabling (_normalize_statuses row)) != "" then 0 else 1 / 2.

Definition penalty_of (row : Row) : rat :=
  if 0 < fitness_objective row then 10%:R else 0.

Definition extras_of (row : Row) (mileage : rat) : Extras :=
  let norm := _normalize_statuses row in
  mkExtras (st_fitness norm) (st_job_cards norm) (st_branding norm)
           mileage (st_cleaning norm) (st_stabling norm) (row_updated_at row).

Definition alerts_of (row : Row) : Alerts :=
  let norm := _normalize_statuses row in
  let jtxt := _norm_text (Some (st_job_cards norm)) in
  let ctxt := _norm_text (Some (st_cleaning norm)) in
  mkAlerts (fitness_objective row != 0)
           (py_in jtxt "open" || any_in [:: "major"; "critical"] jtxt)
           (py_in "pending" ctxt) (py_in "partial" ctxt)
           (strip (st_stabling norm) == "").

End MapperComponents.

Section EndpointVocabulary.

Local Open Scope ring_scope.

Variable str_to_float : string -> option rat.

(** The mileage every row converts to, [0] where the conversion raises. *)
Definition mileage_of (r : Row) : rat :=
  odflt 0 (float_or_zero str_to_float (row_mileage r)).

Definition convertible (r : Row) : bool :=
  isSome (float_or_zero str_to_float (row_mileage r)).

Definition dflt_mapped : seq rat * Extras * rat * Alerts :=
  ([::], dflt_extras, 0, dflt_alerts).

(** The tuples the mapping loop collects when no conversion raises. *)
Definition mapped_rows (rows : seq Row) : seq (seq rat * Extras * rat * Alerts) :=
  let avg := fleet_average [seq mileage_of r | r <- rows] in
  [seq odflt dflt_mapped (map_row_to_objectives str_to_float r avg) | r <- rows].

End EndpointVocabulary.

Section CliVocabulary.

Local Open Scope ring_scope.

(** No denominator is configured: all five come from the data. *)
Definition dynamic_norms (cfg : ObjectiveConfig) : bool :=
  [&& norm_or (norm_open_work_orders cfg) 0 == 0,
      norm_or (norm_branding_hours cfg) 0 == 0,
      norm_or (norm_mileage_deviation cfg) 0 == 0,
      norm_or (norm_cleaning_need cfg) 0 == 0
    & norm_or (norm_stabling_move cfg) 0 == 0].

(** No configured denominator is negative. *)
Definition nonneg_norms (cfg : ObjectiveConfig) : bool :=
  [&& 0 <= norm_or (norm_open_work_orders cfg) 0,
      0 <= norm_or (norm_branding_hours cfg) 0,
      0 <= norm_or (norm_mileage_deviation cfg) 0,
      0 <= norm_or (norm_cleaning_need cfg) 0
    & 0 <= norm_or (norm_stabling_move cfg) 0].

(** The measured fields of a train are not negative. *)
Definition nonneg_train (t : TrainInput) : bool :=
  [&& 0 <= ti_open_work_orders t, 0 <= ti_branding_hours_remaining t,
      0 <= ti_cleaning_need_score t & 0 <= ti_stabling_move_minutes t].

Definition dflt_train : TrainInput :=
  mkTrainInput EmptyString false 0 0 0 0 0 false 0.

End CliVocabulary.

Section MoreVocabulary.

Local Open Scope ring_scope.
Local Open Scope string_scope.

(** The row whose status texts are the names of [st]; the other fields are
    those of [r]. *)
Definition with_statuses (r : Row) (st : Statuses) : Row :=
  mkRow (row_train_id r) (Some (st_fitness st)) (Some (st_job_cards st))
        (Some (st_branding st)) (row_mileage r) (Some (st_cleaning st))
        (Some (st_stabling st)) (row_updated_at r).

(** A crowding distance that is infinite, or finite between 0 and [m]. *)
Definition in_range (m : nat) (x : xrat) : bool :=
  match x with
  | PInf => true
  | Fin q => 0 <= q <= m%:R
  | NInf => false
  end.




End MoreVocabulary.

Section ShiftVocabulary.

Local Open Scope ring_scope.

Variable str_to_float : string -> option rat.

(** The row [r] with the number [c] added to its mileage. *)
Definition shift_mileage (c : rat) (r : Row) : Row :=
  mkRow (row_train_id r) (row_fitness r) (row_job_cards r) (row_branding r)
        (JNum (mileage_of str_to_float r + c))
        (row_cleaning r) (row_stabling r) (row_updated_at r).

End ShiftVocabulary.

Section MainPipeline.
Local Open Scope ring_scope.

Variable eps : rat.

(** The list [categorized] of [main]: for every item of the ranked list
    its train, its category, its rank and its crowding distance. *)
Definition categorized (trains : seq TrainInput) (cfg : ObjectiveConfig)
    (thresholds : ClassificationThresholds)
  : option (seq (TrainInput * string * option nat * xrat)) :=
  if compute_objectives eps trains cfg is Some computed then
    let pop := [seq c.2 | c <- computed] in
    if non_dominated_sort pop is Some fronts then
      let store :=
        foldl (fun d f => crowding_distance pop f d) dict_empty fronts in
      omap (map (fun i =>
                   let t := nth dflt_train trains i in
                   (t, classify_category t thresholds, rank_of fronts i,
                    dict_get store i)))
           (nsga_rank pop)
    else None
  else None.

End MainPipeline.

Section WeightVocabulary.

Local Open Scope ring_scope.

(** The weight [apply_weights] multiplies column [k] with. *)
Definition weight_of (w : Weights) (k : nat) : rat :=
  nth 0 [:: odflt 5%:R (w_fitness w); odflt 2%:R (w_jobs w);
            odflt (3%:R / 2%:R) (w_branding w); odflt 1 (w_mileage w);
            odflt (5%:R / 4%:R) (w_cleaning w);
            odflt (3%:R / 4%:R) (w_stabling w)] k.

Definition positive_weights (w : Weights) : bool :=
  all (fun k => 0 < weight_of w k) (iota 0 6).

End WeightVocabulary.

Section ResponseVocabulary.

Local Open Scope string_scope.

(** The result carries the fitness alert: its train is held. *)
Definition held (it : ResultItem) : bool :=
  al_fitness_invalid (res_alerts it).

(** The conflict messages of a result against its alerts. *)
Definition conflicts_agree (it : ResultItem) : bool :=
  let cs := detect_conflicts (item_of_result it) in
  let al := res_alerts it in
  [&& (msg_fitness \in cs) == al_fitness_invalid al,
      (msg_jobs \in cs) == al_job_open al,
      (msg_cleaning \in cs)
        == (al_cleaning_pending al || al_cleaning_partial al),
      (msg_stabling \in cs) == (res_stabling_position it == ""),
      (msg_stabling \in cs) ==> al_no_stabling al
    & msg_telecom \notin cs].

End ResponseVocabulary.

(* ------------------------------------------------------------------ *)
(** ** Populations and rows of the examples *)

Section Examples.

Local Open Scope ring_scope.
Local Open Scope string_scope.

Definition c1_row : Row :=
  mkRow (Some "Train05") (Some "invalid") (Some "closed") (Some "medium")
        (JNum 0) (Some "complete") (Some "bay2") None.

Definition c2_row : Row :=
  mkRow (Some "Train07") (Some "expired") (Some "closed") (Some "low")
        (JNum 0) (Some "complete") (Some "bay1") None.

Definition c2_mapped : seq rat * Extras * rat * Alerts :=
  odflt ([::], dflt_extras, 0%R, dflt_alerts)
        (map_row_to_objectives (fun _ => None) c2_row 0%R).

Definition c3_objs : seq (seq rat) :=
  [:: [:: 5%:R; 0; 0; 0; 0; 0]; [:: 0; 2%:R; 0; 0; 0; 0];
      [:: 0; 0; 0; 0; 0; 0]].

Definition c3_pens : seq rat := [:: 10%:R; 0; 0].

Definition c4_objs : seq (seq rat) :=
  [:: [:: 0; 2%:R; 0; 0; 0; 0]; [:: 5%:R; 0; 0; 0; 0; 0]].

Definition c4_pens : seq rat := [:: 0; 10%:R].

Definition c5_row (id jobs branding cleaning : string) : Row :=
  mkRow (Some id) (Some "valid") (Some jobs) (Some branding) (JNum 1%R)
        (Some cleaning) (Some "bay1") None.

Definition c5_rows : seq Row :=
  [:: c5_row "T0" "closed" "medium" "complete";
      c5_row "T1" "minor" "low" "partial";
      c5_row "T2" "open" "low" "partial";
      c5_row "T3" "minor" "high" "complete"].

Definition c6_pop : seq (seq rat) :=
  [:: [:: 0; 1; 3%:R / 4%:R; 0; 0; 0]; [:: 0; 0; 3%:R / 2%:R; 0; 0; 0];
      [:: 0; 2%:R; 0; 0; 0; 0]].

Definition c6_same : seq (seq rat) :=
  [:: [:: 0; 1; 0; 0; 0; 0]; [:: 0; 1; 0; 0; 0; 0]; [:: 0; 1; 0; 0; 0; 0]].

Definition c7_raw : seq (seq rat) :=
  [:: [:: 0; 1 / 2%:R; 1 / 2%:R; 0; 0; 0]; [:: 0; 0; 1; 0; 0; 0];
      [:: 0; 1; 0; 0; 0; 0]].

Definition c7_dist0 : dict :=
  foldl (fun d i => dict_set d i (Fin 0)) dict_empty [:: 0; 1; 2]%N.

Definition c8_rows : seq Row :=
  [:: mkRow (Some "Train01") (Some "valid") (Some "closed") (Some "low")
            (JStr "n/a") (Some "complete") (Some "bay1") None;
      mkRow (Some "Train02") (Some "valid") (Some "closed") (Some "low")
            (JNum 7%:R) (Some "complete") (Some "bay2") None].

Definition c9_rows : seq Row :=
  [:: mkRow None (Some "valid") (Some "closed") (Some "low")
            (JNum 7%:R) (Some "complete") (Some "bay1") None].

Definition c9_csv_row : csv_row :=
  fun k => if k == "fitness_valid" then Some "yes" else None.

End Examples.

Section MoreExamples.

Local Open Scope ring_scope.
Local Open Scope string_scope.

(** A row with a certificate that is neither valid nor expired, texts in
    mixed case and a blank stabling text. *)
Definition x_row : Row :=
  mkRow (Some "Train11") (Some "Conditional") (Some "Minor repairs")
        (Some " HIGH ") (JNum 3%:R) (Some "InProgress") (Some "  ") None.

Definition x_mapped : seq rat * Extras * rat * Alerts :=
  odflt ([::], dflt_extras, 0, dflt_alerts)
        (map_row_to_objectives (fun _ => None) x_row 1).

(** A batch with one expired certificate among four rows. *)
Definition x_rows : seq Row :=
  [:: x_row; c2_row; c5_row "T1" "minor" "low" "partial"; c1_row].

Definition x_res : seq ResultItem :=
  odflt [::] (rank_endpoint Decimal.decimal_float x_rows no_weights).

(** Weights that favour the mileage balance. *)
Definition x_weights : Weights :=
  mkWeights (Some 1) (Some (1 / 2%:R)) None (Some 4%:R) None None.

Definition x_res' : seq ResultItem :=
  odflt [::] (rank_endpoint Decimal.decimal_float x_rows x_weights).

(** The defaults of the dataclass [ObjectiveConfig]. *)
Definition default_config : ObjectiveConfig :=
  mkObjectiveConfig 5%:R 2%:R (3%:R / 2%:R) 1 (5%:R / 4%:R) (3%:R / 4%:R)
                    None None None None None.

Definition x_trains : seq TrainInput :=
  [:: mkTrainInput "TS-01" true 0 4%:R 12%:R 10%:R (1 / 5%:R) true 6%:R;
      mkTrainInput "TS-02" false 2 0 9%:R 10%:R (3%:R / 5%:R) false 11%:R;
      mkTrainInput "TS-03" true 1 7%:R 10%:R 10%:R 0 true 5%:R].

End MoreExamples.

(* ================================================================== *)
(** * Proofs *)

(* ------------------------------------------------------------------ *)
(** ** Dominance is a strict order *)

Section Dominance.

Local Open Scope ring_scope.

Lemma not_worse_not_better (a b : seq rat) :
  all (fun xy => xy.1 <= xy.2) (zip a b) ->
  has (fun xy => xy.1 < xy.2) (zip b a) = false.
Proof.
elim: a b => [|x a IH] [|y b] //= /andP [xy ab].
by rewrite IH // orbF ltNge xy.
Qed.

Lemma dominates_irrefl (a : seq rat) : _dominates a a = false.
Proof.
rewrite /_dominates; apply/negbTE/negP => /andP [al].
by rewrite not_worse_not_better.
Qed.

Lemma dominates_asym (a b : seq rat) :
  _dominates a b -> _dominates b a = false.
Proof.
rewrite /_dominates => /andP [ab _].
by rewrite (not_worse_not_better ab) andbF.
Qed.

Lemma not_worse_trans (a b c : seq rat) :
  size a = size b -> size b = size c ->
  all (fun xy => xy.1 <= xy.2) (zip a b) ->
  all (fun xy => xy.1 <= xy.2) (zip b c) ->
  all (fun xy => xy.1 <= xy.2) (zip a c).
Proof.
elim: a b c => [|x a IH] [|y b] [|z c] //= [sab] [sbc].
move=> /andP [xy ab] /andP [yz bc].
by rewrite (le_trans xy yz) (IH b c).
Qed.

Lemma better_trans_l (a b c : seq rat) :
  size a = size b -> size b = size c ->
  has (fun xy => xy.1 < xy.2) (zip a b) ->
  all (fun xy => xy.1 <= xy.2) (zip b c) ->
  has (fun xy => xy.1 < xy.2) (zip a c).
Proof.
elim: a b c => [|x a IH] [|y b] [|z c] //= [sab] [sbc].
move=> /orP [xy|ab] /andP [yz bc].
  by rewrite (lt_le_trans xy yz).
by rewrite (IH b c) // orbT.
Qed.

Lemma dominates_trans (a b c : seq rat) :
  size a = size b -> size b = size c ->
  _dominates a b -> _dominates b c -> _dominates a c.
Proof.
rewrite /_dominates => sab sbc /andP [ab1 ab2] /andP [bc1 bc2].
by rewrite (not_worse_trans sab sbc ab1 bc1) (better_trans_l sab sbc ab2 bc1).
Qed.

End Dominance.

(* ------------------------------------------------------------------ *)
(** ** The peeling loop of the front builder *)

Section Relax.

Local Open Scope ring_scope.

Lemma relax_nth (nd : seq int) (nx : seq nat) (q r : nat) :
  nth 0 (relax (nd, nx) q).1 r = if r == q then nth 0 nd q - 1 else nth 0 nd r.
Proof. by rewrite /relax /= nth_set_nth /=; case: eqP => // ->. Qed.

(** Running the innermost loop over a list [qs] of indices: every [n_dom[q]]
    drops by the number of occurrences of [q], and [q] is appended, once,
    exactly when its counter passes through zero. *)
Lemma foldl_relaxP (qs : seq nat) (nd : seq int) (nx : seq nat) :
  exists zs : seq nat,
    [/\ (foldl relax (nd, nx) qs).2 = nx ++ zs,
        forall q, nth 0 (foldl relax (nd, nx) qs).1 q
                  = nth 0 nd q - (count_mem q qs)%:Z,
        uniq zs
      & forall q, (q \in zs) = (0 < nth 0 nd q <= (count_mem q qs)%:Z)].
Proof.
elim: qs nd nx => [|q0 qs IH] nd nx.
  exists [::]; split=> //=; first by rewrite cats0.
  - by move=> q; rewrite subr0.
  - by move=> q; rewrite in_nil lt_le_asym.
have E : relax (nd, nx) q0 = ((relax (nd, nx) q0).1, (relax (nd, nx) q0).2).
  by case: (relax _ _).
rewrite [foldl _ _ _]/= E.
case: (IH (relax (nd, nx) q0).1 (relax (nd, nx) q0).2) => zs [E2 Hn Hu Hm].
set x := nth 0 nd q0.
have X1 : nth 0 (relax (nd, nx) q0).1 q0 = x - 1 by rewrite relax_nth eqxx.
have X2 : (relax (nd, nx) q0).2 = if x - 1 == 0 then rcons nx q0 else nx.
  by rewrite /relax /= nth_set_nth /= eqxx.
exists (if x - 1 == 0 then q0 :: zs else zs); split.
- by rewrite E2 X2; case: ifP => // _; rewrite -cats1 -catA.
- move=> q; rewrite Hn relax_nth /= [q0 == q]eq_sym.
  case: eqP => [->|_] /=; last by rewrite add0n.
  by rewrite PoszD -/x; ring.
- case: ifP => // /eqP x1 /=; rewrite Hu andbT Hm X1 x1.
  by rewrite ltxx.
- move=> q; rewrite /= [q0 == q]eq_sym.
  case: (ifP (x - 1 == 0)) => [/eqP x1|x1].
    rewrite in_cons Hm relax_nth.
    case: eqP => [->|_] /=; last by rewrite add0n.
    have -> : nth 0 nd q0 = 1 by rewrite -/x; move: x1; lra.
    by rewrite ltr01.
  rewrite Hm relax_nth.
  case: eqP => [->|_] /=; last by rewrite add0n.
  rewrite -/x PoszD [0 < x]gtz0_ge1 [1 <= x]le_eqVlt.
  have -> : (1 == x) = false by apply/negbTE/eqP => e; move: x1; rewrite -e subrr eqxx.
  rewrite /=.
  have -> : (0 < x - 1) = (1 < x) by rewrite subr_gt0.
  by rewrite lerBlDl.
Qed.

Lemma foldl_foldl_relax (S : seq (seq nat)) (cur : seq nat)
    (st : seq int * seq nat) :
  foldl (fun st p => foldl relax st (nth [::] S p)) st cur
  = foldl relax st (flatten [seq nth [::] S p | p <- cur]).
Proof. by elim: cur st => [|p cur IH] st //=; rewrite foldl_cat IH. Qed.

End Relax.

Section Counting.

Variable T : eqType.

Lemma count_uniq_sub (a : pred T) (s t : seq T) :
  uniq s -> uniq t -> {subset s <= t} ->
  count a s = count (fun x => a x && (x \in s)) t.
Proof.
move=> us ut st; rewrite -!size_filter; apply: perm_size.
apply: uniq_perm; rewrite ?filter_uniq // => x.
rewrite !mem_filter; case ax: (a x) => //=.
by case xs: (x \in s) => //=; rewrite (st _ xs).
Qed.

Lemma count_split (a b : pred T) (s : seq T) :
  count a s = count (fun x => a x && b x) s + count (fun x => a x && ~~ b x) s.
Proof.
elim: s => [|x s IH] //=; rewrite IH; case: (a x); case: (b x) => //=.
by rewrite !add0n addnS.
Qed.

Lemma count_lt (a b : pred T) (s : seq T) (x : T) :
  (forall y, a y -> b y) -> x \in s -> b x -> ~~ a x ->
  count a s < count b s.
Proof.
move=> ab; elim: s => [|y s IH] //=; rewrite in_cons => /orP [/eqP <-|xs] bx nax.
  by rewrite (negbTE nax) bx add0n add1n ltnS; apply: sub_count.
have le : a y <= b y by case ay: (a y) => //; rewrite (ab _ ay).
by rewrite -addnS; apply: leq_add => //; apply: IH.
Qed.

Lemma uniq_bounded_size (s : seq nat) (n : nat) :
  uniq s -> all (fun i => i < n) s -> size s <= n.
Proof.
move=> us /allP bs; rewrite -(size_iota 0 n); apply: uniq_leq_size => // i /bs.
by rewrite mem_iota add0n.
Qed.

End Counting.

(** Properties of a sequence of fronts over a population. *)

Section Peeling.

Local Open Scope ring_scope.

Variable pop : seq (seq rat).

Let n := size pop.
Let dom (p q : nat) : bool := _dominates (vec pop p) (vec pop q).
Let S := build_S pop.

Local Notation hits := (hits pop).
Local Notation Inv := (Inv pop).
Local Notation closed := (closed pop).
Local Notation good_fronts := (good_fronts pop).

Lemma nth_build_S (p : nat) :
  nth [::] S p
  = if (p < n)%N then [seq q <- iota 0 n | (q != p) && dom p q] else [::].
Proof.
rewrite /S /build_S -/n; case: ltnP => pn.
  by rewrite (nth_map 0%N) ?size_iota // nth_iota // add0n.
by rewrite nth_default // size_map size_iota.
Qed.

Lemma mem_S (p q : nat) :
  (q \in nth [::] S p) = [&& (p < n)%N, (q < n)%N & dom p q].
Proof.
rewrite nth_build_S; case: ltnP => //= pn.
rewrite mem_filter mem_iota add0n /= andbC; congr (_ && _).
case E: (dom p q); rewrite ?andbF // andbT.
by apply/eqP => e; move: E; rewrite /dom e dominates_irrefl.
Qed.

Lemma uniq_S (p : nat) : uniq (nth [::] S p).
Proof.
by rewrite nth_build_S; case: ifP => // _; rewrite filter_uniq // iota_uniq.
Qed.

Lemma nth_build_n_dom (q : nat) :
  (q < n)%N ->
  nth 0 (build_n_dom pop) q = (count (fun p => dom p q) (iota 0 n))%:Z.
Proof.
move=> qn; rewrite /build_n_dom -/n (nth_map 0%N) ?size_iota // nth_iota //.
rewrite add0n; congr Posz; apply: eq_count => p /=.
rewrite -/(dom q p) -/(dom p q); case E: (dom p q); rewrite ?andbF //.
rewrite /dom (dominates_asym E) /= andbT.
by apply/eqP => e; move: E; rewrite /dom e dominates_irrefl.
Qed.

Lemma sweepP (nd : seq int) (cur : seq nat) :
  [/\ forall q, nth 0 (sweep S nd cur).1 q = nth 0 nd q - (hits cur q)%:Z,
      uniq (sweep S nd cur).2
    & forall q, (q \in (sweep S nd cur).2)
                = (0 < nth 0 nd q <= (hits cur q)%:Z)].
Proof.
rewrite /sweep foldl_foldl_relax.
case: (foldl_relaxP (flatten [seq nth [::] S p | p <- cur]) nd [::]).
move=> zs [-> Hn Hu Hm].
have E q : count_mem q (flatten [seq nth [::] S p | p <- cur]) = hits cur q.
  rewrite count_flatten -map_comp /hits -sumn_count; congr sumn.
  by apply: eq_map => p /=; rewrite count_uniq_mem // uniq_S.
by split=> // q; rewrite ?Hn ?Hm E.
Qed.

Lemma Inv_init :
  Inv [::] (build_n_dom pop)
      [seq i <- iota 0 n | nth 0 (build_n_dom pop) i == 0].
Proof.
split=> /=.
- by rewrite filter_uniq // iota_uniq.
- by apply/allP => i; rewrite mem_filter mem_iota add0n => /andP [_].
- move=> q qn; rewrite nth_build_n_dom //; congr Posz.
  by apply: eq_count => p; rewrite andbT.
- by move=> q qn; rewrite mem_filter mem_iota add0n qn /= andbT.
Qed.

Lemma hits_count (done cur : seq nat) (nd : seq int) (q : nat) :
  Inv done nd cur -> (q < n)%N ->
  count (fun p => dom p q && (p \notin done)) (iota 0 n)
  = (hits cur q
     + count (fun p => dom p q && (p \notin done ++ cur)) (iota 0 n))%N.
Proof.
case=> Hu /allP Hb _ _ qn.
rewrite (count_split _ (mem cur)); congr (_ + _)%N.
  have uc : uniq cur by move: Hu; rewrite cat_uniq => /and3P [].
  have sc : {subset cur <= iota 0 n}.
    by move=> p pc; rewrite mem_iota add0n Hb // mem_cat pc orbT.
  rewrite /hits (count_uniq_sub _ uc (iota_uniq 0 n) sc).
  apply: eq_in_count => p; rewrite mem_iota add0n /= => pn.
  rewrite mem_S pn qn /=; case pc: (p \in cur); rewrite ?andbF //= !andbT.
  case pd: (p \in done); rewrite ?andbT //.
  move: Hu; rewrite cat_uniq => /and3P [_ /hasPn /(_ _ pc) /=].
  by rewrite pd.
by apply: eq_count => p /=; rewrite mem_cat negb_or andbA.
Qed.

Lemma Inv_step (done cur : seq nat) (nd : seq int) :
  Inv done nd cur ->
  Inv (done ++ cur) (sweep S nd cur).1 (sweep S nd cur).2
  /\ (forall q, q \in (sweep S nd cur).2 -> exists2 p, p \in cur & dom p q).
Proof.
move=> I; case: (I) => Hu Hb Hc Hz.
case: (sweepP nd cur) => Sn Su Sm.
have below q : q \in (sweep S nd cur).2 ->
    [/\ (q < n)%N, 0 < nth 0 nd q & exists2 p, p \in cur & dom p q].
  rewrite Sm => /andP [pos le].
  have : (0 < hits cur q)%N by rewrite -ltz_nat; apply: lt_le_trans le.
  rewrite /hits -has_count => /hasP [p pc]; rewrite mem_S => /and3P [_ qn d].
  by split=> //; exists p.
split; last by move=> q /below [].
split.
- rewrite cat_uniq Hu Su andbT /=; apply/hasPn => q /below [qn pos _].
  by rewrite /= Hz //; move: pos; rewrite lt0r => /andP [].
- rewrite all_cat Hb /=; apply/allP => q /below [].
  by [].
- move=> q qn; rewrite Sn Hc // (hits_count I qn) PoszD.
  by ring.
- move=> q qn; rewrite mem_cat Hz // Sm Sn Hc // (hits_count I qn).
  set h := hits cur q; set r := count _ _.
  rewrite PoszD -PoszD lez_nat ltz_nat.
  have -> : (h + r)%:Z - h%:Z = r%:Z by rewrite PoszD; ring.
  rewrite !eqz_nat; case: r => [|r].
    by rewrite addn0 leqnn andbT lt0n orbN.
  by rewrite addnS /= ltnNge leq_addr.
Qed.

Lemma Inv_antichain (done cur : seq nat) (nd : seq int) :
  Inv done nd cur -> antichain pop cur.
Proof.
case=> Hu /allP Hb Hc Hz p q pc qc; apply/negbTE/negP => d.
have qn : (q < n)%N by apply: Hb; rewrite mem_cat qc orbT.
have pn : (p < n)%N by apply: Hb; rewrite mem_cat pc orbT.
have := Hz q qn; rewrite mem_cat qc orbT Hc // => /esym /eqP [].
move/eqP; rewrite -leqn0 leqNgt -has_count => /negP; apply.
apply/hasP; exists p; first by rewrite mem_iota add0n.
rewrite /dom d /=.
by move: Hu; rewrite cat_uniq => /and3P [_ /hasPn /(_ _ pc)].
Qed.

Lemma Inv_closed (done : seq nat) (nd : seq int) :
  Inv done nd [::] -> closed done.
Proof.
case=> _ _ Hc Hz q qn H; move: (Hz q qn); rewrite cats0 => ->.
rewrite Hc // eqz_nat -leqn0 leqNgt -has_count; apply/hasPn => p.
rewrite mem_iota add0n /= => pn.
case d: (_dominates (vec pop p) (vec pop q)) => //=.
by rewrite (H _ pn d).
Qed.

Lemma good_fronts_nil (done : seq nat) (nd : seq int) :
  Inv done nd [::] -> good_fronts done [::].
Proof.
move=> I; case: (I) => Hu _ _ _; split=> //.
by rewrite cats0; apply: Inv_closed I.
Qed.

Lemma peelP (fuel : nat) (done cur : seq nat) (nd : seq int) :
  Inv done nd cur -> (n <= size done + fuel)%N ->
  exists fs,
    [/\ peel fuel S nd cur = Some fs, head [::] fs = cur & good_fronts done fs].
Proof.
elim: fuel done cur nd => [|fuel IH] done cur nd I.
  case: cur I => [|c cur] I le.
    by exists [::]; split=> //; apply: good_fronts_nil I.
  case: (I) => Hu Hb _ _.
  have := uniq_bounded_size Hu Hb.
  rewrite size_cat /= addnS => le2; move: le; rewrite addn0 => le.
  by move: (leq_trans le2 le); rewrite ltnNge leq_addr.
case: cur I => [|c cur] I le.
  by exists [::]; split=> //; apply: good_fronts_nil I.
case: (Inv_step I) => I' Hd.
have le' : (n <= size (done ++ c :: cur) + fuel)%N.
  by rewrite size_cat /= (leq_trans le) // -addnA leq_add2l addSn ltnS leq_addl.
case: (IH _ _ _ I' le') => fs [E Hh [Hu Hb Ha Hl Hc]].
exists ((c :: cur) :: fs); split=> //.
  by rewrite /= -/(sweep S nd (c :: cur)); case: (sweep _ _ _) E => a b /= ->.
split.
- by rewrite /= -catA in Hu.
- case: (I) => _; rewrite all_cat => /andP [_ Hb2] _ _.
  by rewrite -[flatten _]/((c :: cur) ++ flatten fs) all_cat Hb2.
- move=> f; rewrite in_cons => /orP [/eqP ->|]; last exact: Ha.
  exact: Inv_antichain I.
- case=> [|k] q; last exact: Hl.
  by rewrite /= nth0 Hh => /Hd.
- by rewrite -[flatten _]/((c :: cur) ++ flatten fs) catA.
Qed.

Lemma non_dominated_sortP :
  exists2 fs, _non_dominated_sort pop = Some fs & good_fronts [::] fs.
Proof.
case: (@peelP n [::] _ _ Inv_init (leqnn n)) => fs [E _ G].
by exists fs.
Qed.

(** With vectors of one length, dominance is transitive and the closure
    property forces every candidate into some front. *)
Lemma closed_all (m : nat) (X : seq nat) :
  uniform m pop -> closed X -> forall q, (q < n)%N -> q \in X.
Proof.
move=> /allP um cl.
have sz p : (p < n)%N -> size (vec pop p) = m.
  by move=> pn; apply/eqP/um/mem_nth.
have H k : forall q, (count (fun p => dom p q) (iota 0 n) < k)%N ->
                       (q < n)%N -> q \in X.
  elim: k => [|k IH] q //; rewrite ltnS => le qn.
  apply: cl => // p pn d; apply: IH => //; apply: leq_trans le.
  apply: (@count_lt _ _ _ _ p) => //.
  - move=> r; case: (ltnP r n) => rn drp.
      by apply: (dominates_trans _ _ drp d); rewrite !sz.
    by move: drp; rewrite /dom /vec (nth_default _ rn) /_dominates; case: (nth _ _ _).
  - by rewrite mem_iota add0n.
  - by rewrite /dom dominates_irrefl.
by move=> q; apply: H (ltnSn _).
Qed.

End Peeling.

(* ------------------------------------------------------------------ *)
(** ** Fronts of a population and of its feasibility classes *)

Section Fronts.

Local Open Scope ring_scope.

Lemma mem_nth_flatten (fs : seq (seq nat)) (k q : nat) :
  q \in nth [::] fs k -> q \in flatten fs.
Proof.
case: (ltnP k (size fs)) => kn; last by rewrite nth_default.
by move=> qk; apply/flattenP; exists (nth [::] fs k) => //; apply: mem_nth.
Qed.

Lemma non_dominated_sort_total (pop : seq (seq rat)) :
  exists fs, _non_dominated_sort pop = Some fs.
Proof. by case: (non_dominated_sortP pop) => fs E _; exists fs. Qed.

Lemma non_dominated_sort_complete (pop : seq (seq rat)) (m : nat) :
  uniform m pop ->
  exists fs,
    [/\ _non_dominated_sort pop = Some fs,
        perm_eq (flatten fs) (iota 0 (size pop)),
        forall f, f \in fs -> antichain pop f
      & layered pop fs].
Proof.
move=> um; case: (non_dominated_sortP pop) => fs E [Hu /allP Hb Ha Hl Hc].
exists fs; split=> //; apply: uniq_perm; rewrite ?iota_uniq // => q.
rewrite mem_iota add0n /=; apply/idP/idP; first exact: Hb.
exact: (closed_all um Hc).
Qed.

Lemma vec_sub (objs : seq (seq rat)) (idx : seq nat) (j : nat) :
  (j < size idx)%N ->
  vec [seq vec objs i | i <- idx] j = vec objs (nth 0%N idx j).
Proof. by move=> jn; rewrite /vec (nth_map 0%N). Qed.

Lemma nth_map_map (g : nat -> nat) (fs : seq (seq nat)) (k : nat) :
  nth [::] [seq [seq g j | j <- f] | f <- fs] k = [seq g j | j <- nth [::] fs k].
Proof.
case: (ltnP k (size fs)) => kn; first by rewrite (nth_map [::]).
by rewrite !nth_default ?size_map.
Qed.

(** The fronts of the sub-population selected by [idx], renamed back to
    the indices of the whole population. *)
Lemma sub_fronts (objs : seq (seq rat)) (idx : seq nat) (m : nat) :
  uniform m objs -> all (fun i => (i < size objs)%N) idx ->
  exists fs,
    [/\ omap (map (map (nth 0%N idx)))
             (_non_dominated_sort [seq vec objs i | i <- idx]) = Some fs,
        perm_eq (flatten fs) idx,
        forall f, f \in fs -> antichain objs f
      & layered objs fs].
Proof.
move=> /allP um /allP bi.
set sub := [seq vec objs i | i <- idx]; set g := nth 0%N idx.
have us : uniform m sub.
  apply/allP => v /mapP [i ii ->]; apply: um.
  by apply: mem_nth; apply: bi.
case: (non_dominated_sort_complete us) => fs0 [E Hp Ha Hl].
have below q : q \in flatten fs0 -> (q < size idx)%N.
  by rewrite (perm_mem Hp) mem_iota add0n size_map.
exists [seq [seq g j | j <- f] | f <- fs0]; split.
- by rewrite E.
- rewrite -map_flatten.
  have -> : idx = [seq g j | j <- iota 0 (size sub)].
    by rewrite size_map -/(mkseq g (size idx)) mkseq_nth.
  by apply: perm_map.
- move=> f /mapP [f0 f0s ->] p q /mapP [p0 p0f ->] /mapP [q0 q0f ->].
  have pn : (p0 < size idx)%N by apply: below; apply/flattenP; exists f0.
  have qn : (q0 < size idx)%N by apply: below; apply/flattenP; exists f0.
  by rewrite -!vec_sub //; apply: (Ha _ f0s).
- move=> k q; rewrite !nth_map_map => /mapP [q0 q0f ->].
  case: (Hl _ _ q0f) => p0 p0f d; exists (g p0); first exact: map_f.
  have pn : (p0 < size idx)%N by apply: below; apply: mem_nth_flatten p0f.
  have qn : (q0 < size idx)%N by apply: below; apply: mem_nth_flatten q0f.
  by rewrite -!vec_sub.
Qed.

Lemma feas_idx_bound (pens : seq rat) :
  all (fun i => (i < size pens)%N) (feas_idx pens).
Proof. by apply/allP => i; rewrite mem_filter mem_iota add0n => /andP [_]. Qed.

Lemma infeas_idx_bound (pens : seq rat) :
  all (fun i => (i < size pens)%N) (infeas_idx pens).
Proof. by apply/allP => i; rewrite mem_filter mem_iota add0n => /andP [_]. Qed.

Lemma mem_feas_idx (pens : seq rat) (i : nat) :
  (i \in feas_idx pens) = (nth 0 pens i <= 0) && (i < size pens)%N.
Proof. by rewrite mem_filter mem_iota add0n. Qed.

Lemma mem_infeas_idx (pens : seq rat) (i : nat) :
  (i \in infeas_idx pens) = (0 < nth 0 pens i) && (i < size pens)%N.
Proof. by rewrite mem_filter mem_iota add0n. Qed.

Lemma perm_feas_infeas (pens : seq rat) :
  perm_eq (feas_idx pens ++ infeas_idx pens) (iota 0 (size pens)).
Proof.
rewrite /feas_idx /infeas_idx.
have -> : [seq i <- iota 0 (size pens) | 0 < nth 0 pens i]
          = [seq i <- iota 0 (size pens)
            | predC (fun i => nth 0 pens i <= 0) i].
  by apply: eq_filter => i /=; rewrite ltNge.
by rewrite perm_filterC.
Qed.

(** The fronts [nsga_order] ranks: those of the feasible candidates, then
    those of the infeasible ones. *)
Lemma nsga_frontsP (objs : seq (seq rat)) (pens : seq rat) (m : nat) :
  size objs = size pens -> uniform m objs ->
  exists ff fi,
    [/\ nsga_fronts objs pens = Some (ff ++ fi),
        perm_eq (flatten ff) (feas_idx pens),
        perm_eq (flatten fi) (infeas_idx pens),
        forall f, f \in ff ++ fi -> antichain objs f
      & layered objs ff /\ layered objs fi].
Proof.
move=> sz um.
have bf : all (fun i => (i < size objs)%N) (feas_idx pens).
  by rewrite sz feas_idx_bound.
have bi : all (fun i => (i < size objs)%N) (infeas_idx pens).
  by rewrite sz infeas_idx_bound.
case: (sub_fronts um bf) => ff [Ef Pf Af Lf].
case: (sub_fronts um bi) => fi [Ei Pi Ai Li].
have Ef' : (if feas_idx pens is [::] then Some [::]
            else omap (map (map (nth 0%N (feas_idx pens))))
                   (_non_dominated_sort [seq vec objs i | i <- feas_idx pens]))
           = Some ff.
  by move: Ef; case: (feas_idx pens) => //=; rewrite /_non_dominated_sort.
have Ei' : (if infeas_idx pens is [::] then Some [::]
            else omap (map (map (nth 0%N (infeas_idx pens))))
                   (_non_dominated_sort [seq vec objs i | i <- infeas_idx pens]))
           = Some fi.
  by move: Ei; case: (infeas_idx pens) => //=; rewrite /_non_dominated_sort.
exists ff, fi; split=> //; first by rewrite /nsga_fronts Ef' Ei'.
by move=> f; rewrite mem_cat => /orP [/Af|/Ai].
Qed.

(** The two runs of the front builder behind [nsga_fronts]: one on the
    feasible candidates, one on the infeasible ones, each renamed to the
    indices of the population. *)
Lemma nsga_fronts_runs (objs : seq (seq rat)) (pens : seq rat) (m : nat) :
  size objs = size pens -> uniform m objs ->
  exists ff fi,
    [/\ omap (map (map (nth 0%N (feas_idx pens))))
             (_non_dominated_sort [seq vec objs i | i <- feas_idx pens])
        = Some ff,
        omap (map (map (nth 0%N (infeas_idx pens))))
             (_non_dominated_sort [seq vec objs i | i <- infeas_idx pens])
        = Some fi,
        nsga_fronts objs pens = Some (ff ++ fi),
        perm_eq (flatten ff) (feas_idx pens)
      & perm_eq (flatten fi) (infeas_idx pens)].
Proof.
move=> sz um.
have bf : all (fun i => (i < size objs)%N) (feas_idx pens).
  by rewrite sz feas_idx_bound.
have bi : all (fun i => (i < size objs)%N) (infeas_idx pens).
  by rewrite sz infeas_idx_bound.
case: (sub_fronts um bf) => ff [Ef Pf _ _].
case: (sub_fronts um bi) => fi [Ei Pi _ _].
exists ff, fi; split=> //; rewrite /nsga_fronts.
have -> : (if feas_idx pens is [::] then Some [::]
           else omap (map (map (nth 0%N (feas_idx pens))))
                  (_non_dominated_sort [seq vec objs i | i <- feas_idx pens]))
          = Some ff.
  by move: Ef; case: (feas_idx pens) => //=; rewrite /_non_dominated_sort.
have -> : (if infeas_idx pens is [::] then Some [::]
           else omap (map (map (nth 0%N (infeas_idx pens))))
                  (_non_dominated_sort [seq vec objs i | i <- infeas_idx pens]))
          = Some fi.
  by move: Ei; case: (infeas_idx pens) => //=; rewrite /_non_dominated_sort.
by [].
Qed.

End Fronts.

(* ------------------------------------------------------------------ *)
(** ** The ranked order *)

Section Order.

Local Open Scope ring_scope.

Lemma map_idx_front_entries (objs : seq (seq rat)) (r : nat) (f : seq nat) :
  [seq t.1.1 | t <- front_entries objs r f] = f.
Proof. by rewrite /front_entries -map_comp /= map_id. Qed.

Lemma map_idx_build_order (objs : seq (seq rat)) (r : nat)
    (fs : seq (seq nat)) :
  [seq t.1.1 | t <- build_order objs r fs] = flatten fs.
Proof.
by elim: fs r => [|f fs IH] r //=; rewrite map_cat map_idx_front_entries IH.
Qed.

Lemma build_order_cat (objs : seq (seq rat)) (r : nat)
    (a b : seq (seq nat)) :
  build_order objs r (a ++ b)
  = build_order objs r a ++ build_order objs (r + size a) b.
Proof.
elim: a r => [|f a IH] r /=; first by rewrite addn0.
by rewrite IH catA addSnnS.
Qed.

Lemma mem_build_order (objs : seq (seq rat)) (r : nat) (fs : seq (seq nat))
    (t : nat * xrat * nat) :
  t \in build_order objs r fs ->
  [/\ t.1.1 \in flatten fs, (r <= t.2)%N & (t.2 < r + size fs)%N].
Proof.
elim: fs r => [|f fs IH] r //=; rewrite mem_cat => /orP [].
  case/mapP => i fi ->; rewrite /= mem_cat fi leqnn; split=> //.
  by rewrite addnS ltnS leq_addr.
move/IH => [m1 m2 m3]; split; first by rewrite mem_cat m1 orbT.
  exact: ltnW.
by rewrite addnS -addSn.
Qed.

End Order.

(* ------------------------------------------------------------------ *)
(** ** Properties of the front sequence and of the ranked order *)

Section RankingProperties.

Local Open Scope ring_scope.

Lemma layered_weaken (pop : seq (seq rat)) (fs : seq (seq nat)) :
  layered pop fs -> layered_union pop fs.
Proof.
move=> L k q /[dup] qk /L [p pk d]; exists p => //.
have kn : (k < size fs)%N.
  by case: (ltnP k (size fs)) pk => // le; rewrite nth_default.
apply/flattenP; exists (nth [::] fs k) => //.
rewrite -(nth_take (n0 := k.+1)) // mem_nth // size_take.
by case: ifP.
Qed.

(** C3. With one objective length and as many penalties as candidates:
    the front builder runs once on the feasible candidates (penalty <= 0)
    and once on the infeasible ones (penalty > 0), the fronts of the first
    run are followed by those of the second, [nsga_order] returns, every
    candidate is ranked, and every feasible candidate has a strictly
    smaller rank than every infeasible one, whatever the objective
    values. *)
Theorem C3_feasible_rank_before_infeasible (objs : seq (seq rat))
    (pens : seq rat) (m : nat) :
  size objs = size pens -> uniform m objs ->
  exists ff fi out,
    [/\ omap (map (map (nth 0%N (feas_idx pens))))
             (_non_dominated_sort [seq vec objs i | i <- feas_idx pens])
        = Some ff
        /\ omap (map (map (nth 0%N (infeas_idx pens))))
                (_non_dominated_sort [seq vec objs i | i <- infeas_idx pens])
           = Some fi,
        nsga_fronts objs pens = Some (ff ++ fi),
        nsga_order objs pens = Some out,
        forall i, (i < size pens)%N -> i \in [seq t.1.1 | t <- out]
      & forall t u, t \in out -> u \in out ->
          nth 0 pens t.1.1 <= 0 -> 0 < nth 0 pens u.1.1 -> (t.2 < u.2)%N].
Proof.
move=> sz um; case: (nsga_fronts_runs sz um) => ff [fi [Ef Ei E Pf Pi]].
exists ff, fi, (sort key_le (build_order objs 1 (ff ++ fi))); split=> //.
- by rewrite /nsga_order E.
- move=> i ip; rewrite (perm_mem (perm_map _ (permEl (perm_sort _ _)))).
  rewrite map_idx_build_order flatten_cat.
  rewrite (perm_mem (perm_cat Pf Pi)) (perm_mem (perm_feas_infeas pens)).
  by rewrite mem_iota add0n.
- move=> t u; rewrite !mem_sort build_order_cat !mem_cat.
  move=> /orP [] /mem_build_order [t1 t2 t3] /orP [] /mem_build_order [u1 u2 u3].
  + move: u1; rewrite (perm_mem Pf) mem_feas_idx => /andP [le _] _ lt.
    by move: (le_lt_trans le lt); rewrite ltxx.
  + by move=> _ _; apply: leq_trans t3 _; rewrite add1n in u2 *.
  + move: u1; rewrite (perm_mem Pf) mem_feas_idx => /andP [le _] _ lt.
    by move: (le_lt_trans le lt); rewrite ltxx.
  + move: t1; rewrite (perm_mem Pi) mem_infeas_idx => /andP [lt _] le.
    by move: (le_lt_trans le lt); rewrite ltxx.
Qed.

Lemma C3_feasible_rank_before_infeasible_witness :
  exists ff fi out,
    [/\ omap (map (map (nth 0%N (feas_idx c3_pens))))
             (_non_dominated_sort [seq vec c3_objs i | i <- feas_idx c3_pens])
        = Some ff
        /\ omap (map (map (nth 0%N (infeas_idx c3_pens))))
                (_non_dominated_sort
                   [seq vec c3_objs i | i <- infeas_idx c3_pens])
           = Some fi,
        nsga_fronts c3_objs c3_pens = Some (ff ++ fi),
        nsga_order c3_objs c3_pens = Some out,
        forall i, (i < size c3_pens)%N -> i \in [seq t.1.1 | t <- out]
      & forall t u, t \in out -> u \in out ->
          nth 0 c3_pens t.1.1 <= 0 -> 0 < nth 0 c3_pens u.1.1 ->
          (t.2 < u.2)%N].
Proof.
apply: (@C3_feasible_rank_before_infeasible c3_objs c3_pens 6).
- reflexivity.
- vm_compute; reflexivity.
Defined.

(** C10. The fronts of a population, and those [nsga_order] builds from the
    feasible and the infeasible candidates, list every candidate index
    exactly once; so does the ranked output. *)
Theorem C10_fronts_partition_candidates (objs : seq (seq rat))
    (pens : seq rat) (m : nat) :
  size objs = size pens -> uniform m objs ->
  exists fs0 fs out,
    [/\ _non_dominated_sort objs = Some fs0,
        perm_eq (flatten fs0) (iota 0 (size objs)),
        nsga_fronts objs pens = Some fs,
        perm_eq (flatten fs) (iota 0 (size objs))
      & nsga_order objs pens = Some out
        /\ perm_eq [seq t.1.1 | t <- out] (iota 0 (size objs))].
Proof.
move=> sz um; case: (nsga_frontsP sz um) => ff [fi [E Pf Pi _ _]].
case: (non_dominated_sort_complete um) => fs0 [E0 P0 _ _].
have P : perm_eq (flatten (ff ++ fi)) (iota 0 (size objs)).
  rewrite flatten_cat sz; apply: perm_trans (perm_feas_infeas pens).
  exact: perm_cat.
exists fs0, (ff ++ fi), (sort key_le (build_order objs 1 (ff ++ fi))).
split=> //; split; first by rewrite /nsga_order E.
apply: perm_trans P; rewrite -(map_idx_build_order objs 1).
by apply: perm_map; rewrite perm_sort.
Qed.

Lemma C10_fronts_partition_candidates_witness :
  exists fs0 fs out,
    [/\ _non_dominated_sort c3_objs = Some fs0,
        perm_eq (flatten fs0) (iota 0 (size c3_objs)),
        nsga_fronts c3_objs c3_pens = Some fs,
        perm_eq (flatten fs) (iota 0 (size c3_objs))
      & nsga_order c3_objs c3_pens = Some out
        /\ perm_eq [seq t.1.1 | t <- out] (iota 0 (size c3_objs))].
Proof.
apply: (@C10_fronts_partition_candidates c3_objs c3_pens 6).
- reflexivity.
- vm_compute; reflexivity.
Defined.

(** C4 (as the code has it). Every front is an antichain for dominance.
    Fronts are layered inside a feasibility class only: the fronts of the
    feasible candidates come first, those of the infeasible candidates
    follow, and within each of the two runs every member of a front is
    dominated by a member of the front just before it.  The same holds for
    the fronts of one plain run of the front builder. *)
Theorem C4_fronts_layered_within_class (objs : seq (seq rat))
    (pens : seq rat) (m : nat) :
  size objs = size pens -> uniform m objs ->
  (exists fs0,
     [/\ _non_dominated_sort objs = Some fs0,
         forall f, f \in fs0 -> antichain objs f
       & layered objs fs0])
  /\ (exists ff fi,
       [/\ nsga_fronts objs pens = Some (ff ++ fi),
           (forall i, i \in flatten ff -> nth 0 pens i <= 0)
           /\ (forall i, i \in flatten fi -> 0 < nth 0 pens i),
           forall f, f \in ff ++ fi -> antichain objs f,
           layered objs ff
         & layered objs fi]).
Proof.
move=> sz um; split.
  case: (non_dominated_sort_complete um) => fs0 [E0 _ A0 L0].
  by exists fs0.
case: (nsga_frontsP sz um) => ff [fi [E Pf Pi A [Lf Li]]].
exists ff, fi; split=> //; split=> i.
  by rewrite (perm_mem Pf) mem_feas_idx => /andP [].
by rewrite (perm_mem Pi) mem_infeas_idx => /andP [].
Qed.

Lemma C4_fronts_layered_within_class_witness :
  (exists fs0,
     [/\ _non_dominated_sort c3_objs = Some fs0,
         forall f, f \in fs0 -> antichain c3_objs f
       & layered c3_objs fs0])
  /\ (exists ff fi,
       [/\ nsga_fronts c3_objs c3_pens = Some (ff ++ fi),
           (forall i, i \in flatten ff -> nth 0 c3_pens i <= 0)
           /\ (forall i, i \in flatten fi -> 0 < nth 0 c3_pens i),
           forall f, f \in ff ++ fi -> antichain c3_objs f,
           layered c3_objs ff
         & layered c3_objs fi]).
Proof.
apply: (@C4_fronts_layered_within_class c3_objs c3_pens 6).
- reflexivity.
- vm_compute; reflexivity.
Defined.

(** A feasible candidate with open job cards and an infeasible one with
    closed job cards (their weighted objectives under the default weights):
    the infeasible candidate sits alone in front 2 although the only member
    of front 1 does not dominate it. *)
Lemma C4_counterexample :
  nsga_fronts c4_objs c4_pens = Some [:: [:: 0%N]; [:: 1%N]]
  /\ ~ layered_union c4_objs [:: [:: 0%N]; [:: 1%N]].
Proof.
split; first by vm_compute.
move=> /(_ 0%N 1%N); rewrite /= inE eqxx => /(_ isT) [p].
by rewrite inE => /eqP ->; vm_compute.
Qed.

End RankingProperties.

(* ------------------------------------------------------------------ *)
(** ** Crowding distance *)

Section Crowding.

Local Open Scope ring_scope.

Variable pop : seq (seq rat).

Let leT (k : nat) : rel nat := fun i j => val pop i k <= val pop j k.

Lemma leT_total (k : nat) : total (leT k).
Proof. by move=> i j; apply: le_total. Qed.

Lemma leT_trans (k : nat) : transitive (leT k).
Proof. by move=> j i l; apply: le_trans. Qed.

Lemma mem_sort_by_dim (k : nat) (f : seq nat) : sort_by_dim pop k f =i f.
Proof. exact: mem_sort. Qed.

Lemma sort_by_dim_nil (k : nat) (f : seq nat) :
  (sort_by_dim pop k f == [::]) = (f == [::]).
Proof. by rewrite -!size_eq0 size_sort. Qed.

(** The first element of the sorted front holds the minimum of dimension
    [k], the last one the maximum. *)
Lemma sort_by_dim_head (k : nat) (f : seq nat) (j : nat) :
  j \in f -> val pop (head 0%N (sort_by_dim pop k f)) k <= val pop j k.
Proof.
rewrite -(mem_sort_by_dim k).
have := sort_sorted (leT_total k) f; rewrite -/(sort_by_dim pop k f).
case: (sort_by_dim pop k f) => [|x s] //=.
rewrite (path_sortedE (@leT_trans k)) => /andP [/allP H _].
by rewrite in_cons => /orP [/eqP ->|/H].
Qed.

Lemma sort_by_dim_last (k : nat) (f : seq nat) (j : nat) :
  j \in f -> val pop j k <= val pop (last 0%N (sort_by_dim pop k f)) k.
Proof.
rewrite -(mem_sort_by_dim k).
have := sort_sorted (leT_total k) f; rewrite -/(sort_by_dim pop k f).
case/lastP: (sort_by_dim pop k f) => [|s x] //.
rewrite (sorted_pairwise (@leT_trans k)) pairwise_rcons last_rcons.
move=> /andP [/allP H _]; rewrite mem_rcons in_cons => /orP [/eqP ->|/H] //.
Qed.

Lemma head_sort_by_dim_mem (k : nat) (f : seq nat) :
  f != [::] -> head 0%N (sort_by_dim pop k f) \in f.
Proof.
rewrite -(sort_by_dim_nil k) -(mem_sort_by_dim k).
by case: (sort_by_dim pop k f) => //= x s _; rewrite mem_head.
Qed.

Lemma last_sort_by_dim_mem (k : nat) (f : seq nat) :
  f != [::] -> last 0%N (sort_by_dim pop k f) \in f.
Proof.
rewrite -(sort_by_dim_nil k) -(mem_sort_by_dim k).
by case: (sort_by_dim pop k f) => //= x s _; rewrite mem_last.
Qed.

(** An infinite distance stays infinite. *)
Lemma add_interior_sticky (s : seq nat) (k : nat) (span : rat)
    (js : seq nat) (d : dict) (i : nat) :
  d i = Some PInf -> foldl (add_interior pop s k span) d js i = Some PInf.
Proof.
elim: js d => [|j js IH] d di //=; apply: IH.
rewrite /add_interior /dict_set; case: eqP => // <-.
by rewrite /dict_get di.
Qed.

Lemma cd_dim_sticky (f : seq nat) (d : dict) (k i : nat) :
  d i = Some PInf -> cd_dim pop f d k i = Some PInf.
Proof.
move=> di; rewrite /cd_dim.
set d1 := dict_set _ _ _.
have d1i : d1 i = Some PInf.
  by rewrite /d1 /dict_set; case: eqP => //; case: eqP.
by case: ifP => // _; apply: add_interior_sticky.
Qed.

Lemma cd_dim_ends (f : seq nat) (d : dict) (k : nat) :
  cd_dim pop f d k (head 0%N (sort_by_dim pop k f)) = Some PInf
  /\ cd_dim pop f d k (last 0%N (sort_by_dim pop k f)) = Some PInf.
Proof.
rewrite /cd_dim nth0 nth_last.
set d1 := dict_set _ _ _.
have h1 : d1 (head 0%N (sort_by_dim pop k f)) = Some PInf.
  by rewrite /d1 /dict_set eqxx; case: eqP.
have h2 : d1 (last 0%N (sort_by_dim pop k f)) = Some PInf.
  by rewrite /d1 /dict_set eqxx.
by case: ifP => // _; split; apply: add_interior_sticky.
Qed.

Lemma foldl_cd_dim_sticky (f : seq nat) (ks : seq nat) (d : dict) (i : nat) :
  d i = Some PInf -> foldl (cd_dim pop f) d ks i = Some PInf.
Proof.
by elim: ks d => [|k ks IH] d di //=; apply: IH; apply: cd_dim_sticky.
Qed.

Lemma foldl_cd_dim_ends (f : seq nat) (ks : seq nat) (d : dict) (k : nat) :
  k \in ks ->
  foldl (cd_dim pop f) d ks (head 0%N (sort_by_dim pop k f)) = Some PInf
  /\ foldl (cd_dim pop f) d ks (last 0%N (sort_by_dim pop k f)) = Some PInf.
Proof.
elim: ks d => [|k0 ks IH] d //=; rewrite in_cons => /orP [/eqP <-|/IH] //.
by case: (cd_dim_ends f d k) => h1 h2; split; apply: foldl_cd_dim_sticky.
Qed.

Lemma crowding_distance_ends (f : seq nat) (k : nat) :
  f != [::] -> (k < size (vec pop 0))%N ->
  dict_get (_crowding_distance f pop) (head 0%N (sort_by_dim pop k f)) = PInf
  /\ dict_get (_crowding_distance f pop) (last 0%N (sort_by_dim pop k f)) = PInf.
Proof.
case: f => [|a f] // _ km; rewrite /_crowding_distance /dict_get.
set d0 := foldl _ dict_empty _.
have km' : k \in iota 0 (size (vec pop 0)) by rewrite mem_iota add0n.
by case: (foldl_cd_dim_ends (a :: f) d0 km') => -> ->.
Qed.

(** With one value on the whole column the sort keeps the front as it is. *)
Lemma sort_by_dim_const (k : nat) (f : seq nat) (v : rat) :
  (forall i, val pop i k = v) -> sort_by_dim pop k f = f.
Proof.
move=> H; apply: sorted_sort; first exact: leT_trans.
case: f => //= x f; elim: f x => //= y f IH x.
by rewrite !H lexx /=; apply: IH.
Qed.

End Crowding.

(* ------------------------------------------------------------------ *)
(** ** Status texts, objectives and categories *)

Section Texts.

Local Open Scope string_scope.

Lemma prefix_py_in (k s : string) : String.prefix k s -> py_in k s.
Proof. by case: s => [|b s] /= ->. Qed.

(** A text that contains [a k] contains [k]. *)
Lemma py_in_tail (a : ascii) (k s : string) :
  py_in (String a k) s -> py_in k s.
Proof.
elim: s => [|b s IH] //=; case: (ascii_dec a b) => _ /=.
  by move=> /orP [/prefix_py_in|/IH] ->; rewrite orbT.
by move=> /IH ->; rewrite orbT.
Qed.

Lemma invalid_contains_valid (s : string) :
  py_in "invalid" s -> py_in "valid" s.
Proof. by move=> /py_in_tail /py_in_tail. Qed.

End Texts.

Section Categories.

Local Open Scope ring_scope.
Local Open Scope string_scope.

Variable str_to_float : string -> option rat.

(** [map_row_to_objectives] in terms of its components. *)
Lemma map_row_to_objectivesE (row : Row) (avg : rat) :
  map_row_to_objectives str_to_float row avg
  = omap (fun mileage =>
            ([:: fitness_objective row; jobs_objective row;
                 branding_objective row; `|mileage - avg|;
                 cleaning_objective row; geometry_objective row],
             extras_of row mileage, penalty_of row, alerts_of row))
         (float_or_zero str_to_float (row_mileage row)).
Proof. by rewrite /map_row_to_objectives; case: (float_or_zero _ _). Qed.

(** What the mapper derives from the fitness and the cleaning text. *)
Lemma map_row_fitness_cleaning (row : Row) (avg : rat)
    (objs : seq rat) (ex : Extras) (pen : rat) (al : Alerts) :
  map_row_to_objectives str_to_float row avg = Some (objs, ex, pen, al) ->
  let inv := ~~ py_in "valid" (_norm_text (row_fitness row))
             && any_in [:: "expired"; "invalid"; "revoked"]
                       (_norm_text (row_fitness row)) in
  [/\ nth 0 objs 0 = (if inv then 1 else 0),
      pen = (if inv then 10%:R else 0),
      al_fitness_invalid al = inv
    & al_cleaning_pending al || al_cleaning_partial al
      = ~~ any_in [:: "complete"; "clean"] (_norm_text (row_cleaning row))].
Proof.
rewrite map_row_to_objectivesE; case: (float_or_zero _ _) => // mil.
move=> [<- _ <- <-]; cbv zeta.
rewrite [nth _ _ _]/= /penalty_of /alerts_of /fitness_objective.
rewrite /_normalize_statuses; cbv zeta.
case: (py_in "valid" (_norm_text (row_fitness row)));
case: (any_in [:: "expired"; "invalid"; "revoked"]
              (_norm_text (row_fitness row)));
case: (any_in [:: "complete"; "clean"] (_norm_text (row_cleaning row)));
case: (any_in [:: "partial"; "inprogress"] (_norm_text (row_cleaning row)));
by split; vm_compute.
Qed.

(** Every fitness text that contains "invalid" is normalised to "Valid":
    the candidate is mapped as feasible. *)
Lemma invalid_text_is_feasible (row : Row) (avg : rat)
    (objs : seq rat) (ex : Extras) (pen : rat) (al : Alerts) :
  map_row_to_objectives str_to_float row avg = Some (objs, ex, pen, al) ->
  py_in "invalid" (_norm_text (row_fitness row)) ->
  [/\ nth 0 objs 0 = 0, pen = 0 & al_fitness_invalid al = false].
Proof.
move=> /map_row_fitness_cleaning /= [-> -> -> _] /invalid_contains_valid ->.
by [].
Qed.

(** C1 (the code at the failing input). For the fitness text "invalid" the
    mapper reports the status "Valid", the fitness-invalidity objective 0,
    the penalty 0 and no fitness alert, whatever the fleet average. *)
Theorem C1_invalid_text_mapped_as_valid (avg : rat) :
  omap (fun t => (nth 0 t.1.1.1 0 == 0, t.1.2 == 0,
                  ex_fitness t.1.1.2, al_fitness_invalid t.2))
       (map_row_to_objectives str_to_float c1_row avg)
  = Some (true, true, "Valid", false).
Proof. by vm_compute. Qed.

(** C2 (as the code has it). When the fitness text is not matched both
    ways, the category is "Inspection Bay Hold" as soon as the text
    contains "expired", "invalid" or "revoked", whatever the job cards;
    otherwise it is "Revenue Service" when the cleaning text contains
    "complete" or "clean" and "Cleaning/Detailing" when it does not (the
    normalised cleaning state is then "Partial" or "Pending").  The
    category of a result is read from the alerts of its candidate alone:
    neither the rank nor the crowding distance enters.  In the CSV entry
    point the maintenance category is the one that asks for both an
    invalid certificate and enough open work orders. *)
Theorem C2_category_by_fitness_then_cleaning (row : Row) (avg : rat)
    (t : seq rat * Extras * rat * Alerts) :
  map_row_to_objectives str_to_float row avg = Some t ->
  ~~ both_ways (_norm_text (row_fitness row)) ->
  [/\ induction_category t.2
      = (if any_in [:: "expired"; "invalid"; "revoked"]
                   (_norm_text (row_fitness row))
         then "Inspection Bay Hold"
         else if any_in [:: "complete"; "clean"]
                        (_norm_text (row_cleaning row))
              then "Revenue Service"
         else "Cleaning/Detailing"),
      forall rows exs als i c r,
        (result_of rows exs als (i, c, r)).1
        = induction_category (nth dflt_alerts als i)
    & forall ti th,
        (classify_category ti th == "Inspection Bay: Maintenance")
        = ~~ ti_fitness_valid ti
          && (maintenance_open_work_orders_threshold th
              <= ti_open_work_orders ti)].
Proof.
case: t => [[[objs ex] pen] al] /map_row_fitness_cleaning; cbv zeta.
move=> [_ _ Hf Hc]; rewrite /both_ways /induction_category Hf Hc => nb.
split=> //; last first.
  move=> ti th; rewrite /classify_category.
  by case: (_ && _) => //; case: (_ && _) => //; case: (_ && _).
move: nb.
case: (py_in "valid" _); case: (any_in [:: "expired"; _; _] _) => //= _;
by case: (py_in "complete" _); case: (py_in "clean" _).
Qed.

End Categories.

Section CategoryExamples.

Local Open Scope string_scope.

Lemma C2_category_by_fitness_then_cleaning_witness :
  [/\ induction_category c2_mapped.2
      = (if any_in [:: "expired"; "invalid"; "revoked"]
                   (_norm_text (row_fitness c2_row))
         then "Inspection Bay Hold"
         else if any_in [:: "complete"; "clean"]
                        (_norm_text (row_cleaning c2_row))
              then "Revenue Service"
         else "Cleaning/Detailing"),
      forall rows exs als i c r,
        (result_of rows exs als (i, c, r)).1
        = induction_category (nth dflt_alerts als i)
    & forall ti th,
        (classify_category ti th == "Inspection Bay: Maintenance")
        = ~~ ti_fitness_valid ti
          && (maintenance_open_work_orders_threshold th
              <= ti_open_work_orders ti)%R].
Proof.
apply: (@C2_category_by_fitness_then_cleaning (fun _ => None) c2_row 0%R).
- vm_compute; reflexivity.
- vm_compute; reflexivity.
Defined.

(** An expired certificate with closed job cards and complete cleaning: the
    rule of the specification gives "Revenue Service", the endpoint
    computes "Inspection Bay Hold". *)
Lemma C2_counterexample :
  spec_category c2_row = "Revenue Service"
  /\ omap (fun t => induction_category t.2)
          (map_row_to_objectives (fun _ => None) c2_row 0%R)
     = Some "Inspection Bay Hold".
Proof. by split; vm_compute. Qed.

End CategoryExamples.

(* ------------------------------------------------------------------ *)
(** ** The endpoint as a whole *)

Section EndpointProperties.

Local Open Scope ring_scope.

Variable str_to_float : string -> option rat.

Local Notation mileage_of := (mileage_of str_to_float).
Local Notation convertible := (convertible str_to_float).
Local Notation mapped_rows := (mapped_rows str_to_float).

Lemma map_optE (A B : Type) (f : A -> option B) (d : B) (xs : seq A) :
  map_opt f xs
  = if all (fun x => isSome (f x)) xs
    then Some [seq odflt d (f x) | x <- xs] else None.
Proof.
by elim: xs => //= x xs ->; case: (f x) => //= y; case: ifP.
Qed.

Lemma nsga_order_perm (objs : seq (seq rat)) (pens : seq rat) (m : nat) :
  size objs = size pens -> uniform m objs ->
  exists2 out, nsga_order objs pens = Some out
             & perm_eq [seq t.1.1 | t <- out] (iota 0 (size objs)).
Proof.
move=> sz um; case: (nsga_frontsP sz um) => ff [fi [E Pf Pi _ _]].
exists (sort key_le (build_order objs 1 (ff ++ fi))).
  by rewrite /nsga_order E.
have P : perm_eq (flatten (ff ++ fi)) (iota 0 (size objs)).
  rewrite flatten_cat sz; apply: perm_trans (perm_feas_infeas pens).
  exact: perm_cat.
apply: perm_trans P; rewrite -(map_idx_build_order objs 1).
by apply: perm_map; rewrite perm_sort.
Qed.

Lemma map_row_isSome (r : Row) (avg : rat) :
  isSome (map_row_to_objectives str_to_float r avg)
  = isSome (float_or_zero str_to_float (row_mileage r)).
Proof. by rewrite /map_row_to_objectives; case: (float_or_zero _ _). Qed.

Lemma map_row_mileage (r : Row) (avg : rat)
    (t : seq rat * Extras * rat * Alerts) :
  map_row_to_objectives str_to_float r avg = Some t ->
  float_or_zero str_to_float (row_mileage r) = Some (ex_mileage t.1.1.2).
Proof.
rewrite map_row_to_objectivesE; case: (float_or_zero _ _) => // mil.
by move=> [<-].
Qed.

Lemma apply_weights_shape (objs : seq (seq rat)) (w : Weights) :
  size (apply_weights objs w) = size objs /\ uniform 6 (apply_weights objs w).
Proof.
split; first by rewrite /apply_weights size_map size_iota.
by apply/allP => v /mapP [i _ ->].
Qed.

Lemma rank_inputsE (rows : seq Row) (w : Weights) :
  rank_inputs str_to_float rows w
  = if all convertible rows
    then Some (mapped_rows rows,
               apply_weights [seq t.1.1.1 | t <- mapped_rows rows] w,
               [seq t.1.2 | t <- mapped_rows rows])
    else None.
Proof.
rewrite /rank_inputs (map_optE _ 0) -/(all convertible rows).
case: ifP => // ok; rewrite (map_optE _ dflt_mapped).
have -> : all (fun r => isSome (map_row_to_objectives str_to_float r
                 (fleet_average [seq mileage_of r | r <- rows]))) rows
          = all convertible rows.
  by apply: eq_all => r; rewrite map_row_isSome.
by rewrite ok.
Qed.

Lemma rank_traceP (rows : seq Row) (w : Weights) :
  all convertible rows ->
  exists2 order,
    rank_trace str_to_float rows w
    = Some [seq result_of rows [seq t.1.1.2 | t <- mapped_rows rows]
                          [seq t.2 | t <- mapped_rows rows] t
           | t <- order]
    & perm_eq [seq t.1.1 | t <- order] (iota 0 (size rows)).
Proof.
move=> ok; rewrite /rank_trace rank_inputsE ok.
set objs := apply_weights _ _; set pens := [seq t.1.2 | t <- _].
have [so uo] := apply_weights_shape [seq t.1.1.1 | t <- mapped_rows rows] w.
have sr : size objs = size rows by rewrite so !size_map.
have sz : size objs = size pens by rewrite sr !size_map.
case: (nsga_order_perm sz uo) => order -> P.
by exists order => //; rewrite -sr.
Qed.

Lemma rank_trace_fails (rows : seq Row) (w : Weights) :
  ~~ all convertible rows -> rank_trace str_to_float rows w = None.
Proof. by move=> /negbTE no; rewrite /rank_trace rank_inputsE no. Qed.

(** What a result reports of its candidate: the identifier of the row and
    the converted mileage. *)
Lemma reported_fields (rows : seq Row) (w : Weights) :
  all convertible rows ->
  exists2 res, rank_endpoint str_to_float rows w = Some res
    & perm_eq [seq (res_train_id it, res_mileage it) | it <- res]
              [seq (row_train_id r, mileage_of r) | r <- rows].
Proof.
move=> ok; case: (rank_traceP w ok) => order; rewrite /rank_endpoint.
set exs := [seq t.1.1.2 | t <- mapped_rows rows].
set als := [seq t.2 | t <- mapped_rows rows].
move=> -> P /=; eexists; first by [].
set g := fun i => (row_train_id (nth dflt_row rows i),
                   ex_mileage (nth dflt_extras exs i)).
have -> : [seq (res_train_id it, res_mileage it)
          | it <- [seq i.2 | i <- [seq result_of rows exs als t | t <- order]]]
          = [seq g i | i <- [seq t.1.1 | t <- order]].
  by elim: order {P} => //= t order ->.
have -> : [seq (row_train_id r, mileage_of r) | r <- rows]
          = [seq g i | i <- iota 0 (size rows)].
  apply: (@eq_from_nth _ (None, 0)); first by rewrite !size_map size_iota.
  move=> i; rewrite size_map => ir.
  rewrite (nth_map dflt_row) // (nth_map 0%N) ?size_iota // nth_iota // add0n.
  rewrite /g /exs (nth_map dflt_mapped) ?size_map // /mapped_rows.
  rewrite (nth_map dflt_row) //; congr (_, _).
  move/(all_nthP dflt_row): (ok) => /(_ _ ir); rewrite /convertible.
  rewrite -(map_row_isSome _ (fleet_average [seq mileage_of r | r <- rows])).
  case E2: (map_row_to_objectives _ _ _) => [t|] // _.
  by rewrite /mileage_of (map_row_mileage E2).
exact: perm_map.
Qed.

End EndpointProperties.

(* ------------------------------------------------------------------ *)
(** ** Ingestion: numeric fields and the identifier *)

Section Ingestion.

Local Open Scope ring_scope.
Local Open Scope string_scope.

(** C8 (as the code has it). A mileage that is absent, null or an empty
    text is read as 0.  When every mileage of the batch converts, the
    endpoint returns one result per row, each with the identifier and the
    converted mileage of its row; when one mileage is a text that [float]
    rejects, the request ends with the exception and nothing is ranked. *)
Theorem C8_mileage_default_and_failure (str_to_float : string -> option rat)
    (rows : seq Row) (w : Weights) :
  [/\ float_or_zero str_to_float JNull = Some 0%R,
      float_or_zero str_to_float (JStr "") = Some 0%R
    & if all (convertible str_to_float) rows
      then exists2 res, rank_endpoint str_to_float rows w = Some res
             & perm_eq [seq (res_train_id it, res_mileage it) | it <- res]
                       [seq (row_train_id r, mileage_of str_to_float r)
                       | r <- rows]
      else rank_endpoint str_to_float rows w = None].
Proof.
split=> //; case: ifP => [ok|/negbT no]; first exact: reported_fields.
by rewrite /rank_endpoint rank_trace_fails.
Qed.

(** One row whose mileage is the text "n/a": the whole request fails, the
    second row is not ranked either. *)
Lemma C8_counterexample :
  Decimal.decimal_float "n/a" = None
  /\ rank_endpoint Decimal.decimal_float c8_rows no_weights = None.
Proof. by split; vm_compute. Qed.

(** C9 (as the code has it). The CSV reader rejects a record without the
    column "train_id" with the error that names the column; the endpoint
    does not check the identifier: it returns one result per row, carrying
    the identifier of the row as it is, missing or not. *)
Theorem C9_identifier_checked_by_csv_reader_only
    (str_to_int : string -> option int) (str_to_float : string -> option rat)
    (row : csv_row) (rest : seq csv_row) (rows : seq Row) (w : Weights) :
  row "train_id" = None -> all (convertible str_to_float) rows ->
  read_csv str_to_int str_to_float (row :: rest)
    = inl (MissingColumn "train_id")
  /\ exists2 res, rank_endpoint str_to_float rows w = Some res
       & perm_eq [seq res_train_id it | it <- res]
                 [seq row_train_id r | r <- rows].
Proof.
move=> no ok; split; first by rewrite /= /read_row /col no.
case: (reported_fields w ok) => res E P; exists res => //.
have -> : [seq res_train_id it | it <- res]
          = [seq p.1 | p <- [seq (res_train_id it, res_mileage it) | it <- res]].
  by rewrite -map_comp.
have -> : [seq row_train_id r | r <- rows]
          = [seq p.1 | p <- [seq (row_train_id r, mileage_of str_to_float r)
                            | r <- rows]].
  by rewrite -map_comp.
exact: perm_map.
Qed.

Lemma C9_identifier_checked_by_csv_reader_only_witness :
  read_csv Decimal.decimal_int Decimal.decimal_float [:: c9_csv_row]
    = inl (MissingColumn "train_id")
  /\ exists2 res,
       rank_endpoint Decimal.decimal_float c9_rows no_weights = Some res
       & perm_eq [seq res_train_id it | it <- res]
                 [seq row_train_id r | r <- c9_rows].
Proof.
apply: (@C9_identifier_checked_by_csv_reader_only
          Decimal.decimal_int Decimal.decimal_float c9_csv_row [::]
          c9_rows no_weights).
- reflexivity.
- vm_compute; reflexivity.
Defined.

(** A row without "train_id" is ranked and reported with no identifier. *)
Lemma C9_counterexample :
  omap (map (fun it => (res_train_id it, res_pareto_rank it)))
       (rank_endpoint Decimal.decimal_float c9_rows no_weights)
  = Some [:: (None, 1%N)].
Proof. by vm_compute. Qed.

(** C5 (the code at the failing input). Four feasible candidates: T0 and T1
    form front 1, T2 (dominated by T1 only) and T3 (dominated by T0 only)
    form front 2 with the same crowding distance, infinity.  The endpoint
    lists T3 before T2, against their order in the input. *)
Theorem C5_ties_follow_front_construction :
  obind (fun p => nsga_order p.1.2 p.2)
        (rank_inputs Decimal.decimal_float c5_rows no_weights)
  = Some [:: (0%N, NInf, 1%N); (1%N, NInf, 1%N);
             (3%N, NInf, 2%N); (2%N, NInf, 2%N)]
  /\ omap (map (fun it => (res_train_id it, res_pareto_rank it)))
          (rank_endpoint Decimal.decimal_float c5_rows no_weights)
     = Some [:: (Some "T0", 1%N); (Some "T1", 1%N);
                (Some "T3", 2%N); (Some "T2", 2%N)].
Proof. by split; vm_compute. Qed.

End Ingestion.

(* ------------------------------------------------------------------ *)
(** ** Boundary members and degenerate columns *)

Section Boundaries.

Local Open Scope ring_scope.

Lemma single_candidate_order (v : seq rat) (p : rat) :
  (0 < size v)%N -> nsga_order [:: v] [:: p] = Some [:: (0%N, NInf, 1%N)].
Proof.
move=> sv.
have cd0 : dict_get (_crowding_distance [:: 0%N] [:: v]) 0 = PInf.
  have [] := @crowding_distance_ends [:: v] [:: 0%N] 0 isT sv.
  by [].
move: cd0; rewrite /_crowding_distance /= => cd0.
rewrite /nsga_order /nsga_fronts /feas_idx /infeas_idx /=.
by case: (lerP p 0) => _ /=; rewrite cd0.
Qed.

(** C6 (as the code has it). In a non-empty front and for each dimension
    [k] of the objective vectors, the first and the last member of the
    front sorted by that dimension are members that hold the minimum and
    the maximum of the dimension, and both get crowding distance infinity.
    A member that alone holds the minimum or the maximum therefore gets
    infinity; among several holders only the first (for the minimum) and
    the last (for the maximum) in the sorted order are marked by this
    dimension.  A single candidate gets rank 1 and distance infinity (the
    order keeps the negated distance). *)
Theorem C6_boundary_members_infinite (pop : seq (seq rat)) (f : seq nat)
    (k : nat) :
  f != [::] -> (k < size (vec pop 0))%N ->
  let lo := head 0%N (sort_by_dim pop k f) in
  let hi := last 0%N (sort_by_dim pop k f) in
  let d := _crowding_distance f pop in
  [/\ lo \in f /\ hi \in f,
      forall j, j \in f -> val pop lo k <= val pop j k <= val pop hi k,
      dict_get d lo = PInf /\ dict_get d hi = PInf,
      forall i, i \in f ->
        (forall j, j \in f -> j != i -> val pop i k < val pop j k) ->
        dict_get d i = PInf
    & forall i, i \in f ->
        (forall j, j \in f -> j != i -> val pop j k < val pop i k) ->
        dict_get d i = PInf]
  /\ (forall v p, (0 < size v)%N ->
        nsga_order [:: v] [:: p] = Some [:: (0%N, NInf, 1%N)]).
Proof.
move=> fn km lo hi d; split; last exact: single_candidate_order.
have [dlo dhi] := crowding_distance_ends fn km.
have lof : lo \in f by apply: head_sort_by_dim_mem.
have hif : hi \in f by apply: last_sort_by_dim_mem.
split=> //.
- by move=> j jf; rewrite sort_by_dim_head // sort_by_dim_last.
- move=> i fi H; case: (eqVneq lo i) => [<- //|ne].
  have := H _ lof ne; rewrite ltNge.
  by rewrite (sort_by_dim_head pop k fi).
- move=> i fi H; case: (eqVneq hi i) => [<- //|ne].
  have := H _ hif ne; rewrite ltNge.
  by rewrite (sort_by_dim_last pop k fi).
Qed.

Lemma C6_boundary_members_infinite_witness :
  let lo := head 0%N (sort_by_dim c6_pop 1 [:: 0; 1; 2]%N) in
  let hi := last 0%N (sort_by_dim c6_pop 1 [:: 0; 1; 2]%N) in
  let d := _crowding_distance [:: 0; 1; 2]%N c6_pop in
  [/\ lo \in [:: 0; 1; 2]%N /\ hi \in [:: 0; 1; 2]%N,
      forall j, j \in [:: 0; 1; 2]%N ->
        val c6_pop lo 1 <= val c6_pop j 1 <= val c6_pop hi 1,
      dict_get d lo = PInf /\ dict_get d hi = PInf,
      forall i, i \in [:: 0; 1; 2]%N ->
        (forall j, j \in [:: 0; 1; 2]%N -> j != i ->
           val c6_pop i 1 < val c6_pop j 1) ->
        dict_get d i = PInf
    & forall i, i \in [:: 0; 1; 2]%N ->
        (forall j, j \in [:: 0; 1; 2]%N -> j != i ->
           val c6_pop j 1 < val c6_pop i 1) ->
        dict_get d i = PInf]
  /\ (forall v p, (0 < size v)%N ->
        nsga_order [:: v] [:: p] = Some [:: (0%N, NInf, 1%N)]).
Proof.
apply: (@C6_boundary_members_infinite c6_pop [:: 0; 1; 2]%N 1).
- reflexivity.
- reflexivity.
Defined.

(** Three candidates with the same objectives: all of them hold the
    minimum and the maximum of every dimension, and they form one front;
    the second one is left with crowding distance 0. *)
Lemma C6_counterexample :
  [&& _non_dominated_sort c6_same == Some [:: [:: 0; 1; 2]%N],
      all (fun k => all (fun j => val c6_same 1 k == val c6_same j k)
                        [:: 0; 1; 2]%N) (iota 0 6)
    & dict_get (_crowding_distance [:: 0; 1; 2]%N c6_same) 1 == Fin 0].
Proof. by vm_compute. Qed.

Lemma foldl_min_const (v : rat) (vs : seq rat) :
  all (fun x => x == v) vs -> foldl Num.min v vs = v.
Proof. by elim: vs => //= x vs IH /andP [/eqP -> /IH]; rewrite minxx. Qed.

Lemma foldl_max_const (v : rat) (vs : seq rat) :
  all (fun x => x == v) vs -> foldl Num.max v vs = v.
Proof. by elim: vs => //= x vs IH /andP [/eqP -> /IH]; rewrite maxxx. Qed.

Lemma nth_zeros (A : Type) (s : seq A) (i : nat) :
  nth (0 : rat) [seq 0 | _ <- s] i = 0.
Proof. by elim: s i => [|x s IH] [|i] //=. Qed.

(** [_norm] of a column with one value is the zero column. *)
Lemma norm_const (v : rat) (vals : seq rat) (i : nat) :
  all (fun x => x == v) vals -> nth 0 (_norm vals) i = 0.
Proof.
case: vals => [|x vs] /=; first by rewrite nth_nil.
move=> /andP [/eqP -> cv].
by rewrite foldl_min_const // foldl_max_const // subrr eqxx -/(map _ (v :: vs)) nth_zeros.
Qed.

Lemma foldl_minn_const (m : nat) (ns : seq nat) :
  all (fun x => x == m) ns -> foldl minn m ns = m.
Proof. by elim: ns => //= x ns IH /andP [/eqP -> /IH]; rewrite minnn. Qed.

Lemma zip_star_uniform (m : nat) (objs : seq (seq rat)) :
  uniform m objs -> objs != [::] ->
  zip_star objs = [seq [seq nth 0 row k | row <- objs] | k <- iota 0 m].
Proof.
case: objs => [|r rs] //= /andP [/eqP -> um] _.
by rewrite foldl_minn_const // all_map.
Qed.

(** An entry of the weighted population: the normalised entry of its
    column times the weight of the column. *)
Lemma weighted_entry (objs : seq (seq rat)) (w : Weights) (i k : nat) :
  uniform 6 objs -> (i < size objs)%N -> (k < 6)%N ->
  exists wk, val (apply_weights objs w) i k
             = nth 0 (_norm [seq nth 0 row k | row <- objs]) i * wk.
Proof.
move=> um io k6.
have ne : objs != [::] by case: objs io {um}.
rewrite /val /vec /apply_weights (nth_map 0%N) ?size_iota // nth_iota //.
rewrite add0n (zip_star_uniform um ne) !size_map size_iota.
by case: k k6 => [|[|[|[|[|[|k]]]]]] //= _; eexists.
Qed.

(** C7 (as the code has it). On a dimension where all candidates share
    one value, every normalised and weighted value is 0, nothing is
    divided, and the turn of the crowding loop for that dimension adds no
    finite amount to any distance; it still sets the distance of the first
    and of the last member of the front to infinity and leaves every other
    member as it was. *)
Theorem C7_degenerate_column (objs : seq (seq rat)) (w : Weights)
    (k : nat) (v : rat) (f : seq nat) (d : dict) :
  uniform 6 objs -> (k < 6)%N ->
  (forall i, (i < size objs)%N -> val objs i k = v) ->
  [/\ forall i, val (apply_weights objs w) i k = 0,
      cd_dim (apply_weights objs w) f d k
      = dict_set (dict_set d (head 0%N f) PInf) (last 0%N f) PInf
    & forall i, i != head 0%N f -> i != last 0%N f ->
        cd_dim (apply_weights objs w) f d k i = d i].
Proof.
move=> um k6 cv.
have z i : val (apply_weights objs w) i k = 0.
  case: (ltnP i (size objs)) => io; last first.
    have so := (apply_weights_shape objs w).1.
    rewrite /val /vec.
    have -> : nth [::] (apply_weights objs w) i = [::] by rewrite nth_default ?so.
    by rewrite nth_nil.
  case: (weighted_entry w um io k6) => wk ->.
  rewrite (@norm_const v) ?mul0r //; apply/(all_nthP 0) => j.
  by rewrite size_map => jo; rewrite (nth_map [::]) // -/(vec objs j) -/(val objs j k) cv.
have E : cd_dim (apply_weights objs w) f d k
         = dict_set (dict_set d (head 0%N f) PInf) (last 0%N f) PInf.
  by rewrite /cd_dim (sort_by_dim_const _ z) nth0 nth_last !z subrr eqxx.
split=> // i /negbTE n1 /negbTE n2.
by rewrite E /dict_set n1 n2.
Qed.

Lemma C7_degenerate_column_witness :
  [/\ forall i, val (apply_weights c7_raw no_weights) i 0 = 0,
      cd_dim (apply_weights c7_raw no_weights) [:: 0; 1; 2]%N c7_dist0 0
      = dict_set (dict_set c7_dist0 (head 0%N [:: 0; 1; 2]%N) PInf)
                 (last 0%N [:: 0; 1; 2]%N) PInf
    & forall i, i != head 0%N [:: 0; 1; 2]%N -> i != last 0%N [:: 0; 1; 2]%N ->
        cd_dim (apply_weights c7_raw no_weights) [:: 0; 1; 2]%N c7_dist0 0 i
        = c7_dist0 i].
Proof.
apply: (@C7_degenerate_column c7_raw no_weights 0 0 [:: 0; 1; 2]%N c7_dist0).
- vm_compute; reflexivity.
- reflexivity.
- by do 3 (case=> [|] //).
Defined.

(** Three feasible candidates that differ in job cards and branding only;
    the fitness column is degenerate.  The turn of the crowding loop for
    that column moves the first candidate from distance 0 to infinity, and
    infinity is its final distance, although it is interior on both
    informative dimensions. *)
Lemma C7_counterexample :
  let wobjs := apply_weights c7_raw no_weights in
  [&& all (fun i => val wobjs i 0 == 0) [:: 0; 1; 2]%N,
      nsga_fronts wobjs [:: 0; 0; 0] == Some [:: [:: 0; 1; 2]%N],
      dict_get c7_dist0 0 == Fin 0,
      dict_get (cd_dim wobjs [:: 0; 1; 2]%N c7_dist0 0) 0 == PInf,
      dict_get (foldl (cd_dim wobjs [:: 0; 1; 2]%N) c7_dist0 [:: 1; 2]%N) 0
        == Fin 2%:R
    & dict_get (_crowding_distance [:: 0; 1; 2]%N wobjs) 0 == PInf].
Proof. by vm_compute. Qed.

End Boundaries.

(* ------------------------------------------------------------------ *)
(** ** Order of the output and ties *)

Section Ties.

Local Open Scope ring_scope.

Lemma xle_total : total xle.
Proof. by case=> [|x|] [|y|] //=; apply: le_total. Qed.

Lemma xle_trans : transitive xle.
Proof. by case=> [|y|] [|x|] [|z|] //=; apply: le_trans. Qed.

Lemma key_le_total : total key_le.
Proof.
move=> [[i c] r] [[j d] s]; rewrite /key_le /= [s == r]eq_sym.
case: (ltngtP r s) => //= _; exact: xle_total.
Qed.

Lemma key_le_trans : transitive key_le.
Proof.
move=> [[j d] s] [[i c] r] [[k e] t]; rewrite /key_le /=.
case: (ltngtP r s) => //= rs; case: (ltngtP s t) => //= st.
- by rewrite (ltn_trans rs st).
- by rewrite -st rs.
- by rewrite rs st.
- by rewrite rs st ltnn eqxx /=; apply: xle_trans.
Qed.

(** The output of [nsga_order] ascends in rank and, inside a rank,
    descends in crowding distance; candidates with the same rank and
    distance keep the order in which the fronts list them. *)
Lemma nsga_order_sorted_stable (objs : seq (seq rat)) (pens : seq rat)
    (out : seq (nat * xrat * nat)) :
  nsga_order objs pens = Some out ->
  sorted key_le out
  /\ exists2 fronts, nsga_fronts objs pens = Some fronts
       & forall t u, key_le t u -> mem2 (build_order objs 1 fronts) t u ->
                     mem2 out t u.
Proof.
rewrite /nsga_order; case: (nsga_fronts objs pens) => // fronts [<-].
split; first exact: (sort_sorted key_le_total).
by exists fronts => // t u; apply: mem2_sort key_le_total key_le_trans _ _ _.
Qed.

Lemma rank_le_total : total rank_le.
Proof. by case=> [m|] [n|] //=; apply: leq_total. Qed.

Lemma rank_le_trans : transitive rank_le.
Proof. by case=> [m|] [n|] [k|] //=; apply: leq_trans. Qed.

Lemma cli_key_le_total : total cli_key_le.
Proof.
move=> [a c] [b d]; rewrite /cli_key_le /=.
have := rank_le_total a b; have := xle_total c d.
by case: (rank_le a b); case: (rank_le b a); case: (xle c d); case: (xle d c).
Qed.

Lemma cli_key_le_trans : transitive cli_key_le.
Proof.
move=> [b d] [a c] [e f]; rewrite /cli_key_le /=.
have := @rank_le_trans b a e; have := @rank_le_trans a e b.
have := @rank_le_trans e b a; have := @rank_le_trans b e a.
have := @rank_le_trans a b e; have := @rank_le_trans e a b.
have := @xle_trans d c f.
case: (rank_le a b); case: (rank_le b a); case: (rank_le b e);
case: (rank_le e b); case: (rank_le a e); case: (rank_le e a);
case: (xle c d); case: (xle d f); case: (xle c f) => //=;
by move=> h1 h2 h3 h4 h5 h6 h7;
   do ?[by have := h1 isT isT | by have := h2 isT isT | by have := h3 isT isT
       | by have := h4 isT isT | by have := h5 isT isT | by have := h6 isT isT
       | by have := h7 isT isT].
Qed.

Lemma mem2_iota (n i j : nat) : (i <= j)%N -> (j < n)%N -> mem2 (iota 0 n) i j.
Proof.
move=> ij jn; have in_ : (i < n)%N by apply: leq_ltn_trans jn.
have e : nth 0%N (iota 0 n) i = i by rewrite nth_iota.
rewrite /mem2 -{1}e index_uniq ?size_iota ?iota_uniq // drop_iota add0n.
by rewrite mem_iota ij subnKC // ltnW.
Qed.

(** The CSV entry point sorts the population itself: two candidates with
    keys in order keep their input order, so candidates with equal rank
    and equal crowding distance come out in input order. *)
Lemma nsga_rank_keeps_input_order (pop : seq (seq rat)) :
  exists fronts out,
    [/\ non_dominated_sort pop = Some fronts,
        nsga_rank pop = Some out,
        perm_eq out (iota 0 (size pop))
      & forall i j, (i <= j)%N -> (j < size pop)%N ->
          let store :=
            foldl (fun d f => crowding_distance pop f d) dict_empty fronts in
          cli_key fronts store i = cli_key fronts store j ->
          mem2 out i j].
Proof.
have [fs E] : exists fs, non_dominated_sort pop = Some fs.
  rewrite /non_dominated_sort; case: [seq _ <- _ | _] (Inv_init pop) => [|c l] I.
    by exists [:: [::]].
  by case: (peelP I (leqnn _)) => fs [-> _ _]; exists fs.
pose store := foldl (fun d f => crowding_distance pop f d) dict_empty fs.
pose leT := fun i j => cli_key_le (cli_key fs store i) (cli_key fs store j).
have tot : total leT by move=> a b; apply: cli_key_le_total.
have tr : transitive leT by move=> b a c; apply: cli_key_le_trans.
exists fs, (sort leT (iota 0 (size pop))); split=> //.
- by rewrite /nsga_rank E.
- by rewrite perm_sort.
- move=> i j ij jn /= ek; apply: (mem2_sort tot tr) (mem2_iota ij jn).
  rewrite /leT -/store ek /cli_key_le; case: (cli_key fs store j) => a c /=.
  have := rank_le_total a a; have := xle_total c c.
  by case: (rank_le a a); case: (xle c c).
Qed.

End Ties.

(* ------------------------------------------------------------------ *)
(** ** Further properties of the front builder and of the order *)

Section FrontBuilderMore.

Local Open Scope ring_scope.

Lemma peel_nonempty (fuel : nat) (S : seq (seq nat)) (nd : seq int)
    (cur : seq nat) (fs : seq (seq nat)) :
  peel fuel S nd cur = Some fs -> [::] \notin fs.
Proof.
elim: fuel nd cur fs => [|fuel IH] nd [|c cur] fs //=; try by case=> <-.
case: (sweep S nd (c :: cur)) => nd' nx.
by case E: (peel fuel S nd' nx) => [fs'|] //= [<-]; rewrite in_cons /= (IH _ _ _ E).
Qed.

Lemma size_flatten_nonempty (fs : seq (seq nat)) :
  [::] \notin fs -> (size fs <= size (flatten fs))%N.
Proof.
elim: fs => [|f fs IH] //=; rewrite in_cons negb_or => /andP [fn /IH le].
rewrite size_cat; case: f fn => [|x f] // _.
by rewrite /= addSn ltnS (leq_trans le) // leq_addl.
Qed.

(** X1. For every population, whatever the lengths of its vectors, the
    front builder stops within as many turns as there are candidates and
    returns fronts that are never empty, hold indices of the population
    only and hold no index twice; there are at most as many fronts as
    candidates. *)
Theorem X1_front_builder_returns (pop : seq (seq rat)) :
  exists fs,
    [/\ _non_dominated_sort pop = Some fs,
        [::] \notin fs,
        uniq (flatten fs),
        all (fun i => (i < size pop)%N) (flatten fs)
      & (size fs <= size pop)%N].
Proof.
case: (non_dominated_sortP pop) => fs E [Hu Hb _ _ _].
have ne : [::] \notin fs by apply: peel_nonempty E.
exists fs; split=> //.
apply: leq_trans (size_flatten_nonempty ne) _.
exact: uniq_bounded_size.
Qed.

(** X2. The first front is the Pareto set of the population: the
    candidates that no candidate dominates, in input order. *)
Theorem X2_first_front_is_pareto_set (pop : seq (seq rat)) :
  exists2 fs, _non_dominated_sort pop = Some fs
    & head [::] fs
      = [seq i <- iota 0 (size pop)
        | ~~ has (fun q => _dominates (vec pop q) (vec pop i))
                 (iota 0 (size pop))].
Proof.
case: (@peelP pop (size pop) [::] _ _ (Inv_init pop) (leqnn _)) => fs [E H _].
exists fs => //; rewrite H; apply: eq_in_filter => i.
rewrite mem_iota add0n /= => io.
by rewrite nth_build_n_dom // eqz_nat -leqn0 leqNgt -has_count.
Qed.

Lemma nsga_fronts_total (objs : seq (seq rat)) (pens : seq rat) :
  exists fronts, nsga_fronts objs pens = Some fronts.
Proof.
rewrite /nsga_fronts.
case: (non_dominated_sort_total [seq vec objs i | i <- feas_idx pens]) => a ->.
case: (non_dominated_sort_total [seq vec objs i | i <- infeas_idx pens]) => b ->.
by case: (feas_idx pens); case: (infeas_idx pens) => /=; eexists.
Qed.


(** X4. In a front of one or two members every member gets crowding
    distance infinity, as soon as the vectors have a first dimension. *)
Theorem X4_small_front_all_infinite (pop : seq (seq rat)) (f : seq nat)
    (i : nat) :
  (0 < size (vec pop 0))%N -> (0 < size f <= 2)%N -> i \in f ->
  dict_get (_crowding_distance f pop) i = PInf.
Proof.
move=> m0 /andP [f0 f2]; rewrite -(mem_sort_by_dim pop 0).
have fn : f != [::] by case: f f0 {f2}.
have [] := crowding_distance_ends fn m0.
have : (size (sort_by_dim pop 0 f) <= 2)%N by rewrite size_sort.
case: (sort_by_dim pop 0 f) => [|a [|b [|c s]]] //= _ ha hb.
  by rewrite inE => /eqP ->.
by rewrite !inE => /orP [] /eqP ->.
Qed.

Lemma X4_small_front_all_infinite_witness :
  dict_get (_crowding_distance [:: 1; 0]%N c4_objs) 1 = PInf.
Proof.
apply: (@X4_small_front_all_infinite c4_objs [:: 1; 0]%N 1).
- reflexivity.
- reflexivity.
- reflexivity.
Defined.

(** X5. Dominance is a strict order on vectors of one length: a vector
    that dominates another is not dominated by it, no vector dominates
    itself, and dominance is transitive. *)
Theorem X5_dominance_strict_order (a b c : seq rat) :
  size a = size b -> size b = size c ->
  _dominates a b -> _dominates b c ->
  [/\ _dominates a c, _dominates b a = false & _dominates a a = false].
Proof.
move=> sab sbc ab bc; split.
- exact: dominates_trans ab bc.
- exact: dominates_asym.
- exact: dominates_irrefl.
Qed.

Lemma X5_dominance_strict_order_witness :
  [/\ _dominates [:: 0; 0] [:: 1; 1], _dominates [:: 0; 1] [:: 0; 0] = false
    & _dominates [:: 0; 0] [:: 0; 0] = false].
Proof.
apply: (@X5_dominance_strict_order [:: 0; 0] [:: 0; 1] [:: 1; 1]).
- reflexivity.
- reflexivity.
- vm_compute; reflexivity.
- vm_compute; reflexivity.
Defined.

End FrontBuilderMore.

(* ------------------------------------------------------------------ *)
(** ** The rules of the mapper, from the texts of the row *)

Section MapperRules.

Local Open Scope ring_scope.
Local Open Scope string_scope.

Variable str_to_float : string -> option rat.

Lemma map_row_components (row : Row) (avg : rat)
    (objs : seq rat) (ex : Extras) (pen : rat) (al : Alerts) :
  map_row_to_objectives str_to_float row avg = Some (objs, ex, pen, al) ->
  exists mil,
    [/\ float_or_zero str_to_float (row_mileage row) = Some mil,
        objs = [:: fitness_objective row; jobs_objective row;
                   branding_objective row; `|mil - avg|;
                   cleaning_objective row; geometry_objective row],
        ex = extras_of row mil,
        pen = penalty_of row
      & al = alerts_of row].
Proof.
rewrite map_row_to_objectivesE; case: (float_or_zero _ _) => // mil.
by move=> [<- <- <- <-]; exists mil.
Qed.

(** X6. The certificate rule of the mapper, through both of its matching
    steps: a text containing "valid" gives the status "Valid" and costs
    nothing; otherwise a text containing "expired", "invalid" or "revoked"
    gives "Expired", the objective 1, the penalty 10 and the alert; every
    other text (an empty or a missing one too) gives "Conditional" and is
    treated as feasible: objective 0, penalty 0, no alert. *)
Theorem X6_certificate_rule (row : Row) (avg : rat)
    (objs : seq rat) (ex : Extras) (pen : rat) (al : Alerts) :
  map_row_to_objectives str_to_float row avg = Some (objs, ex, pen, al) ->
  (nth 0 objs 0, ex_fitness ex, pen, al_fitness_invalid al)
  = (if py_in "valid" (_norm_text (row_fitness row))
     then (0, "Valid", 0, false)
     else if any_in [:: "expired"; "invalid"; "revoked"]
                    (_norm_text (row_fitness row))
          then (1, "Expired", 10%:R, true)
     else (0, "Conditional", 0, false)).
Proof.
move=> /map_row_components [mil [_ -> -> -> ->]].
rewrite [nth _ _ _]/= /penalty_of /alerts_of /extras_of /fitness_objective.
rewrite /_normalize_statuses; cbv zeta.
case: (py_in "valid" (_norm_text (row_fitness row)));
case: (any_in [:: "expired"; "invalid"; "revoked"]
              (_norm_text (row_fitness row)));
by vm_compute.
Qed.

(** X7. The job-card rule: a text containing "critical", "major" or
    "open" gives the status "Open", the objective 1 and the alert; otherwise
    a text containing "minor" or "pending" gives "Minor" and 1/2; every
    other text gives "Closed" and 0.  The alert is raised for "Open"
    only. *)
Theorem X7_job_card_rule (row : Row) (avg : rat)
    (objs : seq rat) (ex : Extras) (pen : rat) (al : Alerts) :
  map_row_to_objectives str_to_float row avg = Some (objs, ex, pen, al) ->
  (nth 0 objs 1, ex_job_card_status ex, al_job_open al)
  = (if any_in [:: "critical"; "major"; "open"]
               (_norm_text (row_job_cards row))
     then (1, "Open", true)
     else if any_in [:: "minor"; "pending"] (_norm_text (row_job_cards row))
          then (1 / 2, "Minor", false)
     else (0, "Closed", false)).
Proof.
move=> /map_row_components [mil [_ -> -> _ ->]].
rewrite [nth _ _ _]/= /alerts_of /extras_of /jobs_objective.
rewrite /_normalize_statuses; cbv zeta.
case: (any_in [:: "critical"; "major"; "open"]
              (_norm_text (row_job_cards row)));
case: (any_in [:: "minor"; "pending"] (_norm_text (row_job_cards row)));
by vm_compute.
Qed.

(** X8. The branding rule compares the whole text, not a part of it:
    exactly "high" gives "High" and 1, exactly "medium" gives "Medium" and
    1/2, every other text gives "Low" and 0. *)
Theorem X8_branding_rule (row : Row) (avg : rat)
    (objs : seq rat) (ex : Extras) (pen : rat) (al : Alerts) :
  map_row_to_objectives str_to_float row avg = Some (objs, ex, pen, al) ->
  (nth 0 objs 2, ex_branding_priority ex)
  = (if _norm_text (row_branding row) == "high" then (1, "High")
     else if _norm_text (row_branding row) == "medium" then (1 / 2, "Medium")
     else (0, "Low")).
Proof.
move=> /map_row_components [mil [_ -> -> _ _]].
rewrite [nth _ _ _]/= /extras_of /branding_objective.
rewrite /_normalize_statuses; cbv zeta.
case: (_norm_text (row_branding row) == "high");
case: (_norm_text (row_branding row) == "medium");
by vm_compute.
Qed.

(** X9. The cleaning rule: a text containing "complete" or "clean" gives
    "Complete" and 0; otherwise a text containing "partial" or "inprogress"
    gives "Partial", 1/2 and the alert for partial cleaning; every other
    text gives "Pending", 1 and the alert for pending cleaning.  At most one
    of the two alerts is raised. *)
Theorem X9_cleaning_rule (row : Row) (avg : rat)
    (objs : seq rat) (ex : Extras) (pen : rat) (al : Alerts) :
  map_row_to_objectives str_to_float row avg = Some (objs, ex, pen, al) ->
  (nth 0 objs 4, ex_cleaning_status ex,
   al_cleaning_pending al, al_cleaning_partial al)
  = (if any_in [:: "complete"; "clean"] (_norm_text (row_cleaning row))
     then (0, "Complete", false, false)
     else if any_in [:: "partial"; "inprogress"]
                    (_norm_text (row_cleaning row))
          then (1 / 2, "Partial", false, true)
     else (1, "Pending", true, false)).
Proof.
move=> /map_row_components [mil [_ -> -> _ ->]].
rewrite [nth _ _ _]/= /alerts_of /extras_of /cleaning_objective.
rewrite /_normalize_statuses; cbv zeta.
case: (any_in [:: "complete"; "clean"] (_norm_text (row_cleaning row)));
case: (any_in [:: "partial"; "inprogress"] (_norm_text (row_cleaning row)));
by vm_compute.
Qed.

(** X10. Every objective vector of the mapper has six entries, none of
    them negative; all but the mileage deviation are at most 1; and the
    penalty is 10 times the first entry. *)
Theorem X10_objective_ranges (row : Row) (avg : rat)
    (objs : seq rat) (ex : Extras) (pen : rat) (al : Alerts) :
  map_row_to_objectives str_to_float row avg = Some (objs, ex, pen, al) ->
  [/\ size objs = 6%N,
      all (fun x => 0 <= x) objs,
      forall k, k != 3%N -> nth 0 objs k <= 1
    & pen = 10%:R * nth 0 objs 0].
Proof.
move=> /map_row_components [mil [_ -> _ -> _]].
have f01 : fitness_objective row = 0 \/ fitness_objective row = 1.
  by rewrite /fitness_objective; case: ifP; [right | left].
have j01 : 0 <= jobs_objective row <= 1.
  by rewrite /jobs_objective; case: ifP => _; [|case: ifP => _]; vm_compute.
have b01 : 0 <= branding_objective row <= 1.
  by rewrite /branding_objective; case: ifP => _; [|case: ifP => _];
     vm_compute.
have c01 : 0 <= cleaning_objective row <= 1.
  by rewrite /cleaning_objective; case: ifP => _; [|case: ifP => _];
     vm_compute.
have g01 : 0 <= geometry_objective row <= 1.
  by rewrite /geometry_objective; case: ifP => _; vm_compute.
case/andP: j01 => j0 j1; case/andP: b01 => b0 b1.
case/andP: c01 => c0 c1; case/andP: g01 => g0 g1.
split=> //.
- rewrite /all j0 b0 c0 g0 normr_ge0 !andbT.
  by case: f01 => ->.
- case=> [|[|[|[|[|[|k]]]]]] // _;
    rewrite [nth _ _ _]/= ?j1 ?b1 ?c1 ?g1 ?nth_nil ?ler01 //.
  by case: f01 => ->.
- rewrite /penalty_of [nth _ _ _]/=.
  by case: f01 => ->; rewrite ?ltxx ?ltr01 ?mulr0 ?mulr1.
Qed.

End MapperRules.

Section MapperRuleExamples.

Local Open Scope ring_scope.
Local Open Scope string_scope.

Lemma X6_certificate_rule_witness :
  (nth 0 c2_mapped.1.1.1 0, ex_fitness c2_mapped.1.1.2, c2_mapped.1.2,
   al_fitness_invalid c2_mapped.2)
  = (if py_in "valid" (_norm_text (row_fitness c2_row))
     then (0, "Valid", 0, false)
     else if any_in [:: "expired"; "invalid"; "revoked"]
                    (_norm_text (row_fitness c2_row))
          then (1, "Expired", 10%:R, true)
     else (0, "Conditional", 0, false)).
Proof.
apply: (@X6_certificate_rule (fun _ => None) c2_row 0).
vm_compute; reflexivity.
Defined.


Lemma X7_job_card_rule_witness :
  (nth 0 x_mapped.1.1.1 1, ex_job_card_status x_mapped.1.1.2,
   al_job_open x_mapped.2)
  = (if any_in [:: "critical"; "major"; "open"]
               (_norm_text (row_job_cards x_row))
     then (1, "Open", true)
     else if any_in [:: "minor"; "pending"] (_norm_text (row_job_cards x_row))
          then (1 / 2, "Minor", false)
     else (0, "Closed", false)).
Proof.
apply: (@X7_job_card_rule (fun _ => None) x_row 1 _ _ x_mapped.1.2).
vm_compute; reflexivity.
Defined.

Lemma X8_branding_rule_witness :
  (nth 0 x_mapped.1.1.1 2, ex_branding_priority x_mapped.1.1.2)
  = (if _norm_text (row_branding x_row) == "high" then (1, "High")
     else if _norm_text (row_branding x_row) == "medium"
          then (1 / 2, "Medium")
     else (0, "Low")).
Proof.
apply: (@X8_branding_rule (fun _ => None) x_row 1 _ _ x_mapped.1.2 x_mapped.2).
vm_compute; reflexivity.
Defined.

Lemma X9_cleaning_rule_witness :
  (nth 0 x_mapped.1.1.1 4, ex_cleaning_status x_mapped.1.1.2,
   al_cleaning_pending x_mapped.2, al_cleaning_partial x_mapped.2)
  = (if any_in [:: "complete"; "clean"] (_norm_text (row_cleaning x_row))
     then (0, "Complete", false, false)
     else if any_in [:: "partial"; "inprogress"]
                    (_norm_text (row_cleaning x_row))
          then (1 / 2, "Partial", false, true)
     else (1, "Pending", true, false)).
Proof.
apply: (@X9_cleaning_rule (fun _ => None) x_row 1 _ _ x_mapped.1.2).
vm_compute; reflexivity.
Defined.

Lemma X10_objective_ranges_witness :
  [/\ size x_mapped.1.1.1 = 6%N,
      all (fun x => 0 <= x) x_mapped.1.1.1,
      forall k, k != 3%N -> nth 0 x_mapped.1.1.1 k <= 1
    & x_mapped.1.2 = 10%:R * nth 0 x_mapped.1.1.1 0].
Proof.
apply: (@X10_objective_ranges (fun _ => None) x_row 1 _ x_mapped.1.1.2 _
          x_mapped.2).
vm_compute; reflexivity.
Defined.

End MapperRuleExamples.

(* ------------------------------------------------------------------ *)
(** ** The response of the endpoint *)

Section ConflictMessages.

Local Open Scope ring_scope.
Local Open Scope string_scope.

(** Each message of [detect_conflicts] is in the list exactly when its own
    test succeeds. *)
Lemma detect_conflictsP (item : ConflictItem) :
  let cs := detect_conflicts item in
  [/\ (msg_fitness \in cs)
      = any_in [:: "expired"; "invalid"; "revoked"]
               (_norm_text (ci_fitness_certificate_status item)),
      (msg_telecom \in cs)
      = (_norm_text (ci_telecom_clearance item) \in [:: "missing"; "expired"]),
      (msg_jobs \in cs)
      = any_in [:: "open"; "major"; "critical"]
               (_norm_text (ci_job_card_status item)),
      (msg_cleaning \in cs)
      = (_norm_text (ci_cleaning_status item) \notin [:: "complete"; "clean"])
    & (msg_stabling \in cs) = (odflt "" (ci_stabling_position item) == "")].
Proof.
rewrite /detect_conflicts; cbv zeta.
case: (any_in [:: "expired"; "invalid"; "revoked"] _);
case: (_ \in [:: "missing"; "expired"]);
case: (any_in [:: "open"; "major"; "critical"] _);
case: (_ \notin [:: "complete"; "clean"]);
case: (_ == "");
by split; vm_compute.
Qed.

Lemma st_fitness_cases (r : Row) :
  [\/ st_fitness (_normalize_statuses r) = "Valid",
      st_fitness (_normalize_statuses r) = "Expired"
    | st_fitness (_normalize_statuses r) = "Conditional"].
Proof.
rewrite /_normalize_statuses; cbv zeta; rewrite [st_fitness _]/=.
by case: ifP => _; [constructor 1 | case: ifP => _; [constructor 2 | constructor 3]].
Qed.

Lemma st_job_cards_cases (r : Row) :
  [\/ st_job_cards (_normalize_statuses r) = "Open",
      st_job_cards (_normalize_statuses r) = "Minor"
    | st_job_cards (_normalize_statuses r) = "Closed"].
Proof.
rewrite /_normalize_statuses; cbv zeta; rewrite [st_job_cards _]/=.
by case: ifP => _; [constructor 1 | case: ifP => _; [constructor 2 | constructor 3]].
Qed.

Lemma st_cleaning_cases (r : Row) :
  [\/ st_cleaning (_normalize_statuses r) = "Complete",
      st_cleaning (_normalize_statuses r) = "Partial"
    | st_cleaning (_normalize_statuses r) = "Pending"].
Proof.
rewrite /_normalize_statuses; cbv zeta; rewrite [st_cleaning _]/=.
by case: ifP => _; [constructor 1 | case: ifP => _; [constructor 2 | constructor 3]].
Qed.

Lemma conflicts_of_row (r : Row) (mil : rat) (id : option string) (k : nat) :
  conflicts_agree
    (mkResultItem id k
       (ex_fitness (extras_of r mil)) (ex_job_card_status (extras_of r mil))
       (ex_branding_priority (extras_of r mil)) (ex_mileage (extras_of r mil))
       (ex_cleaning_status (extras_of r mil))
       (ex_stabling_position (extras_of r mil))
       (ex_updated_at (extras_of r mil)) (alerts_of r)).
Proof.
rewrite /conflicts_agree; cbv zeta.
set it := mkResultItem _ _ _ _ _ _ _ _ _ _.
case: (detect_conflictsP (item_of_result it)); cbv zeta.
move=> -> Ht -> -> ->.
have -> : res_alerts it = alerts_of r by [].
have -> : res_stabling_position it = odflt "" (row_stabling r) by [].
have -> : ci_fitness_certificate_status (item_of_result it)
          = Some (st_fitness (_normalize_statuses r)) by [].
have -> : ci_job_card_status (item_of_result it)
          = Some (st_job_cards (_normalize_statuses r)) by [].
have -> : ci_cleaning_status (item_of_result it)
          = Some (st_cleaning (_normalize_statuses r)) by [].
have -> : ci_stabling_position (item_of_result it)
          = Some (odflt "" (row_stabling r)) by [].
have -> : msg_telecom \notin detect_conflicts (item_of_result it).
  by rewrite Ht.
have -> : al_fitness_invalid (alerts_of r) = (fitness_objective r != 0) by [].
have -> : al_job_open (alerts_of r)
  = (py_in (_norm_text (Some (st_job_cards (_normalize_statuses r)))) "open"
     || any_in [:: "major"; "critical"]
               (_norm_text (Some (st_job_cards (_normalize_statuses r))))) by [].
have -> : al_cleaning_pending (alerts_of r)
  = py_in "pending" (_norm_text (Some (st_cleaning (_normalize_statuses r))))
  by [].
have -> : al_cleaning_partial (alerts_of r)
  = py_in "partial" (_norm_text (Some (st_cleaning (_normalize_statuses r))))
  by [].
have -> : al_no_stabling (alerts_of r)
  = (strip (odflt "" (row_stabling r)) == "") by [].
rewrite /fitness_objective; cbv zeta.
rewrite [odflt _ (Some _)]/= eqxx andbT.
apply/and4P; split.
- by case: (st_fitness_cases r) => ->; vm_compute.
- by case: (st_job_cards_cases r) => ->; vm_compute.
- by case: (st_cleaning_cases r) => ->; vm_compute.
- by case: (odflt "" (row_stabling r)) => [|c s]; vm_compute.
Qed.


End ConflictMessages.

Section Response.

Local Open Scope ring_scope.

Variable str_to_float : string -> option rat.

Local Notation mileage_of := (mileage_of str_to_float).
Local Notation convertible := (convertible str_to_float).
Local Notation mapped_rows := (mapped_rows str_to_float).

Lemma fitness_objective01 (r : Row) :
  fitness_objective r = 0 \/ fitness_objective r = 1.
Proof. by rewrite /fitness_objective; case: ifP; [right | left]. Qed.

Lemma penalty_alert (r : Row) :
  (0 < penalty_of r) = al_fitness_invalid (alerts_of r).
Proof.
have -> : al_fitness_invalid (alerts_of r) = (fitness_objective r != 0) by [].
rewrite /penalty_of.
by case: (fitness_objective01 r) => ->; rewrite ?ltxx ?eqxx ?ltr01 ?oner_eq0.
Qed.

Lemma nth_mapped_rows (rows : seq Row) (i : nat) :
  all convertible rows -> (i < size rows)%N ->
  let r := nth dflt_row rows i in
  [/\ (nth dflt_mapped (mapped_rows rows) i).1.1.2
      = extras_of r (mileage_of r),
      (nth dflt_mapped (mapped_rows rows) i).1.2 = penalty_of r
    & (nth dflt_mapped (mapped_rows rows) i).2 = alerts_of r].
Proof.
move=> /(all_nthP dflt_row) ok ir; move: (ok _ ir) => {ok}.
rewrite /mapped_rows (nth_map dflt_row) // map_row_to_objectivesE.
rewrite /convertible /mileage_of.
by case: (float_or_zero _ _).
Qed.

Lemma map_fronts_nonempty (g : nat -> nat) (pop : seq (seq rat))
    (ff : seq (seq nat)) :
  omap (map (map g)) (_non_dominated_sort pop) = Some ff -> [::] \notin ff.
Proof.
case E: (_non_dominated_sort pop) => [fs0|] //= [<-].
have := peel_nonempty E; elim: fs0 {E} => [|f fs IH] //=.
by rewrite !in_cons !negb_or => /andP [fn /IH ->]; case: f fn.
Qed.

Lemma rank_of_build_order (objs : seq (seq rat)) (s : nat)
    (fs : seq (seq nat)) (r : nat) :
  [::] \notin fs ->
  (r \in [seq t.2 | t <- build_order objs s fs]) = (s <= r < s + size fs)%N.
Proof.
elim: fs s => [|f fs IH] s /=.
  by rewrite addn0 in_nil; case: leqP => // /ltnW; rewrite ltnNge => ->.
rewrite in_cons negb_or => /andP [fn /IH {}IH].
rewrite map_cat mem_cat IH /front_entries -map_comp.
have -> : (r \in [seq ((fun t : nat * xrat * nat => t.2)
                       \o (fun i => (i, xneg (dict_get
                             (_crowding_distance f objs) i), s))) i | i <- f])
          = (r == s).
  case: f fn => [|i f] // _; apply/mapP/eqP => [[j _ ->] //|->].
  by exists i; rewrite ?mem_head.
rewrite addnS addSn [(s <= r)%N]leq_eqVlt (eq_sym s r).
by case: eqP => [->|_] //=; rewrite ltnS leq_addr.
Qed.

Lemma feasible_rank_lt (objs : seq (seq rat)) (pens : seq rat)
    (ff fi : seq (seq nat)) (t u : nat * xrat * nat) :
  perm_eq (flatten ff) (feas_idx pens) ->
  perm_eq (flatten fi) (infeas_idx pens) ->
  t \in build_order objs 1 (ff ++ fi) ->
  u \in build_order objs 1 (ff ++ fi) ->
  nth 0 pens t.1.1 <= 0 -> 0 < nth 0 pens u.1.1 -> (t.2 < u.2)%N.
Proof.
move=> Pf Pi; rewrite build_order_cat !mem_cat.
move=> /orP [] /mem_build_order [t1 t2 t3] /orP [] /mem_build_order [u1 u2 u3].
- move: u1; rewrite (perm_mem Pf) mem_feas_idx => /andP [le _] _ lt.
  by move: (le_lt_trans le lt); rewrite ltxx.
- by move=> _ _; apply: leq_trans t3 _; rewrite add1n in u2 *.
- move: u1; rewrite (perm_mem Pf) mem_feas_idx => /andP [le _] _ lt.
  by move: (le_lt_trans le lt); rewrite ltxx.
- move: t1; rewrite (perm_mem Pi) mem_infeas_idx => /andP [lt _] le.
  by move: (le_lt_trans le lt); rewrite ltxx.
Qed.

(** The run of the endpoint on rows whose mileages convert, with the
    fronts behind its ranks. *)
Lemma rank_trace_fronts (rows : seq Row) (w : Weights) :
  all convertible rows ->
  let objs := apply_weights [seq t.1.1.1 | t <- mapped_rows rows] w in
  let pens := [seq t.1.2 | t <- mapped_rows rows] in
  exists ff fi,
    [/\ perm_eq (flatten ff) (feas_idx pens),
        perm_eq (flatten fi) (infeas_idx pens),
        [::] \notin ff ++ fi
      & rank_trace str_to_float rows w
        = Some [seq result_of rows [seq t.1.1.2 | t <- mapped_rows rows]
                              [seq t.2 | t <- mapped_rows rows] t
               | t <- sort key_le (build_order objs 1 (ff ++ fi))]].
Proof.
move=> ok objs pens; rewrite /rank_trace rank_inputsE ok -/objs -/pens.
have [so uo] := apply_weights_shape [seq t.1.1.1 | t <- mapped_rows rows] w.
have sz : size objs = size pens by rewrite so !size_map.
case: (nsga_fronts_runs sz uo) => ff [fi [Ef Ei E Pf Pi]].
exists ff, fi; split=> //; last by rewrite /nsga_order E.
by rewrite mem_cat negb_or (map_fronts_nonempty Ef) (map_fronts_nonempty Ei).
Qed.

Lemma rank_endpoint_convertible (rows : seq Row) (w : Weights)
    (res : seq ResultItem) :
  rank_endpoint str_to_float rows w = Some res -> all convertible rows.
Proof.
case ok: (all convertible rows) => //.
by rewrite /rank_endpoint rank_trace_fails ?ok.
Qed.

(** X11. In every response of the endpoint the conflict messages of a
    result agree with its alerts: the certificate message is there exactly
    when the fitness alert is raised, the job-card message exactly when the
    job alert is raised, the cleaning message exactly when one of the two
    cleaning alerts is raised.  The stabling message is there exactly when
    the reported stabling text is empty; it implies the stabling alert, not
    the other way round (a blank text raises the alert only).  The telecom
    message is never issued. *)
Theorem X11_conflicts_agree_with_alerts (rows : seq Row) (w : Weights)
    (res : seq ResultItem) :
  rank_endpoint str_to_float rows w = Some res -> all conflicts_agree res.
Proof.
move=> /[dup] /rank_endpoint_convertible ok.
case: (rank_traceP w ok) => order E P; rewrite /rank_endpoint E /= => -[<-].
rewrite -map_comp all_map; apply/allP => t tin /=.
have ir : (t.1.1 < size rows)%N.
  have : t.1.1 \in iota 0 (size rows).
    by rewrite -(perm_mem P); apply/mapP; exists t.
  by rewrite mem_iota add0n.
rewrite (nth_map dflt_mapped) ?size_map //.
rewrite [nth dflt_alerts _ _](nth_map dflt_mapped) ?size_map //.
case: (nth_mapped_rows ok ir) => -> _ ->.
exact: conflicts_of_row.
Qed.


Lemma key_le_rank (a b : nat * xrat * nat) : key_le a b -> (a.2 <= b.2)%N.
Proof. by case/orP => [/ltnW|/andP [/eqP ->]]. Qed.

(** X12. Every response has one result per row; its pareto ranks ascend
    along the list and are exactly the numbers 1 to K for some K that is at
    most the number of rows: the ranks start at 1 and leave no gap. *)
Theorem X12_ranks_ascend_without_gaps (rows : seq Row) (w : Weights)
    (res : seq ResultItem) :
  rank_endpoint str_to_float rows w = Some res ->
  exists K,
    [/\ size res = size rows, (K <= size rows)%N,
        sorted leq [seq res_pareto_rank it | it <- res]
      & forall r, (r \in [seq res_pareto_rank it | it <- res])
                  = (0 < r <= K)%N].
Proof.
move=> /[dup] /rank_endpoint_convertible ok.
case: (rank_trace_fronts w ok) => ff [fi [Pf Pi ne E]].
rewrite /rank_endpoint E /= => -[<-] {E}.
set objs := apply_weights _ _; set pens := [seq t.1.2 | t <- _] in Pf Pi.
set out := sort key_le _.
have -> : [seq res_pareto_rank it
          | it <- [seq i.2 | i <- [seq result_of rows
                     [seq t.1.1.2 | t <- mapped_rows rows]
                     [seq t.2 | t <- mapped_rows rows] t | t <- out]]]
          = [seq t.2 | t <- out].
  by rewrite -!map_comp.
have sf : size (flatten (ff ++ fi)) = size rows.
  rewrite flatten_cat (perm_size (perm_cat Pf Pi)).
  by rewrite (perm_size (perm_feas_infeas pens)) size_iota !size_map.
exists (size (ff ++ fi)); split.
- by rewrite !size_map size_sort -sf -(map_idx_build_order objs 1) size_map.
- by rewrite -sf; apply: size_flatten_nonempty.
- rewrite sorted_map; apply: sub_sorted (sort_sorted key_le_total _).
  by move=> a b /key_le_rank.
- move=> r; rewrite (perm_mem (perm_map _ (permEl (perm_sort _ _)))).
  by rewrite rank_of_build_order // add1n ltnS.
Qed.

(** X13. In every response no result with the fitness alert comes before
    a result without it, and every result without the alert has a strictly
    smaller pareto rank than every result with it, whatever the weights and
    the other objectives. *)
Theorem X13_held_trains_listed_last (rows : seq Row) (w : Weights)
    (res : seq ResultItem) :
  rank_endpoint str_to_float rows w = Some res ->
  pairwise (fun a b => held a ==> held b) res
  /\ pairwise (fun a b => ~~ held a && held b
                          ==> (res_pareto_rank a < res_pareto_rank b)%N) res.
Proof.
move=> /[dup] /rank_endpoint_convertible ok.
case: (rank_trace_fronts w ok) => ff [fi [Pf Pi ne E]].
rewrite /rank_endpoint E /= => -[<-] {E}.
set objs := apply_weights _ _; set pens := [seq t.1.2 | t <- _] in Pf Pi.
set out := sort key_le _.
set exs := [seq t.1.1.2 | t <- _].
set als := [seq t.2 | t <- mapped_rows rows].
rewrite -map_comp !pairwise_map.
have bo t : t \in out -> t \in build_order objs 1 (ff ++ fi).
  by rewrite mem_sort.
have Hh t : t \in out ->
    held (result_of rows exs als t).2 = (0 < nth 0 pens t.1.1).
  move=> /bo /mem_build_order []; rewrite flatten_cat.
  rewrite (perm_mem (perm_cat Pf Pi)) (perm_mem (perm_feas_infeas pens)).
  rewrite mem_iota add0n /= !size_map => ir _ _.
  rewrite /held /= (nth_map dflt_mapped) ?size_map //.
  rewrite [nth 0 _ _](nth_map dflt_mapped) ?size_map //.
  by case: (nth_mapped_rows ok ir) => _ -> ->; rewrite penalty_alert.
have ao : all [in out] out by apply/allP.
have pw : pairwise key_le out.
  by rewrite -(sorted_pairwise key_le_trans) (sort_sorted key_le_total).
split.
- apply: sub_in_pairwise ao pw => t u tin uin /= le.
  rewrite !Hh //; apply/implyP => ht; rewrite ltNge; apply/negP => hu.
  have := feasible_rank_lt Pf Pi (bo _ uin) (bo _ tin) hu ht.
  by rewrite ltnNge (key_le_rank le).
- apply: sub_in_pairwise ao pw => t u tin uin /= _.
  rewrite !Hh // -leNgt; apply/implyP => /andP [ht hu].
  exact: feasible_rank_lt Pf Pi (bo _ tin) (bo _ uin) ht hu.
Qed.

End Response.

Section ResponseExamples.

Local Open Scope ring_scope.

Lemma X11_conflicts_agree_with_alerts_witness : all conflicts_agree x_res.
Proof.
apply: (@X11_conflicts_agree_with_alerts Decimal.decimal_float x_rows
          no_weights).
vm_compute; reflexivity.
Defined.

Lemma X12_ranks_ascend_without_gaps_witness :
  exists K,
    [/\ size x_res = size x_rows, (K <= size x_rows)%N,
        sorted leq [seq res_pareto_rank it | it <- x_res]
      & forall r, (r \in [seq res_pareto_rank it | it <- x_res])
                  = (0 < r <= K)%N].
Proof.
apply: (@X12_ranks_ascend_without_gaps Decimal.decimal_float x_rows
          no_weights).
vm_compute; reflexivity.
Defined.

Lemma X13_held_trains_listed_last_witness :
  pairwise (fun a b => held a ==> held b) x_res
  /\ pairwise (fun a b => ~~ held a && held b
                          ==> (res_pareto_rank a < res_pareto_rank b)%N)
              x_res.
Proof.
apply: (@X13_held_trains_listed_last Decimal.decimal_float x_rows
          no_weights).
vm_compute; reflexivity.
Defined.

End ResponseExamples.

(* ------------------------------------------------------------------ *)
(** ** Normalisation, weights and the fronts *)

Section Normalisation.

Local Open Scope ring_scope.

Lemma foldl_min_le (v : rat) (vs : seq rat) (x : rat) :
  x \in v :: vs -> foldl Num.min v vs <= x.
Proof.
elim: vs v x => [|y vs IH] v x; first by rewrite inE => /eqP ->.
rewrite inE => /orP [/eqP ->|xin] /=.
  by apply: le_trans (IH _ _ (mem_head _ _)) _; rewrite ge_min lexx.
move: xin; rewrite inE => /orP [/eqP ->|xin].
  by apply: le_trans (IH _ _ (mem_head _ _)) _; rewrite ge_min lexx orbT.
by apply: IH; rewrite inE xin orbT.
Qed.

Lemma foldl_max_ge (v : rat) (vs : seq rat) (x : rat) :
  x \in v :: vs -> x <= foldl Num.max v vs.
Proof.
elim: vs v x => [|y vs IH] v x; first by rewrite inE => /eqP ->.
rewrite inE => /orP [/eqP ->|xin] /=.
  by apply: le_trans (IH _ _ (mem_head _ _)); rewrite le_max lexx.
move: xin; rewrite inE => /orP [/eqP ->|xin].
  by apply: le_trans (IH _ _ (mem_head _ _)); rewrite le_max lexx orbT.
by apply: IH; rewrite inE xin orbT.
Qed.



(** [_norm] entry by entry. *)
Lemma nth_norm (vals : seq rat) (i : nat) :
  (i < size vals)%N ->
  let vmin := foldl Num.min (head 0 vals) (behead vals) in
  let vmax := foldl Num.max (head 0 vals) (behead vals) in
  nth 0 (_norm vals) i
  = if vmax - vmin == 0 then 0 else (nth 0 vals i - vmin) / (vmax - vmin).
Proof.
case: vals => [|v vs] // iv /=; case: ifP => _.
  by rewrite -/(map _ (v :: vs)) nth_zeros.
by rewrite -/(map _ (v :: vs)) (nth_map 0).
Qed.

Lemma norm_order (vals : seq rat) (i j : nat) :
  (i < size vals)%N -> (j < size vals)%N ->
  ((nth 0 (_norm vals) i <= nth 0 (_norm vals) j)
   = (nth 0 vals i <= nth 0 vals j))
  /\ ((nth 0 (_norm vals) i < nth 0 (_norm vals) j)
      = (nth 0 vals i < nth 0 vals j)).
Proof.
move=> iv jv; rewrite !nth_norm //; cbv zeta.
set vmin := foldl Num.min _ _; set vmax := foldl Num.max _ _.
have vE : vals = head 0 vals :: behead vals by case: (vals) iv.
have lo x : x \in vals -> vmin <= x by rewrite {1}vE; apply: foldl_min_le.
have hi x : x \in vals -> x <= vmax by rewrite {1}vE; apply: foldl_max_ge.
have xi := mem_nth 0 iv; have xj := mem_nth 0 jv.
case: eqP => [/eqP|/eqP ne].
  rewrite subr_eq0 => /eqP e.
  have eqv x : x \in vals -> x = vmin.
    by move=> xin; apply/le_anti; rewrite lo // andbT -e hi.
  by rewrite (eqv _ xi) (eqv _ xj) !lexx !ltxx.
have sp : 0 < vmax - vmin.
  by rewrite lt_def ne subr_ge0 (le_trans (lo _ xi) (hi _ xi)).
by rewrite ler_pM2r ?invr_gt0 // ltr_pM2r ?invr_gt0 // lerD2r ltrD2r.
Qed.


End Normalisation.

Section WeightsAndFronts.

Local Open Scope ring_scope.

Lemma dominatesE (m : nat) (a b : seq rat) :
  size a = m -> size b = m ->
  _dominates a b
  = all (fun k => nth 0 a k <= nth 0 b k) (iota 0 m)
    && has (fun k => nth 0 a k < nth 0 b k) (iota 0 m).
Proof.
move=> sa sb; rewrite /_dominates.
have -> : zip a b = [seq (nth 0 a k, nth 0 b k) | k <- iota 0 m].
  apply: (@eq_from_nth _ (0, 0)).
    by rewrite size_zip size_map size_iota sa sb minnn.
  move=> k; rewrite size_zip sa sb minnn => km.
  by rewrite nth_zip ?sa ?sb // (nth_map 0%N) ?size_iota // nth_iota.
by rewrite all_map has_map.
Qed.

(** An entry of the weighted population, with its weight. *)
Lemma weighted_val (objs : seq (seq rat)) (w : Weights) (i k : nat) :
  uniform 6 objs -> (i < size objs)%N -> (k < 6)%N ->
  val (apply_weights objs w) i k
  = nth 0 (_norm [seq nth 0 row k | row <- objs]) i * weight_of w k.
Proof.
move=> um io k6.
have ne : objs != [::] by case: objs io {um}.
rewrite /val /vec /apply_weights (nth_map 0%N) ?size_iota // nth_iota //.
rewrite add0n (zip_star_uniform um ne) !size_map size_iota.
by case: k k6 => [|[|[|[|[|[|k]]]]]].
Qed.

Lemma weighted_dominates (objs : seq (seq rat)) (w : Weights) (i j : nat) :
  uniform 6 objs -> positive_weights w ->
  (i < size objs)%N -> (j < size objs)%N ->
  _dominates (vec (apply_weights objs w) i) (vec (apply_weights objs w) j)
  = _dominates (vec objs i) (vec objs j).
Proof.
move=> um pw io jo.
have [so /allP uw] := apply_weights_shape objs w.
have sw q : (q < size objs)%N -> size (vec (apply_weights objs w) q) = 6%N.
  by move=> qo; apply/eqP/uw/mem_nth; rewrite so.
have sr q : (q < size objs)%N -> size (vec objs q) = 6%N.
  by move=> qo; apply/eqP/(allP um)/mem_nth.
rewrite (dominatesE (sw _ io) (sw _ jo)) (dominatesE (sr _ io) (sr _ jo)).
have cmp k : k \in iota 0 6 ->
    ((val (apply_weights objs w) i k <= val (apply_weights objs w) j k)
     = (val objs i k <= val objs j k))
    /\ ((val (apply_weights objs w) i k < val (apply_weights objs w) j k)
        = (val objs i k < val objs j k)).
  move=> /[dup] kin; rewrite mem_iota add0n /= => k6.
  have wk : 0 < weight_of w k by move/allP: pw => /(_ _ kin).
  rewrite !weighted_val // ler_pM2r // ltr_pM2r //.
  have si : (i < size [seq nth 0%R row k | row <- objs])%N by rewrite size_map.
  have sj : (j < size [seq nth 0%R row k | row <- objs])%N by rewrite size_map.
  case: (norm_order si sj) => -> ->.
  by rewrite !(nth_map [::]).
congr (_ && _).
  by apply: eq_in_all => k /cmp [].
by apply: eq_in_has => k /cmp [].
Qed.

(** The front builder reads its population through dominance only. *)
Lemma non_dominated_sort_ext (p1 p2 : seq (seq rat)) :
  size p1 = size p2 ->
  (forall i j, (i < size p1)%N -> (j < size p1)%N ->
     _dominates (vec p1 i) (vec p1 j) = _dominates (vec p2 i) (vec p2 j)) ->
  _non_dominated_sort p1 = _non_dominated_sort p2.
Proof.
move=> sz H.
have eS : build_S p1 = build_S p2.
  rewrite /build_S -sz; apply/eq_in_map => p; rewrite mem_iota add0n /= => pn.
  apply: eq_in_filter => q; rewrite mem_iota add0n /= => qn.
  by rewrite H.
have eN : build_n_dom p1 = build_n_dom p2.
  rewrite /build_n_dom -sz; apply/eq_in_map => p.
  rewrite mem_iota add0n /= => pn; congr (_%:Z).
  apply: eq_in_count => q; rewrite mem_iota add0n /= => qn.
  by rewrite !H.
by rewrite /_non_dominated_sort eS eN sz.
Qed.

Lemma sub_fronts_ext (p1 p2 : seq (seq rat)) (idx : seq nat) :
  size p1 = size p2 -> all (fun i => (i < size p1)%N) idx ->
  (forall i j, (i < size p1)%N -> (j < size p1)%N ->
     _dominates (vec p1 i) (vec p1 j) = _dominates (vec p2 i) (vec p2 j)) ->
  _non_dominated_sort [seq vec p1 i | i <- idx]
  = _non_dominated_sort [seq vec p2 i | i <- idx].
Proof.
move=> sz /allP bi H; apply: non_dominated_sort_ext; rewrite !size_map //.
move=> a b an bn; rewrite !vec_sub //; apply: H; apply: bi; exact: mem_nth.
Qed.

Lemma weighted_nsga_fronts (objs : seq (seq rat)) (pens : seq rat)
    (w : Weights) :
  uniform 6 objs -> size objs = size pens -> positive_weights w ->
  nsga_fronts (apply_weights objs w) pens = nsga_fronts objs pens.
Proof.
move=> um sz pw.
have [so _] := apply_weights_shape objs w.
have H i j : (i < size (apply_weights objs w))%N ->
             (j < size (apply_weights objs w))%N ->
    _dominates (vec (apply_weights objs w) i) (vec (apply_weights objs w) j)
    = _dominates (vec objs i) (vec objs j).
  by rewrite so; apply: weighted_dominates.
have ef : _non_dominated_sort
            [seq vec (apply_weights objs w) i | i <- feas_idx pens]
          = _non_dominated_sort [seq vec objs i | i <- feas_idx pens].
  by apply: sub_fronts_ext => //; rewrite so sz feas_idx_bound.
have ei : _non_dominated_sort
            [seq vec (apply_weights objs w) i | i <- infeas_idx pens]
          = _non_dominated_sort [seq vec objs i | i <- infeas_idx pens].
  by apply: sub_fronts_ext => //; rewrite so sz infeas_idx_bound.
by rewrite /nsga_fronts ef ei.
Qed.

(** X15. With rational arithmetic and weights that are all positive,
    weighting changes no dominance: a candidate dominates another on the
    weighted objectives exactly when it does on the raw ones.  So the fronts
    of the weighted population, and those [nsga_order] builds from it, are
    the fronts of the raw population. *)
Theorem X15_positive_weights_keep_fronts (objs : seq (seq rat))
    (pens : seq rat) (w : Weights) :
  uniform 6 objs -> size objs = size pens -> positive_weights w ->
  [/\ forall i j, (i < size objs)%N -> (j < size objs)%N ->
        _dominates (vec (apply_weights objs w) i)
                   (vec (apply_weights objs w) j)
        = _dominates (vec objs i) (vec objs j),
      _non_dominated_sort (apply_weights objs w) = _non_dominated_sort objs
    & nsga_fronts (apply_weights objs w) pens = nsga_fronts objs pens].
Proof.
move=> um sz pw.
have [so _] := apply_weights_shape objs w.
split.
- by move=> i j io jo; apply: weighted_dominates.
- apply: non_dominated_sort_ext => // i j.
  by rewrite so; apply: weighted_dominates.
- exact: weighted_nsga_fronts.
Qed.

Lemma build_order_ranks (objs objs' : seq (seq rat)) (s : nat)
    (fs : seq (seq nat)) :
  [seq (t.1.1, t.2) | t <- build_order objs s fs]
  = [seq (t.1.1, t.2) | t <- build_order objs' s fs].
Proof.
elim: fs s => [|f fs IH] s //=; rewrite !map_cat IH; congr (_ ++ _).
by rewrite /front_entries -!map_comp.
Qed.

End WeightsAndFronts.

Section WeightsAndRanks.

Local Open Scope ring_scope.

Variable str_to_float : string -> option rat.

Local Notation mileage_of := (mileage_of str_to_float).
Local Notation convertible := (convertible str_to_float).
Local Notation mapped_rows := (mapped_rows str_to_float).

Lemma raw_uniform (rows : seq Row) :
  all convertible rows -> uniform 6 [seq t.1.1.1 | t <- mapped_rows rows].
Proof.
rewrite /uniform /mapped_rows -map_comp all_map; apply: sub_all => r.
rewrite /convertible /= map_row_to_objectivesE.
by case: (float_or_zero _ _).
Qed.

(** The indices and ranks of a response, whatever the positive weights. *)
Lemma rank_trace_ranks (rows : seq Row) (w : Weights) :
  all convertible rows -> positive_weights w ->
  let raw := [seq t.1.1.1 | t <- mapped_rows rows] in
  let pens := [seq t.1.2 | t <- mapped_rows rows] in
  exists fronts order,
    [/\ nsga_fronts raw pens = Some fronts,
        rank_trace str_to_float rows w
        = Some [seq result_of rows [seq t.1.1.2 | t <- mapped_rows rows]
                              [seq t.2 | t <- mapped_rows rows] t
               | t <- order]
      & perm_eq [seq (t.1.1, t.2) | t <- order]
                [seq (t.1.1, t.2) | t <- build_order raw 1 fronts]].
Proof.
move=> ok pw raw pens; rewrite /rank_trace rank_inputsE ok -/raw -/pens.
have sz : size raw = size pens by rewrite !size_map.
have E := weighted_nsga_fronts (raw_uniform ok) sz pw.
case: (nsga_fronts_total raw pens) => fronts F.
exists fronts, (sort key_le (build_order (apply_weights raw w) 1 fronts)).
split=> //; first by rewrite /nsga_order E F.
rewrite -(build_order_ranks (apply_weights raw w)).
by apply: perm_map; rewrite perm_sort.
Qed.

(** X16. Two requests with the same rows and any two positive weightings
    give every train the same pareto rank: the responses hold the same
    pairs of identifier and rank (the weights move a result inside its rank
    only, through the crowding distance). *)
Theorem X16_ranks_do_not_depend_on_weights (rows : seq Row)
    (w w' : Weights) (res res' : seq ResultItem) :
  positive_weights w -> positive_weights w' ->
  rank_endpoint str_to_float rows w = Some res ->
  rank_endpoint str_to_float rows w' = Some res' ->
  perm_eq [seq (res_train_id it, res_pareto_rank it) | it <- res]
          [seq (res_train_id it, res_pareto_rank it) | it <- res'].
Proof.
move=> pw pw' /[dup] /rank_endpoint_convertible ok.
case: (rank_trace_ranks ok pw) => fronts [order [F E P]].
case: (rank_trace_ranks ok pw') => fronts' [order' [F' E' P']].
move: F'; rewrite F => -[e]; rewrite -{}e in P'.
rewrite /rank_endpoint E E' /= => -[<-] [<-].
set h := fun p : nat * nat => (row_train_id (nth dflt_row rows p.1), p.2).
have tr o : [seq (res_train_id it, res_pareto_rank it)
            | it <- [seq i.2 | i <- [seq result_of rows
                       [seq t.1.1.2 | t <- mapped_rows rows]
                       [seq t.2 | t <- mapped_rows rows] t | t <- o]]]
            = [seq h p | p <- [seq (t.1.1, t.2) | t <- o]].
  by rewrite -!map_comp.
rewrite !tr; apply: perm_map.
by apply: perm_trans P _; rewrite perm_sym.
Qed.

End WeightsAndRanks.

Section WeightExamples.

Local Open Scope ring_scope.

Lemma X15_positive_weights_keep_fronts_witness :
  [/\ forall i j, (i < size c7_raw)%N -> (j < size c7_raw)%N ->
        _dominates (vec (apply_weights c7_raw no_weights) i)
                   (vec (apply_weights c7_raw no_weights) j)
        = _dominates (vec c7_raw i) (vec c7_raw j),
      _non_dominated_sort (apply_weights c7_raw no_weights)
      = _non_dominated_sort c7_raw
    & nsga_fronts (apply_weights c7_raw no_weights) [:: 0; 10%:R; 0]
      = nsga_fronts c7_raw [:: 0; 10%:R; 0]].
Proof.
apply: (@X15_positive_weights_keep_fronts c7_raw [:: 0; 10%:R; 0] no_weights).
- vm_compute; reflexivity.
- reflexivity.
- vm_compute; reflexivity.
Defined.

Lemma X16_ranks_do_not_depend_on_weights_witness :
  perm_eq [seq (res_train_id it, res_pareto_rank it) | it <- x_res]
          [seq (res_train_id it, res_pareto_rank it) | it <- x_res'].
Proof.
apply: (@X16_ranks_do_not_depend_on_weights Decimal.decimal_float x_rows
          no_weights x_weights).
- vm_compute; reflexivity.
- vm_compute; reflexivity.
- vm_compute; reflexivity.
- vm_compute; reflexivity.
Defined.

End WeightExamples.

(* ------------------------------------------------------------------ *)
(** ** The CSV entry point: objectives, fronts, ranking and labels *)

Section ComputeObjectivesProps.

Local Open Scope ring_scope.

Variable eps : rat.
Hypothesis eps_pos : 0 < eps.

Lemma map_opt_some (A B : Type) (g : A -> B) (xs : seq A) :
  map_opt (fun x => Some (g x)) xs = Some [seq g x | x <- xs].
Proof. by elim: xs => //= x xs ->. Qed.

Lemma norm_or_pos (configured : option rat) (dynamic : rat) :
  0 <= norm_or configured 0 -> 1 <= dynamic ->
  0 < norm_or configured dynamic + eps.
Proof.
move=> h d; apply: ltr_wpDl; rewrite ?eps_pos //.
have d0 : 0 <= dynamic by apply: le_trans d.
move: h; rewrite /norm_or; case: configured => [q|] //.
by case: (q =P 0).
Qed.

Lemma max_default_ge (d x : rat) (xs : seq rat) :
  x \in xs -> x <= max_default d xs.
Proof. by case: xs => [|y ys] //; apply: foldl_max_ge. Qed.

Lemma norm_or_dynamic (configured : option rat) (dynamic : rat) :
  norm_or configured 0 == 0 -> norm_or configured dynamic = dynamic.
Proof.
rewrite /norm_or; case: configured => [q|] //.
by case: (q =P 0) => // ne /eqP e; case: ne.
Qed.

Lemma unit_quotient (x M : rat) :
  0 <= x -> x <= M -> 0 <= x / (Num.max 1 M + eps) < 1.
Proof.
move=> x0 xM.
have d1 : 1 <= Num.max 1 M by rewrite le_max lexx.
have dp : 0 < Num.max 1 M + eps.
  by apply: ltr_wpDl; rewrite ?eps_pos // (le_trans ler01).
rewrite divr_ge0 ?(ltW dp) //= ltr_pdivrMr // mul1r.
apply: le_lt_trans xM _.
apply: (@le_lt_trans _ _ (Num.max 1 M)); first by rewrite le_max lexx orbT.
by rewrite ltrDl eps_pos.
Qed.

Lemma compute_objectives_some (trains : seq TrainInput)
    (cfg : ObjectiveConfig) :
  nonneg_norms cfg ->
  compute_objectives eps trains cfg
  = Some [seq (objectives_of eps (norms trains cfg) t,
               weighted_of cfg (objectives_of eps (norms trains cfg) t))
         | t <- trains].
Proof.
case/and5P => h1 h2 h3 h4 h5; rewrite /compute_objectives; cbv zeta.
have m1 (x : rat) : 1 <= Num.max 1 x by rewrite le_max lexx.
rewrite (gt_eqF (norm_or_pos h1 (m1 _))) (gt_eqF (norm_or_pos h2 (m1 _))).
rewrite (gt_eqF (norm_or_pos h3 (m1 _))) (gt_eqF (norm_or_pos h4 (m1 _))).
rewrite (gt_eqF (norm_or_pos h5 (m1 _))) [[|| _, _, _, _ | _]]/=.
by rewrite map_opt_some.
Qed.

(** X20. When no configured denominator is negative, [compute_objectives]
    divides by a positive number only: it returns one pair per train, in
    input order, each with six objectives and the six weighted objectives
    that are the objectives times the configured weights. *)
Theorem X20_objectives_defined (trains : seq TrainInput)
    (cfg : ObjectiveConfig) :
  nonneg_norms cfg ->
  exists out,
    [/\ compute_objectives eps trains cfg = Some out,
        size out = size trains,
        uniform 6 [seq c.1 | c <- out],
        uniform 6 [seq c.2 | c <- out]
      & all (fun c => c.2 == weighted_of cfg c.1) out].
Proof.
move=> /compute_objectives_some ->; eexists; split; first by [].
- by rewrite size_map.
- by rewrite /uniform -map_comp all_map; apply/(all_nthP dflt_train).
- by rewrite /uniform -map_comp all_map; apply/(all_nthP dflt_train).
- by rewrite all_map; apply/(all_nthP dflt_train) => i _ /=.
Qed.

Lemma dynamic_nonneg (cfg : ObjectiveConfig) :
  dynamic_norms cfg -> nonneg_norms cfg.
Proof.
by case/and5P => /eqP h1 /eqP h2 /eqP h3 /eqP h4 /eqP h5;
   rewrite /nonneg_norms h1 h2 h3 h4 h5 lexx.
Qed.

(** X21. With the denominators taken from the data (none configured, or
    configured as zero) and trains whose measured fields are not negative,
    the first objective of every train is 0 or 1 and the five others lie
    in the interval from 0 to 1, 1 excluded. *)
Theorem X21_dynamic_objectives_below_one (trains : seq TrainInput)
    (cfg : ObjectiveConfig) :
  dynamic_norms cfg -> all nonneg_train trains ->
  exists2 out, compute_objectives eps trains cfg = Some out
    & all (fun c => (nth 0 c.1 0 \in [:: 0; 1])
                    && all (fun k => 0 <= nth 0 c.1 k < 1) (iota 1 5)) out.
Proof.
move=> dn nt; rewrite (compute_objectives_some _ (dynamic_nonneg dn)).
eexists; first by [].
rewrite all_map; apply/(all_nthP dflt_train) => i it.
have /and4P [t1 t2 t3 t4] := all_nthP dflt_train nt i it.
set t := nth dflt_train trains i in t1 t2 t3 t4 *.
case/and5P: dn => d1 d2 d3 d4 d5.
have inm (f : TrainInput -> rat) : f t \in [seq f u | u <- trains].
  by rewrite -(nth_map dflt_train 0) // mem_nth // size_map.
pose ob := objectives_of eps (norms trains cfg) t.
have e0 : nth 0 ob 0 = if ti_fitness_valid t then 0 else 1 by [].
have e1 : nth 0 ob 1
  = (ti_open_work_orders t)%:~R
    / (norm_or (norm_open_work_orders cfg)
         (Num.max 1 (max_default 1 [seq (ti_open_work_orders u)%:~R
                                   | u <- trains])) + eps) by [].
have e2 : nth 0 ob 2
  = ti_branding_hours_remaining t
    / (norm_or (norm_branding_hours cfg)
         (Num.max 1 (max_default 1 [seq ti_branding_hours_remaining u
                                   | u <- trains])) + eps) by [].
have e3 : nth 0 ob 3
  = `|ti_mileage_km t - ti_mileage_target_km t|
    / (norm_or (norm_mileage_deviation cfg)
         (Num.max 1 (max_default 1
                       [seq `|ti_mileage_km u - ti_mileage_target_km u|
                       | u <- trains])) + eps) by [].
have e4 : nth 0 ob 4
  = ti_cleaning_need_score t
    / (norm_or (norm_cleaning_need cfg)
         (Num.max 1 (max_default 1 [seq ti_cleaning_need_score u
                                   | u <- trains])) + eps) by [].
have e5 : nth 0 ob 5
  = ti_stabling_move_minutes t
    / (norm_or (norm_stabling_move cfg)
         (Num.max 1 (max_default 1 [seq ti_stabling_move_minutes u
                                   | u <- trains])) + eps) by [].
change ((nth 0 ob 0 \in [:: 0; 1])
        && all (fun k => 0 <= nth 0 ob k < 1) (iota 1 5)).
apply/andP; split; first by rewrite e0; case: ifP; rewrite !inE eqxx ?orbT.
apply/allP => k; rewrite mem_iota => /andP [k1 k6].
case: k k1 k6 => [|[|[|[|[|[|k]]]]]] // _ _.
- rewrite e1 norm_or_dynamic // unit_quotient ?ler0z //.
  exact/max_default_ge/(inm (fun u => (ti_open_work_orders u)%:~R)).
- rewrite e2 norm_or_dynamic // unit_quotient //.
  exact/max_default_ge/(inm (fun u => ti_branding_hours_remaining u)).
- rewrite e3 norm_or_dynamic // unit_quotient //.
  exact/max_default_ge/(inm (fun u => `|ti_mileage_km u - ti_mileage_target_km u|)).
- rewrite e4 norm_or_dynamic // unit_quotient //.
  exact/max_default_ge/(inm (fun u => ti_cleaning_need_score u)).
- rewrite e5 norm_or_dynamic // unit_quotient //.
  exact/max_default_ge/(inm (fun u => ti_stabling_move_minutes u)).
Qed.

End ComputeObjectivesProps.

Section CliProps.

Local Open Scope ring_scope.

Lemma first_front_nonempty (m : nat) (pop : seq (seq rat)) :
  uniform m pop -> pop != [::] ->
  [seq i <- iota 0 (size pop) | nth 0 (build_n_dom pop) i == 0] != [::].
Proof.
move=> um ne; case: (non_dominated_sort_complete um) => fs [E P _ _].
move: E; rewrite /_non_dominated_sort.
case: [seq _ <- _ | _] => // E.
have e : fs = [::] by move: E; case: (size pop) => [|n] /= [<-].
move: P; rewrite e /= => /perm_size; rewrite size_iota /= => /esym /eqP.
by rewrite size_eq0 (negbTE ne).
Qed.

(** X17. On vectors of one length the front builder of the CSV entry point
    returns the fronts of the builder of the service; they differ on the
    empty population only, where the first appends its empty first front
    and the second appends nothing. *)
Theorem X17_cli_builder_agrees (m : nat) (pop : seq (seq rat)) :
  uniform m pop ->
  non_dominated_sort pop
  = if pop is [::] then Some [:: [::]] else _non_dominated_sort pop.
Proof.
case: pop => [|v pop] // um.
have := first_front_nonempty um isT.
rewrite /non_dominated_sort /_non_dominated_sort.
by case: [seq _ <- _ | _].
Qed.

Lemma nsga_rank_spec (m : nat) (pop : seq (seq rat)) :
  uniform m pop ->
  exists fs,
    [/\ non_dominated_sort pop = Some fs,
        forall i, (i < size pop)%N -> i \in flatten fs
      & nsga_rank pop
        = Some (sort (fun i j =>
                        cli_key_le
                          (cli_key fs (foldl (fun d f =>
                                                crowding_distance pop f d)
                                             dict_empty fs) i)
                          (cli_key fs (foldl (fun d f =>
                                                crowding_distance pop f d)
                                             dict_empty fs) j))
                     (iota 0 (size pop)))].
Proof.
move=> um.
have [fs [E C]] : exists fs, non_dominated_sort pop = Some fs
    /\ forall i, (i < size pop)%N -> i \in flatten fs.
  case: pop um => [|v pop] um; first by exists [:: [::]].
  case: (non_dominated_sort_complete um) => fs [E P _ _].
  exists fs; split; last by move=> i; rewrite (perm_mem P) mem_iota.
  move: E (first_front_nonempty um isT).
  rewrite /non_dominated_sort /_non_dominated_sort.
  by case: [seq _ <- _ | _].
by exists fs; split=> //; rewrite /nsga_rank E.
Qed.

Lemma cli_key_le_rank (a b : option nat * xrat) :
  cli_key_le a b -> rank_le a.1 b.1.
Proof. by rewrite /cli_key_le; case: (rank_le a.1 b.1). Qed.

(** X18. On vectors of one length [nsga_rank] returns every candidate
    once; every candidate has a rank, so the infinite default of the sort
    key is never used; the output ascends in the key (rank, then negated
    crowding distance), and candidates with equal keys keep their input
    order. *)
Theorem X18_cli_rank_complete_sorted_stable (m : nat) (pop : seq (seq rat)) :
  uniform m pop ->
  exists fronts out,
    let store :=
      foldl (fun d f => crowding_distance pop f d) dict_empty fronts in
    let key := cli_key fronts store in
    [/\ non_dominated_sort pop = Some fronts /\ nsga_rank pop = Some out,
        perm_eq out (iota 0 (size pop)),
        forall i, (i < size pop)%N -> rank_of fronts i != None,
        sorted (fun i j => cli_key_le (key i) (key j)) out
      & forall i j, (i <= j)%N -> (j < size pop)%N -> key i = key j ->
          mem2 out i j].
Proof.
move=> um.
case: (nsga_rank_spec um) => fs [E C _].
pose store := foldl (fun d f => crowding_distance pop f d) dict_empty fs.
pose leT := fun i j => cli_key_le (cli_key fs store i) (cli_key fs store j).
have tot : total leT by move=> a b; apply: cli_key_le_total.
have tr : transitive leT by move=> b a c; apply: cli_key_le_trans.
exists fs, (sort leT (iota 0 (size pop))); split=> //.
- by split=> //; rewrite /nsga_rank E.
- by rewrite perm_sort.
- move=> i /C /flattenP [f ff fi]; rewrite /rank_of.
  have -> : has (fun f => i \in f) fs by apply/hasP; exists f.
  by [].
- exact: sort_sorted.
- move=> i j ij jn /= ek; apply: (mem2_sort tot tr) (mem2_iota ij jn).
  rewrite /leT -/store ek /cli_key_le; case: (cli_key fs store j) => a c /=.
  have := rank_le_total a a; have := xle_total c c.
  by case: (rank_le a a); case: (xle c c).
Qed.

End CliProps.

Section ClassifyProps.

Local Open Scope ring_scope.
Local Open Scope string_scope.

(** X19. The CSV entry point labels a train "Revenue Service" exactly when
    its certificate is valid, its open work orders, cleaning need and
    stabling move are within the limits for readiness, and the cleaning
    branch is not taken: a train with an invalid certificate is never
    labelled "Revenue Service", whatever the thresholds. *)
Theorem X19_revenue_service_needs_valid_certificate (t : TrainInput)
    (th : ClassificationThresholds) :
  (classify_category t th == "Revenue Service")
  = [&& ti_fitness_valid t,
        ti_open_work_orders t <= max_open_work_orders_for_ready th,
        ti_cleaning_need_score t <= max_cleaning_need_for_ready th,
        ti_stabling_move_minutes t <= max_stabling_move_for_ready th
      & ~~ ((cleaning_need_threshold th <= ti_cleaning_need_score t)
            && ti_cleaning_slot_available t)].
Proof.
rewrite /classify_category.
case: (ti_fitness_valid t); case: (_ <= ti_open_work_orders t);
case: (cleaning_need_threshold th <= _); case: (ti_cleaning_slot_available t);
case: (ti_open_work_orders t <= _); case: (ti_cleaning_need_score t <= _);
by case: (ti_stabling_move_minutes t <= _).
Qed.

End ClassifyProps.

Section CliExamples.

Local Open Scope ring_scope.

Lemma X17_cli_builder_agrees_witness :
  non_dominated_sort c3_objs
  = if c3_objs is [::] then Some [:: [::]] else _non_dominated_sort c3_objs.
Proof.
apply: (@X17_cli_builder_agrees 6 c3_objs).
vm_compute; reflexivity.
Defined.

Lemma X18_cli_rank_complete_sorted_stable_witness :
  exists fronts out,
    let store :=
      foldl (fun d f => crowding_distance c3_objs f d) dict_empty fronts in
    let key := cli_key fronts store in
    [/\ non_dominated_sort c3_objs = Some fronts
        /\ nsga_rank c3_objs = Some out,
        perm_eq out (iota 0 (size c3_objs)),
        forall i, (i < size c3_objs)%N -> rank_of fronts i != None,
        sorted (fun i j => cli_key_le (key i) (key j)) out
      & forall i j, (i <= j)%N -> (j < size c3_objs)%N -> key i = key j ->
          mem2 out i j].
Proof.
apply: (@X18_cli_rank_complete_sorted_stable 6 c3_objs).
vm_compute; reflexivity.
Defined.

Lemma X20_objectives_defined_witness :
  exists out,
    [/\ compute_objectives (1 / 1000%:R) x_trains default_config = Some out,
        size out = size x_trains,
        uniform 6 [seq c.1 | c <- out],
        uniform 6 [seq c.2 | c <- out]
      & all (fun c => c.2 == weighted_of default_config c.1) out].
Proof.
apply: (@X20_objectives_defined (1 / 1000%:R) _ x_trains default_config).
- vm_compute; reflexivity.
- vm_compute; reflexivity.
Defined.

Lemma X21_dynamic_objectives_below_one_witness :
  exists2 out,
    compute_objectives (1 / 1000%:R) x_trains default_config = Some out
    & all (fun c => (nth 0 c.1 0 \in [:: 0; 1])
                    && all (fun k => 0 <= nth 0 c.1 k < 1) (iota 1 5)) out.
Proof.
apply: (@X21_dynamic_objectives_below_one (1 / 1000%:R) _ x_trains
          default_config).
- vm_compute; reflexivity.
- vm_compute; reflexivity.
- vm_compute; reflexivity.
Defined.

End CliExamples.

(* ------------------------------------------------------------------ *)
(** ** Round trip of the reported statuses *)

Section RoundTrip.

Local Open Scope ring_scope.
Local Open Scope string_scope.

Lemma st_branding_cases (r : Row) :
  [\/ st_branding (_normalize_statuses r) = "High",
      st_branding (_normalize_statuses r) = "Medium"
    | st_branding (_normalize_statuses r) = "Low"].
Proof.
rewrite /_normalize_statuses; cbv zeta; rewrite [st_branding _]/=.
by case: ifP => _; [constructor 1 | case: ifP => _; [constructor 2 | constructor 3]].
Qed.

Lemma statuses_ext (a b : Statuses) :
  st_fitness a = st_fitness b -> st_job_cards a = st_job_cards b ->
  st_branding a = st_branding b -> st_cleaning a = st_cleaning b ->
  st_stabling a = st_stabling b -> a = b.
Proof. by case: a => ? ? ? ? ?; case: b => ? ? ? ? ? /= -> -> -> -> ->. Qed.

Lemma normalize_statuses_idem (r : Row) :
  _normalize_statuses (with_statuses r (_normalize_statuses r))
  = _normalize_statuses r.
Proof.
apply: statuses_ext.
- have -> : st_fitness (_normalize_statuses
                          (with_statuses r (_normalize_statuses r)))
    = st_fitness (_normalize_statuses
        (mkRow None (Some (st_fitness (_normalize_statuses r)))
               None None JNull None None None)) by [].
  by case: (st_fitness_cases r) => ->; vm_compute.
- have -> : st_job_cards (_normalize_statuses
                            (with_statuses r (_normalize_statuses r)))
    = st_job_cards (_normalize_statuses
        (mkRow None None (Some (st_job_cards (_normalize_statuses r)))
               None JNull None None None)) by [].
  by case: (st_job_cards_cases r) => ->; vm_compute.
- have -> : st_branding (_normalize_statuses
                           (with_statuses r (_normalize_statuses r)))
    = st_branding (_normalize_statuses
        (mkRow None None None (Some (st_branding (_normalize_statuses r)))
               JNull None None None)) by [].
  by case: (st_branding_cases r) => ->; vm_compute.
- have -> : st_cleaning (_normalize_statuses
                           (with_statuses r (_normalize_statuses r)))
    = st_cleaning (_normalize_statuses
        (mkRow None None None None JNull
               (Some (st_cleaning (_normalize_statuses r))) None None)) by [].
  by case: (st_cleaning_cases r) => ->; vm_compute.
- by [].
Qed.

(** X22. The names the mapper reports are fixed points of the
    normalisation: a row that carries the normalised names of another row
    in place of its texts is normalised to the same names, and mapped to
    the same objectives, extras, penalty and alerts. *)
Theorem X22_reported_statuses_round_trip (str_to_float : string -> option rat)
    (r : Row) (avg : rat) :
  _normalize_statuses (with_statuses r (_normalize_statuses r))
  = _normalize_statuses r
  /\ map_row_to_objectives str_to_float
       (with_statuses r (_normalize_statuses r)) avg
     = map_row_to_objectives str_to_float r avg.
Proof.
split; first exact: normalize_statuses_idem.
rewrite !map_row_to_objectivesE.
rewrite /fitness_objective /jobs_objective /branding_objective.
rewrite /cleaning_objective /geometry_objective /penalty_of /alerts_of.
rewrite /extras_of /fitness_objective normalize_statuses_idem.
by [].
Qed.

End RoundTrip.

(* ------------------------------------------------------------------ *)
(** ** One feasibility class *)

Section OneClass.

Local Open Scope ring_scope.

Lemma rename_iota (n : nat) (fs : seq (seq nat)) :
  all (fun i => (i < n)%N) (flatten fs) ->
  [seq [seq nth 0%N (iota 0 n) j | j <- f] | f <- fs] = fs.
Proof.
elim: fs => [|f fs IH] //=; rewrite all_cat => /andP [bf /IH ->].
congr (_ :: _); apply: map_id_in => j /(allP bf) jn.
by rewrite nth_iota.
Qed.

Lemma whole_population (objs : seq (seq rat)) :
  [seq vec objs i | i <- iota 0 (size objs)] = objs.
Proof. exact: (mkseq_nth [::] objs). Qed.

Lemma one_class_fronts (objs : seq (seq rat)) :
  (if iota 0 (size objs) is [::] then Some [::]
   else omap (map (map (nth 0%N (iota 0 (size objs)))))
          (_non_dominated_sort [seq vec objs i | i <- iota 0 (size objs)]))
  = _non_dominated_sort objs.
Proof.
rewrite whole_population.
case: (non_dominated_sortP objs) => fs E [_ Hb _ _ _].
rewrite E /= (rename_iota Hb).
by case: objs E {Hb} => [|v objs] //= [<-].
Qed.

(** X23. When no candidate is infeasible, or when all are, the split of
    [nsga_order] changes nothing: its fronts are those of one run of the
    front builder on the whole population. *)
Theorem X23_one_class_needs_no_split (objs : seq (seq rat)) (pens : seq rat) :
  size objs = size pens ->
  (all (fun p => p <= 0) pens \/ all (fun p => 0 < p) pens) ->
  nsga_fronts objs pens = _non_dominated_sort objs.
Proof.
move=> sz [] ap.
- have ef : feas_idx pens = iota 0 (size objs).
    rewrite sz; apply/all_filterP/allP => i; rewrite mem_iota add0n /= => ip.
    by apply: (allP ap); apply: mem_nth.
  have ei : infeas_idx pens = [::].
    rewrite /infeas_idx -(filter_pred0 (iota 0 (size pens))).
    apply: eq_in_filter => i; rewrite mem_iota add0n /= => ip.
    by rewrite ltNge (allP ap) // mem_nth.
  rewrite /nsga_fronts ef ei one_class_fronts.
  by case: (_non_dominated_sort objs) => // fs; rewrite cats0.
- have ei : infeas_idx pens = iota 0 (size objs).
    rewrite sz; apply/all_filterP/allP => i; rewrite mem_iota add0n /= => ip.
    by apply: (allP ap); apply: mem_nth.
  have ef : feas_idx pens = [::].
    rewrite /feas_idx -(filter_pred0 (iota 0 (size pens))).
    apply: eq_in_filter => i; rewrite mem_iota add0n /= => ip.
    by rewrite leNgt (allP ap) // mem_nth.
  rewrite /nsga_fronts ef ei one_class_fronts.
  by case: (_non_dominated_sort objs).
Qed.

End OneClass.

Section OneClassExamples.

Local Open Scope ring_scope.

Lemma X23_one_class_needs_no_split_witness :
  nsga_fronts c7_raw [:: 0; 0; 0] = _non_dominated_sort c7_raw.
Proof.
apply: (@X23_one_class_needs_no_split c7_raw [:: 0; 0; 0]).
- reflexivity.
- left; vm_compute; reflexivity.
Defined.

End OneClassExamples.

(* ------------------------------------------------------------------ *)
(** ** Range of the crowding distance; the shared store of the CSV entry
    point *)

Section CrowdingRange.

Local Open Scope ring_scope.

Variable pop : seq (seq rat).

Lemma in_rangeS (m : nat) (x : xrat) : in_range m x -> in_range m.+1 x.
Proof.
case: x => //= q /andP [-> le] /=; apply: le_trans le _.
by rewrite ler_nat.
Qed.

Lemma in_range_add (m : nat) (x : xrat) (delta : rat) :
  0 <= delta <= 1 -> in_range m x -> in_range m.+1 (xadd x delta).
Proof.
case: x => //= q /andP [d0 d1] /andP [q0 qm].
by rewrite addr_ge0 //= -natr1 lerD.
Qed.

(** The loop over the interior positions, entry by entry. *)
Lemma foldl_add_interiorE (s : seq nat) (k : nat) (span : rat)
    (js : seq nat) (d : dict) (i : nat) :
  uniq s -> uniq js -> all (fun j => (j < size s)%N) js ->
  foldl (add_interior pop s k span) d js i
  = if i \in [seq nth 0%N s j | j <- js]
    then Some (xadd (dict_get d i)
                 ((val pop (nth 0%N s (index i s).+1) k
                   - val pop (nth 0%N s (index i s).-1) k) / span))
    else d i.
Proof.
move=> us; elim: js d => [|j js IH] d //= /andP [nj uj] /andP [js_ bj].
rewrite (IH _ uj bj) in_cons /add_interior /dict_set /dict_get.
case: ifP => [/mapP [j' j'in ->]|_].
  have j's : (j' < size s)%N by apply: (allP bj).
  rewrite nth_uniq // [j' == j]eq_sym.
  by case: eqP nj => [->|_ _]; rewrite ?j'in // orbT.
by case: eqP => [->|_] //=; rewrite index_uniq.
Qed.

Lemma cd_dim_range (f : seq nat) (d : dict) (k K i : nat) (x : xrat) :
  uniq f -> d i = Some x -> in_range K x ->
  exists2 y, cd_dim pop f d k i = Some y & in_range K.+1 y.
Proof.
move=> uf di rx; rewrite /cd_dim.
set s := sort_by_dim pop k f.
have us : uniq s by rewrite sort_uniq.
have ss : sorted (fun a b => val pop a k <= val pop b k) s.
  by apply: sort_sorted => a b; apply: le_total.
have mono a b : (a <= b)%N -> (b < size s)%N ->
    val pop (nth 0%N s a) k <= val pop (nth 0%N s b) k.
  move=> ab bs.
  have tr : transitive (fun a b => val pop a k <= val pop b k).
    by move=> y x0 z; apply: le_trans.
  have rf : reflexive (fun a b => val pop a k <= val pop b k).
    by move=> x0; apply: lexx.
  apply: (sorted_leq_nth tr rf 0%N ss) => //.
  by rewrite inE (leq_ltn_trans ab bs).
set d1 := dict_set (dict_set d _ PInf) _ PInf.
have [y1 d1i r1] : exists2 y, d1 i = Some y & in_range K y.
  rewrite /d1 /dict_set; case: eqP => _; first by exists PInf.
  by case: eqP => _; [exists PInf | exists x].
set span : rat := _ - _.
case: ifP => [_|/negbT sp]; first by exists y1 => //; apply: in_rangeS.
have bj : all (fun j => (j < size s)%N) (iota 1 (size s).-1.-1).
  apply/allP => j; rewrite mem_iota => /andP [j0].
  case: (size s) => [|[|n]] /=; rewrite ?addn0 ?add1n; last by move/ltnW.
    by rewrite ltnS leqn0 => /eqP e; rewrite e in j0.
  by rewrite ltnS leqn0 => /eqP e; rewrite e in j0.
rewrite foldl_add_interiorE ?iota_uniq //.
case: ifP => [/mapP [j jin ei]|_]; last by exists y1 => //; apply: in_rangeS.
move: jin; rewrite mem_iota => /andP [j1 j2].
have js : (j.+1 < size s)%N.
  move: j1 j2; case: (size s) => [|[|n]] /=; rewrite ?addn0 ?add1n //.
    by move=> j0; rewrite ltnS leqn0 => /eqP e; rewrite e in j0.
  by move=> j0; rewrite ltnS leqn0 => /eqP e; rewrite e in j0.
rewrite /dict_get d1i /= ei index_uniq ?(ltnW js) //.
eexists; first by [].
apply: in_range_add r1.
have lo : val pop (nth 0%N s 0) k <= val pop (nth 0%N s j.-1) k.
  by apply: mono => //; apply: leq_ltn_trans (leq_pred _) (ltnW js).
have mid : val pop (nth 0%N s j.-1) k <= val pop (nth 0%N s j.+1) k.
  by apply: mono => //; apply: leq_trans (leq_pred _) (leqnSn _).
have hi : val pop (nth 0%N s j.+1) k <= val pop (nth 0%N s (size s).-1) k.
  by apply: mono; [rewrite -ltnS prednK // (leq_trans _ js) | rewrite prednK // (leq_trans _ js)].
have sp0 : 0 < span.
  rewrite lt_def sp /= /span subr_ge0.
  exact: le_trans lo (le_trans mid hi).
apply/andP; split.
  by apply: divr_ge0; [rewrite subr_ge0 | apply: ltW].
by rewrite ler_pdivrMr // mul1r /span lerB.
Qed.

Lemma foldl_cd_dim_range (f : seq nat) (ks : seq nat) (d : dict) (K i : nat)
    (x : xrat) :
  uniq f -> d i = Some x -> in_range K x ->
  exists2 y, foldl (cd_dim pop f) d ks i = Some y
           & in_range (K + size ks) y.
Proof.
move=> uf; elim: ks d K x => [|k ks IH] d K x di rx /=.
  by exists x => //; rewrite addn0.
case: (cd_dim_range k uf di rx) => y dy ry.
by case: (IH _ _ _ dy ry) => z dz rz; exists z => //; rewrite addnS -addSn.
Qed.

Lemma init_dist (f : seq nat) (d : dict) (i : nat) :
  i \in f -> foldl (fun d i => dict_set d i (Fin 0)) d f i = Some (Fin 0).
Proof.
elim/last_ind: f d => [|f j IH] d //.
rewrite mem_rcons in_cons -cats1 foldl_cat /= /dict_set.
by case: eqP => // _ /= /IH.
Qed.

(** X24. In a front without repeated members every crowding distance is
    either infinite or a number between 0 and the number of objectives:
    no distance is negative, and each objective adds at most 1. *)
Theorem X24_crowding_distance_range (f : seq nat) (i : nat) :
  uniq f -> i \in f ->
  in_range (size (vec pop 0)) (dict_get (_crowding_distance f pop) i).
Proof.
move=> uf fi; rewrite /_crowding_distance.
case: f uf fi => [|a f] // uf fi.
set d0 := foldl _ dict_empty _.
have d0i : d0 i = Some (Fin 0) by apply: init_dist.
have r0 : in_range 0 (Fin 0) by rewrite /= lexx.
case: (foldl_cd_dim_range (iota 0 (size (vec pop 0))) uf d0i r0) => y dy.
by rewrite add0n size_iota /dict_get dy.
Qed.

End CrowdingRange.

Section CrowdingAgreement.

Local Open Scope ring_scope.

Variable pop : seq (seq rat).

Lemma interior_bound (s : seq nat) :
  all (fun j => (j < size s)%N) (iota 1 (size s).-1.-1).
Proof.
apply/allP => j; rewrite mem_iota => /andP [j0].
case: (size s) => [|[|n]] /=; rewrite ?addn0 ?add1n; last by move/ltnW.
  by rewrite ltnS leqn0 => /eqP e; rewrite e in j0.
by rewrite ltnS leqn0 => /eqP e; rewrite e in j0.
Qed.

(** The loop over the interior positions writes keys of the front only,
    and reads the distances of the keys it writes. *)
Lemma add_interior_local (f s : seq nat) (k : nat) (span : rat)
    (js : seq nat) (d d' : dict) :
  {subset s <= f} -> all (fun j => (j < size s)%N) js ->
  (forall i, i \in f -> d i = d' i) ->
  (forall i, i \in f ->
     foldl (add_interior pop s k span) d js i
     = foldl (add_interior pop s k span) d' js i)
  /\ (forall i, i \notin f -> foldl (add_interior pop s k span) d js i = d i).
Proof.
move=> sf; elim: js d d' => [|j js IH] d d' //= /andP [js_ bj] e.
have kin : nth 0%N s j \in f by apply: sf; apply: mem_nth.
have e1 i : i \in f -> add_interior pop s k span d j i
                       = add_interior pop s k span d' j i.
  move=> fi; rewrite /add_interior /dict_set /dict_get.
  by case: eqP => [_|_]; rewrite ?(e _ kin) ?(e _ fi).
case: (IH _ _ bj e1) => h1 h2; split=> // i nfi.
rewrite h2 // /add_interior /dict_set.
by case: eqP nfi => // ->; rewrite kin.
Qed.

Lemma cd_dim_local (f : seq nat) (d d' : dict) (k : nat) :
  f != [::] -> (forall i, i \in f -> d i = d' i) ->
  (forall i, i \in f -> cd_dim pop f d k i = cd_dim pop f d' k i)
  /\ (forall i, i \notin f -> cd_dim pop f d k i = d i).
Proof.
move=> fn e; rewrite /cd_dim.
set s := sort_by_dim pop k f.
have sf : {subset s <= f} by move=> i; rewrite mem_sort_by_dim.
have sn : (0 < size s)%N by rewrite size_sort; case: (f) fn.
have hf : nth 0%N s 0 \in f by apply: sf; apply: mem_nth.
have lf : nth 0%N s (size s).-1 \in f.
  by apply: sf; apply: mem_nth; rewrite prednK.
set d1 := dict_set (dict_set d _ PInf) _ PInf.
set d1' := dict_set (dict_set d' _ PInf) _ PInf.
have e1 i : i \in f -> d1 i = d1' i.
  by move=> fi; rewrite /d1 /d1' /dict_set; do 2 case: eqP => // _; apply: e.
have n1 i : i \notin f -> d1 i = d i.
  move=> nfi; rewrite /d1 /dict_set.
  case: eqP nfi => [->|_]; first by rewrite lf.
  by case: eqP => [->|_ //]; rewrite hf.
set span : rat := _ - _.
case: ifP => _; first by split.
case: (@add_interior_local f s k span _ _ _ sf (interior_bound s) e1) => h1 h2.
by split=> // i nfi; rewrite h2 // n1.
Qed.

Lemma foldl_cd_dim_local (f : seq nat) (ks : seq nat) (d d' : dict) :
  f != [::] -> (forall i, i \in f -> d i = d' i) ->
  (forall i, i \in f ->
     foldl (cd_dim pop f) d ks i = foldl (cd_dim pop f) d' ks i)
  /\ (forall i, i \notin f -> foldl (cd_dim pop f) d ks i = d i).
Proof.
move=> fn; elim: ks d d' => [|k ks IH] d d' e //=.
case: (cd_dim_local k fn e) => h1 h2.
case: (IH _ _ h1) => h3 h4; split=> // i nfi.
by rewrite h4 // h2.
Qed.

Lemma init_frame (f : seq nat) (d : dict) (i : nat) :
  i \notin f -> foldl (fun d i => dict_set d i (Fin 0)) d f i = d i.
Proof.
elim: f d => [|j f IH] d //=; rewrite in_cons negb_or => /andP [ne nf].
by rewrite IH // /dict_set (negbTE ne).
Qed.

(** One call of [crowding_distance] on a store: inside the front it
    computes what [_crowding_distance] computes, outside it leaves the
    store as it is. *)
Lemma crowding_distance_local (f : seq nat) (store : dict) :
  size (vec pop (head 0%N f)) = size (vec pop 0) ->
  (forall i, i \in f ->
     crowding_distance pop f store i = _crowding_distance f pop i)
  /\ (forall i, i \notin f -> crowding_distance pop f store i = store i).
Proof.
case: f => [|a f] //= sm; rewrite /crowding_distance /_crowding_distance sm.
have e i : i \in a :: f ->
    foldl (fun d i => dict_set d i (Fin 0)) store (a :: f) i
    = foldl (fun d i => dict_set d i (Fin 0)) dict_empty (a :: f) i.
  by move=> fi; rewrite !init_dist.
case: (@foldl_cd_dim_local (a :: f) (iota 0 (size (vec pop 0))) _ _ isT e).
move=> h1 h2; split=> // i nfi.
by rewrite h2 // init_frame.
Qed.

Lemma store_of_fronts (fs : seq (seq nat)) (store : dict) (f : seq nat)
    (i : nat) :
  uniq (flatten fs) ->
  (forall g, g \in fs -> size (vec pop (head 0%N g)) = size (vec pop 0)) ->
  f \in fs -> i \in f ->
  foldl (fun d g => crowding_distance pop g d) store fs i
  = _crowding_distance f pop i.
Proof.
elim: fs store => [|g fs IH] store //=.
rewrite cat_uniq => /and3P [ug dj ufs] sm.
have frame st : i \notin flatten fs ->
    foldl (fun d g => crowding_distance pop g d) st fs i = st i.
  elim: (fs) st (fun h hin => sm h (mem_behead hin)) => [|h hs IHh] st smh //=.
  rewrite mem_cat negb_or => /andP [nh nhs].
  have smh' h' : h' \in hs -> size (vec pop (head 0%N h')) = size (vec pop 0).
    by move=> h'in; apply: smh; rewrite in_cons h'in orbT.
  rewrite (IHh _ smh' nhs).
  by case: (crowding_distance_local st (smh h (mem_head _ _))) => _ /(_ _ nh).
rewrite in_cons => /orP [/eqP ->|ffs] fi.
  rewrite frame; last first.
    by case: (crowding_distance_local store (sm g (mem_head _ _))) => h _; apply: h.
  by apply/negP => ifs; move/hasP: dj; apply; exists i.
apply: IH => //.
by move=> h hin; apply: sm; rewrite in_cons hin orbT.
Qed.

End CrowdingAgreement.

Section CliCrowding.

Local Open Scope ring_scope.

(** X25. On vectors of one length, the crowding distances that
    [nsga_rank] leaves in the population, computed front after front on one
    shared store, are those [_crowding_distance] of the service computes
    for each front on its own. *)
Theorem X25_cli_crowding_agrees (m : nat) (pop : seq (seq rat)) :
  uniform m pop ->
  exists2 fronts, non_dominated_sort pop = Some fronts
    & forall f i, f \in fronts -> i \in f ->
        dict_get (foldl (fun d g => crowding_distance pop g d)
                        dict_empty fronts) i
        = dict_get (_crowding_distance f pop) i.
Proof.
case: pop => [|v pop] um.
  by exists [:: [::]] => // f i; rewrite inE => /eqP ->.
case: (non_dominated_sort_complete um) => fs [E P _ _].
exists fs.
  move: E (first_front_nonempty um isT).
  rewrite /non_dominated_sort /_non_dominated_sort.
  by case: [seq _ <- _ | _].
move=> f i ff fi; rewrite /dict_get (@store_of_fronts _ _ _ f) //.
  by rewrite (perm_uniq P) iota_uniq.
move=> g gin; case: g gin => [|a g] // gin.
have : a \in flatten fs by apply/flattenP; exists (a :: g); rewrite ?mem_head.
rewrite (perm_mem P) mem_iota add0n /= => an.
have sa : size (vec (v :: pop) a) == m by apply: (allP um); apply: mem_nth.
have s0 : size (vec (v :: pop) 0) == m by apply: (allP um); apply: mem_head.
by rewrite (eqP sa) (eqP s0).
Qed.

End CliCrowding.

Section CrowdingExamples.

Local Open Scope ring_scope.

Lemma X24_crowding_distance_range_witness :
  in_range (size (vec c6_pop 0))
           (dict_get (_crowding_distance [:: 0; 1; 2]%N c6_pop) 1).
Proof.
apply: (@X24_crowding_distance_range c6_pop [:: 0; 1; 2]%N 1).
- reflexivity.
- reflexivity.
Defined.

Lemma X25_cli_crowding_agrees_witness :
  exists2 fronts, non_dominated_sort c3_objs = Some fronts
    & forall f i, f \in fronts -> i \in f ->
        dict_get (foldl (fun d g => crowding_distance c3_objs g d)
                        dict_empty fronts) i
        = dict_get (_crowding_distance f c3_objs) i.
Proof.
apply: (@X25_cli_crowding_agrees 6 c3_objs).
vm_compute; reflexivity.
Defined.

End CrowdingExamples.

(* ------------------------------------------------------------------ *)
(** ** Outcomes of the CSV reader *)

Section ReadCsvProps.

Local Open Scope string_scope.

Variable str_to_int : string -> option int.
Variable str_to_float : string -> option rat.



End ReadCsvProps.

(* ------------------------------------------------------------------ *)
(** ** A common shift of the mileages *)

Section MileageShift.

Local Open Scope ring_scope.

Variable str_to_float : string -> option rat.

Local Notation mileage_of := (mileage_of str_to_float).
Local Notation convertible := (convertible str_to_float).
Local Notation mapped_rows := (mapped_rows str_to_float).
Local Notation shift := (shift_mileage str_to_float).

Lemma foldl_add_acc (a b : rat) (s : seq rat) :
  foldl +%R (a + b) s = foldl +%R a s + b.
Proof.
by elim: s a => [|m s IH] a //=; rewrite -IH addrAC.
Qed.

Lemma fleet_average_shift (c : rat) (ms : seq rat) :
  ms != [::] ->
  fleet_average [seq m + c | m <- ms] = fleet_average ms + c.
Proof.
move=> ne; rewrite /fleet_average size_map.
have -> : foldl +%R 0 [seq m + c | m <- ms]
          = foldl +%R 0 ms + (size ms)%:R * c.
  elim: ms {ne} (0 : rat) => [|m s IH] a /=; first by rewrite mul0r addr0.
  by rewrite IH addrA foldl_add_acc -addrA -natr1 mulrDl mul1r [c + _]addrC.
have n0 : (size ms)%:R != 0 :> rat by rewrite pnatr_eq0 size_eq0.
rewrite size_eq0 (negbTE ne) mulrDl; congr (_ + _).
by rewrite mulrAC divff // mul1r.
Qed.

Lemma shift_convertible (c : rat) (rows : seq Row) :
  all convertible [seq shift c r | r <- rows].
Proof. by rewrite all_map; apply/(all_nthP dflt_row). Qed.

Lemma map_ext_all (A B : Type) (P : pred A) (f g : A -> B) (s : seq A) :
  all P s -> (forall x, P x -> f x = g x) -> map f s = map g s.
Proof.
by move=> + H; elim: s => [|x s IH] //= /andP [/H -> /IH ->].
Qed.

Lemma shift_mapped (c : rat) (rows : seq Row) :
  all convertible rows ->
  [/\ [seq t.1.1.1 | t <- mapped_rows [seq shift c r | r <- rows]]
      = [seq t.1.1.1 | t <- mapped_rows rows],
      [seq t.1.2 | t <- mapped_rows [seq shift c r | r <- rows]]
      = [seq t.1.2 | t <- mapped_rows rows]
    & [seq t.2 | t <- mapped_rows [seq shift c r | r <- rows]]
      = [seq t.2 | t <- mapped_rows rows]].
Proof.
case: rows => [|r0 rows] // ok.
pose avg := fleet_average [seq mileage_of r | r <- r0 :: rows].
have A : fleet_average
           [seq mileage_of r | r <- [seq shift c r | r <- r0 :: rows]]
         = avg + c.
  rewrite -map_comp -(fleet_average_shift c) //; congr fleet_average.
  by rewrite -map_comp.
rewrite /mapped_rows A -/avg -!map_comp.
have E r : convertible r ->
    map_row_to_objectives str_to_float (shift c r) (avg + c)
    = omap (fun t : seq rat * Extras * rat * Alerts =>
              (t.1.1.1, extras_of r (mileage_of r + c), t.1.2, t.2))
           (map_row_to_objectives str_to_float r avg).
  rewrite !map_row_to_objectivesE /convertible.
  case Em: (float_or_zero _ _) => [mil|] // _.
  have Ms : mileage_of r = mil by rewrite /mileage_of Em.
  have -> : float_or_zero str_to_float (row_mileage (shift c r))
            = Some (mileage_of r + c) by [].
  have e : `|mil + c - (avg + c)| = `|mil - avg|.
    by congr (`| _ |); rewrite opprD addrACA subrr addr0.
  by rewrite Ms; cbv beta iota delta [omap obind oapp]; rewrite e.
have S r : convertible r ->
    exists t, map_row_to_objectives str_to_float r avg = Some t.
  rewrite /convertible -(map_row_isSome _ _ avg).
  by case: (map_row_to_objectives _ _ _) => // t _; exists t.
split; apply: map_ext_all ok _ => r cr; rewrite /comp E //;
  by case: (S _ cr) => t ->.
Qed.

Lemma shift_train_id (c : rat) (rows : seq Row) (i : nat) :
  row_train_id (nth dflt_row [seq shift c r | r <- rows] i)
  = row_train_id (nth dflt_row rows i).
Proof.
case: (ltnP i (size rows)) => ir; first by rewrite (nth_map dflt_row).
by rewrite !nth_default ?size_map.
Qed.

(** X27. Adding one number to the mileage of every row changes neither
    the order of the response nor any pareto rank: the mileage enters the
    ranking through its deviation from the fleet average only. *)
Theorem X27_common_mileage_shift (rows : seq Row) (w : Weights) (c : rat) :
  all convertible rows ->
  omap (map (fun it => (res_train_id it, res_pareto_rank it)))
       (rank_endpoint str_to_float [seq shift c r | r <- rows] w)
  = omap (map (fun it => (res_train_id it, res_pareto_rank it)))
         (rank_endpoint str_to_float rows w).
Proof.
move=> ok; rewrite /rank_endpoint /rank_trace !rank_inputsE ok.
rewrite shift_convertible.
case: (shift_mapped c ok) => -> -> _.
case: (nsga_order _ _) => [order|] //=; congr Some.
rewrite -!map_comp; apply: eq_map => t /=.
by rewrite shift_train_id.
Qed.

End MileageShift.

Section MileageShiftExamples.

Local Open Scope ring_scope.

Lemma X27_common_mileage_shift_witness :
  omap (map (fun it => (res_train_id it, res_pareto_rank it)))
       (rank_endpoint Decimal.decimal_float
          [seq shift_mileage Decimal.decimal_float 5%:R r | r <- x_rows]
          no_weights)
  = omap (map (fun it => (res_train_id it, res_pareto_rank it)))
         (rank_endpoint Decimal.decimal_float x_rows no_weights).
Proof.
apply: (@X27_common_mileage_shift Decimal.decimal_float x_rows no_weights
          5%:R).
vm_compute; reflexivity.
Defined.

End MileageShiftExamples.

(* ------------------------------------------------------------------ *)
(** ** The pipeline of the CSV entry point *)

Section Pipeline.

Local Open Scope ring_scope.

(** X28. The run of [main] from the trains to the categorised list: when
    no configured denominator is negative it ends without a division by
    zero, lists every train once, gives every train a rank and the category
    [classify] computes from the train alone, and lists the trains in
    ascending rank. *)
Theorem X28_pipeline_keeps_every_train (eps : rat) (trains : seq TrainInput)
    (cfg : ObjectiveConfig) (thresholds : ClassificationThresholds) :
  0 < eps -> nonneg_norms cfg ->
  exists rows,
    [/\ categorized eps trains cfg thresholds = Some rows,
        perm_eq [seq ti_train_id r.1.1.1 | r <- rows]
                [seq ti_train_id t | t <- trains],
        all (fun r => (r.1.2 != None)
                      && (r.1.1.2 == classify_category r.1.1.1 thresholds))
            rows
      & sorted (fun a b => rank_le a.1.2 b.1.2) rows].
Proof.
move=> ep nn; rewrite /categorized (compute_objectives_some ep _ nn).
set pop := [seq c.2 | c <- _].
have sp : size pop = size trains by rewrite !size_map.
have um : uniform 6 pop.
  by rewrite /pop /uniform -map_comp all_map; apply/(all_nthP dflt_train).
case: (nsga_rank_spec um) => fs [-> C ->] /=.
set store := foldl _ dict_empty fs.
set leT := fun i j => cli_key_le (cli_key fs store i) (cli_key fs store j).
set out := sort leT _.
have tot : total leT by move=> a b; apply: cli_key_le_total.
have tr : transitive leT by move=> b a c; apply: cli_key_le_trans.
have P : perm_eq out (iota 0 (size trains)) by rewrite /out sp perm_sort.
eexists; split; first by [].
- rewrite -map_comp.
  have -> : [seq ti_train_id t | t <- trains]
            = [seq ti_train_id (nth dflt_train trains i)
              | i <- iota 0 (size trains)].
    apply: (@eq_from_nth _ EmptyString); first by rewrite !size_map size_iota.
    move=> i; rewrite size_map => it.
    by rewrite (nth_map dflt_train) // (nth_map 0%N) ?size_iota // nth_iota.
  exact: perm_map.
- rewrite all_map; apply/allP => i; rewrite (perm_mem P) mem_iota add0n /=.
  rewrite -sp => /C /flattenP [f ff fi]; rewrite eqxx andbT /rank_of.
  by have -> : has (fun f => i \in f) fs by apply/hasP; exists f.
- rewrite sorted_map; apply: sub_sorted (sort_sorted tot _) => i j /=.
  exact: cli_key_le_rank.
Qed.

End Pipeline.

Section PipelineExamples.

Local Open Scope ring_scope.

Lemma X28_pipeline_keeps_every_train_witness :
  exists rows,
    [/\ categorized (1 / 1000%:R) x_trains default_config default_thresholds
        = Some rows,
        perm_eq [seq ti_train_id r.1.1.1 | r <- rows]
                [seq ti_train_id t | t <- x_trains],
        all (fun r => (r.1.2 != None)
                      && (r.1.1.2
                          == classify_category r.1.1.1 default_thresholds))
            rows
      & sorted (fun a b => rank_le a.1.2 b.1.2) rows].
Proof.
apply: (@X28_pipeline_keeps_every_train (1 / 1000%:R) x_trains
          default_config default_thresholds).
- vm_compute; reflexivity.
- vm_compute; reflexivity.
Defined.

End PipelineExamples.

(* ------------------------------------------------------------------ *)
(** ** Every front from the earlier fronts; reordering the population *)

Section FrontLayers.

Local Open Scope ring_scope.

Lemma fronts_disjoint (fs : seq (seq nat)) (j k i : nat) :
  uniq (flatten fs) -> (j < k)%N ->
  i \in nth [::] fs j -> i \in nth [::] fs k -> False.
Proof.
elim: fs j k => [|f fs IH] j k /=; first by rewrite !nth_nil.
rewrite cat_uniq => /and3P [_ /hasPn dj ufs].
case: k => [|k] //; case: j => [|j] /=; last by rewrite ltnS; apply: IH.
move=> _ fi /mem_nth_flatten /dj /=.
by rewrite fi.
Qed.

Lemma mem_flatten_take (fs : seq (seq nat)) (k i : nat) :
  reflect (exists2 j, (j < minn k (size fs))%N & i \in nth [::] fs j)
          (i \in flatten (take k fs)).
Proof.
apply: (iffP flattenP) => [[f fin fi]|[j jk ij]].
  have lt : (index f (take k fs) < size (take k fs))%N by rewrite index_mem.
  have ltk : (index f (take k fs) < k)%N.
    by apply: leq_trans lt _; rewrite size_take_min geq_minl.
  exists (index f (take k fs)); first by rewrite -size_take_min.
  by rewrite -(nth_take _ ltk) nth_index.
move: jk; rewrite leq_min => /andP [jk js].
exists (nth [::] fs j) => //; rewrite -(nth_take (n0 := k)) //.
by apply: mem_nth; rewrite size_take_min leq_min jk js.
Qed.

Lemma mem_flatten_nthP (fs : seq (seq nat)) (i : nat) :
  reflect (exists2 j, (j < size fs)%N & i \in nth [::] fs j)
          (i \in flatten fs).
Proof.
apply: (iffP flattenP) => [[f fin fi]|[j jn ij]].
  by exists (index f fs); rewrite ?index_mem ?nth_index.
by exists (nth [::] fs j) => //; apply: mem_nth.
Qed.

(** A member of a later front is dominated by a member of any earlier
    front, or is that member. *)
Lemma front_chain (m : nat) (pop : seq (seq rat)) (fs : seq (seq nat))
    (k d q : nat) :
  uniform m pop -> all (fun i => (i < size pop)%N) (flatten fs) ->
  layered pop fs -> (k + d < size fs)%N -> q \in nth [::] fs (k + d) ->
  exists2 p, p \in nth [::] fs k
           & (p == q) || _dominates (vec pop p) (vec pop q).
Proof.
move=> /allP um /allP bd L.
have sz p j : p \in nth [::] fs j -> size (vec pop p) = m.
  by move=> /mem_nth_flatten /bd pn; apply/eqP/um/mem_nth.
elim: d q => [|d IH] q; first by rewrite addn0 => _ qk; exists q; rewrite ?eqxx.
rewrite addnS => lt qin; case: (L _ _ qin) => p' p'in dp'.
case: (IH _ (ltnW lt) p'in) => p pin /orP [/eqP e|dp].
  by exists p => //; rewrite e dp' orbT.
exists p => //; apply/orP; right.
by apply: (dominates_trans _ _ dp dp');
   rewrite ?(sz _ _ pin) ?(sz _ _ p'in) ?(sz _ _ qin).
Qed.

(** Front [k] from the earlier fronts, for [k] below the number of
    fronts. *)
Lemma front_layer_in (m : nat) (pop : seq (seq rat)) :
  uniform m pop ->
  exists2 fs, _non_dominated_sort pop = Some fs
    & forall k i, (k < size fs)%N -> (i < size pop)%N ->
        (i \in nth [::] fs k)
        = (i \notin flatten (take k fs))
          && all (fun q => _dominates (vec pop q) (vec pop i)
                           ==> (q \in flatten (take k fs)))
                 (iota 0 (size pop)).
Proof.
move=> um; case: (non_dominated_sort_complete um) => fs [E P A L].
exists fs => // k i kn io.
have uf : uniq (flatten fs) by rewrite (perm_uniq P) iota_uniq.
have bd : all (fun i => (i < size pop)%N) (flatten fs).
  by apply/allP => q; rewrite (perm_mem P) mem_iota.
have full q : (q < size pop)%N -> q \in flatten fs.
  by move=> qn; rewrite (perm_mem P) mem_iota.
have early q j : (j < size fs)%N -> q \in nth [::] fs j ->
    (q \in flatten (take k fs)) = (j < k)%N.
  move=> jn qj; apply/(mem_flatten_take fs k q)/idP => [[j' lt qj']|jk].
    move: lt; rewrite leq_min => /andP [j'k _].
    case: (ltngtP j j') => [lt|gt|-> //].
    - by case: (fronts_disjoint uf lt qj qj').
    - by case: (fronts_disjoint uf gt qj' qj).
  by exists j => //; rewrite leq_min jk jn.
apply/idP/andP => [ik|[nik /allP dk]].
  split; first by rewrite (early _ _ kn ik) ltnn.
  apply/allP => q; rewrite mem_iota add0n /= => qn; apply/implyP => dq.
  case/mem_flatten_nthP: (full _ qn) => j jn qj.
  rewrite (early _ _ jn qj); case: (ltnP j k) => // kj.
  have jE : j = (k + (j - k))%N by rewrite subnKC.
  move: jn qj; rewrite jE => jn qj.
  case: (front_chain um bd L jn qj) => p pk /orP [/eqP e|dp].
    by move: (A _ (mem_nth [::] kn) _ _ pk ik); rewrite e dq.
  have := A _ (mem_nth [::] kn) _ _ pk ik.
  rewrite (dominates_trans _ _ dp dq) //.
  - have /(allP bd) pn := mem_nth_flatten pk.
    by rewrite (eqP (allP um _ (mem_nth [::] pn))) (eqP (allP um _ (mem_nth [::] qn))).
  - by rewrite (eqP (allP um _ (mem_nth [::] qn))) (eqP (allP um _ (mem_nth [::] io))).
case/mem_flatten_nthP: (full _ io) => j jn ij.
move: nik; rewrite (early _ _ jn ij) -leqNgt leq_eqVlt => /orP [/eqP -> //|kj].
case: j jn ij kj => [|j] // jn ij; rewrite ltnS => kj.
case: (L _ _ ij) => p pj dp.
have pn : (p < size pop)%N by apply: (allP bd); apply: mem_nth_flatten pj.
have := dk p; rewrite mem_iota add0n /= dp /= => /(_ pn).
by rewrite (early _ _ (ltnW jn) pj) ltnNge kj.
Qed.


(** The same for every [k]: beyond the last front both sides are false. *)
Lemma front_layer (m : nat) (pop : seq (seq rat)) :
  uniform m pop ->
  exists2 fs, _non_dominated_sort pop = Some fs
    & forall k i, (i < size pop)%N ->
        (i \in nth [::] fs k)
        = (i \notin flatten (take k fs))
          && all (fun q => _dominates (vec pop q) (vec pop i)
                           ==> (q \in flatten (take k fs)))
                 (iota 0 (size pop)).
Proof.
move=> um; case: (front_layer_in um) => fs E H; exists fs => // k i io.
case: (ltnP k (size fs)) => [kn|nk]; first exact: H.
case: (non_dominated_sort_complete um) => fs' [E' P _ _].
move: E'; rewrite E => -[e]; rewrite -{}e in P.
by rewrite nth_default // take_oversize // (perm_mem P) mem_iota add0n /= io.
Qed.

Lemma uniq_nth_flatten (fs : seq (seq nat)) (k : nat) :
  uniq (flatten fs) -> uniq (nth [::] fs k).
Proof.
elim: fs k => [|f fs IH] [|k] //=; rewrite cat_uniq => /and3P [uf _ ufs] //.
exact: IH.
Qed.

(** X29. On vectors of one length every front is the Pareto set of what
    the earlier fronts leave: front [k] holds exactly the candidates that
    are in no earlier front and whose dominators all are in earlier
    fronts. *)
Theorem X29_every_front_is_a_pareto_set (m : nat) (pop : seq (seq rat)) :
  uniform m pop ->
  exists2 fs, _non_dominated_sort pop = Some fs
    & forall k,
        perm_eq (nth [::] fs k)
          [seq i <- iota 0 (size pop)
          | (i \notin flatten (take k fs))
            && all (fun q => _dominates (vec pop q) (vec pop i)
                             ==> (q \in flatten (take k fs)))
                   (iota 0 (size pop))].
Proof.
move=> um; case: (front_layer um) => fs E H; exists fs => // k.
case: (non_dominated_sort_complete um) => fs' [E' P _ _].
move: E'; rewrite E => -[e]; rewrite -{}e in P.
have uf : uniq (flatten fs) by rewrite (perm_uniq P) iota_uniq.
apply: uniq_perm; rewrite ?uniq_nth_flatten ?filter_uniq ?iota_uniq // => i.
rewrite mem_filter mem_iota add0n /=.
case: (ltnP i (size pop)) => [io|oi]; first by rewrite andbT H.
rewrite andbF; apply/negbTE/negP => /mem_nth_flatten.
by rewrite (perm_mem P) mem_iota add0n /= ltnNge oi.
Qed.

Lemma mem_take_has (fs : seq (seq nat)) (k i : nat) :
  (i \in flatten (take k fs)) = has (fun j => i \in nth [::] fs j) (iota 0 k).
Proof.
apply/(mem_flatten_take fs k i)/hasP => [[j jk ij]|[j jk ij]].
  exists j => //; rewrite mem_iota add0n /=.
  by move: jk; rewrite leq_min => /andP [].
exists j => //; move: jk; rewrite mem_iota add0n /= leq_min => ->.
by case: (ltnP j (size fs)) ij => // le; rewrite nth_default.
Qed.

(** X30. On vectors of one length the front of a candidate does not
    depend on its place in the population: when the population is listed in
    the order [sigma], the candidate at place [j] of the new list is in
    front [k] exactly when it was in front [k] of the old list. *)
Theorem X30_fronts_follow_a_reordering (m : nat) (pop : seq (seq rat))
    (sigma : seq nat) :
  uniform m pop -> perm_eq sigma (iota 0 (size pop)) ->
  exists fs fs',
    [/\ _non_dominated_sort pop = Some fs,
        _non_dominated_sort [seq vec pop i | i <- sigma] = Some fs'
      & forall k j, (j < size pop)%N ->
          (j \in nth [::] fs' k) = (nth 0%N sigma j \in nth [::] fs k)].
Proof.
move=> um ps.
have sn : size sigma = size pop by rewrite (perm_size ps) size_iota.
have bs j : (j < size pop)%N -> (nth 0%N sigma j < size pop)%N.
  move=> jn; have : nth 0%N sigma j \in sigma by rewrite mem_nth ?sn.
  by rewrite (perm_mem ps) mem_iota.
set pop' := [seq vec pop i | i <- sigma].
have sp : size pop' = size pop by rewrite size_map.
have um' : uniform m pop'.
  apply/allP => v /mapP [i ii ->]; apply: (allP um); apply: mem_nth.
  by move: ii; rewrite (perm_mem ps) mem_iota.
have ve j : (j < size pop)%N -> vec pop' j = vec pop (nth 0%N sigma j).
  by move=> jn; rewrite vec_sub ?sn.
case: (front_layer um) => fs E H; case: (front_layer um') => fs' E' H'.
exists fs, fs'; split=> // k; elim/ltn_ind: k => k IH j jn.
have T q : (q < size pop)%N ->
    (q \in flatten (take k fs')) = (nth 0%N sigma q \in flatten (take k fs)).
  move=> qn; rewrite !mem_take_has; apply: eq_in_has => k'.
  by rewrite mem_iota add0n /= => k'k; apply: IH.
rewrite H' ?sp // (H _ _ (bs _ jn)) T //; congr (_ && _).
pose P q := _dominates (vec pop q) (vec pop (nth 0%N sigma j))
            ==> (q \in flatten (take k fs)).
have R : all P (iota 0 (size pop))
         = all (fun q => P (nth 0%N sigma q)) (iota 0 (size pop)).
  rewrite -(perm_all _ ps) -[in LHS](mkseq_nth 0%N sigma) /mkseq all_map sn.
  exact: eq_all.
rewrite ?sp -/P R; apply: eq_in_all => q; rewrite mem_iota add0n /= => qn.
by rewrite /P !ve // T.
Qed.

End FrontLayers.

Section FrontLayerExamples.

Local Open Scope ring_scope.

Lemma X29_every_front_is_a_pareto_set_witness :
  exists2 fs, _non_dominated_sort c3_objs = Some fs
    & forall k,
        perm_eq (nth [::] fs k)
          [seq i <- iota 0 (size c3_objs)
          | (i \notin flatten (take k fs))
            && all (fun q => _dominates (vec c3_objs q) (vec c3_objs i)
                             ==> (q \in flatten (take k fs)))
                   (iota 0 (size c3_objs))].
Proof.
apply: (@X29_every_front_is_a_pareto_set 6 c3_objs).
vm_compute; reflexivity.
Defined.

Lemma X30_fronts_follow_a_reordering_witness :
  exists fs fs',
    [/\ _non_dominated_sort c3_objs = Some fs,
        _non_dominated_sort [seq vec c3_objs i | i <- [:: 2; 0; 1]%N]
        = Some fs'
      & forall k j, (j < size c3_objs)%N ->
          (j \in nth [::] fs' k)
          = (nth 0%N [:: 2; 0; 1]%N j \in nth [::] fs k)].
Proof.
apply: (@X30_fronts_follow_a_reordering 6 c3_objs [:: 2; 0; 1]%N).
- vm_compute; reflexivity.
- vm_compute; reflexivity.
Defined.

End FrontLayerExamples.
